(** * browser-db: query translation and transaction chains over IndexedDB

    A shallow embedding of [src/query.ts], [src/readChain.ts],
    [src/writeChain.ts] and [promisifyTransaction] of [src/utils.ts],
    together with a model of the part of the host engine (IndexedDB) those
    files talk to.  The engine is threaded explicitly: every function that
    touches the database takes the engine state and returns the new one, and
    the engine keeps a log of every call it receives.

    Further parts embed the store accessor ([storeAccessor.ts]), the store
    definitions and their migrations ([defineStore.ts], [schema.ts],
    [field.ts]) and what [openDB] of [createDB.ts] does before it asks the
    host to open the database. *)

From Stdlib Require Import ZArith NArith Lia List String Ascii Bool.
From stdpp Require Import base option list strings gmap sorting.
Import ListNotations.

Local Open Scope string_scope.
Local Open Scope Z_scope.

(** ** JavaScript values *)

(** The values that occur as keys, bounds and record fields.  Numbers are
    restricted to integers; [undefined] is not a constructor: an absent or
    undefined property is the [None] of an [option]. *)
Inductive jsval : Type :=
  | JNull
  | JBool (b : bool)
  | JNum (n : Z)
  | JStr (s : string).

#[global] Instance jsval_eq_dec : EqDecision jsval.
Proof. solve_decision. Defined.

(** A stored record: a JavaScript object with string property names. *)
Abbreviation record := (gmap string jsval).

(** The code unit U+FFFF, written '\uffff' in the source.  Strings are
    kept in UTF-8, where U+FFFF is the bytes EF BF BF. *)
Definition uffff : string :=
  String (ascii_of_nat 239) (String (ascii_of_nat 191) (String (ascii_of_nat 191) EmptyString)).

(** ** What a call can throw *)

Inductive DOMException : Type :=
  | NotFoundError
  | DataError
  | ConstraintError
  | InvalidAccessError
  | ReadOnlyError
  | TransactionInactiveError.

(** What a [throw] or a rejection carries: [null] (the [error] property of a
    transaction that has none), an engine exception, a JavaScript [Error]
    with its message, or a [TypeError] of the bindings. *)
Inductive reason : Type :=
  | RNull
  | RDom (e : DOMException)
  | RError (message : string)
  | RTypeError.

(** The outcome of a synchronous call: its value, or what it threw. *)
Inductive thrown (A : Type) : Type :=
  | Ok (a : A)
  | Throw (r : reason).
Arguments Ok {A} a.
Arguments Throw {A} r.

#[global] Instance thrown_ret : MRet thrown := fun A a => Ok a.
#[global] Instance thrown_bind : MBind thrown :=
  fun A B k t => match t with Ok a => k a | Throw r => Throw r end.
#[global] Instance thrown_fmap : FMap thrown :=
  fun A B f t => match t with Ok a => Ok (f a) | Throw r => Throw r end.

(** ** Keys *)

(** Keys are numbers and strings. *)
Definition valid_key (v : jsval) : bool :=
  match v with
  | JNum _ | JStr _ => true
  | _ => false
  end.

(** The engine orders strings by their UTF-16 code units.  On UTF-8 this is
    the order of the bytes except between a character above U+FFFF (lead
    byte F0 and up; two surrogates from D800 to DFFF in UTF-16) and a
    character from U+E000 to U+FFFF (lead byte EE or EF; one code unit): of
    these the first is the smaller one.  [unit_rank] ranks the bytes so:
    EE and EF above all others. *)
Definition unit_rank (c : ascii) : N :=
  let n := N_of_ascii c in
  if (n <? 238)%N then n
  else if (n <? 240)%N then (n + 16)%N
  else (n - 2)%N.

Fixpoint code_unit_compare (a b : string) : comparison :=
  match a, b with
  | EmptyString, EmptyString => Eq
  | EmptyString, String _ _ => Lt
  | String _ _, EmptyString => Gt
  | String x a', String y b' =>
      match N.compare (unit_rank x) (unit_rank y) with
      | Eq => code_unit_compare a' b'
      | c => c
      end
  end.

(** The order of keys: a number sorts before a string. *)
Definition key_compare (a b : jsval) : comparison :=
  match a, b with
  | JNum x, JNum y => Z.compare x y
  | JNum _, JStr _ => Lt
  | JStr _, JNum _ => Gt
  | JStr x, JStr y => code_unit_compare x y
  | _, _ => Eq
  end.

(** ** Key ranges (IDBKeyRange) *)

Module IDBKeyRange.
(** The native range object: its four read-only properties.  An absent
    [lower] or [upper] is an unbounded side. *)
Record t : Type := Make {
  lower : option jsval;
  upper : option jsval;
  lowerOpen : bool;
  upperOpen : bool;
}.

(** The four factories of the host.  Each throws a DataError when a bound
    is not a valid key; [bound] also when the lower bound is above the
    upper one, or equal to it with an end open. *)
Definition only (v : jsval) : thrown t :=
  if valid_key v then Ok (Make (Some v) (Some v) false false)
  else Throw (RDom DataError).

Definition lowerBound (v : jsval) (open : bool) : thrown t :=
  if valid_key v then Ok (Make (Some v) None open true)
  else Throw (RDom DataError).

Definition upperBound (v : jsval) (open : bool) : thrown t :=
  if valid_key v then Ok (Make None (Some v) true open)
  else Throw (RDom DataError).

Definition bound (lo hi : jsval) (lowerOpen upperOpen : bool) : thrown t :=
  if valid_key lo && valid_key hi then
    match key_compare lo hi with
    | Lt => Ok (Make (Some lo) (Some hi) lowerOpen upperOpen)
    | Eq => if lowerOpen || upperOpen then Throw (RDom DataError)
            else Ok (Make (Some lo) (Some hi) lowerOpen upperOpen)
    | Gt => Throw (RDom DataError)
    end
  else Throw (RDom DataError).
End IDBKeyRange.

#[global] Instance IDBKeyRange_eq_dec : EqDecision IDBKeyRange.t.
Proof. solve_decision. Defined.

(** ** The host engine *)

Definition bound_ok (b : option jsval) : bool :=
  match b with
  | None => true
  | Some v => valid_key v
  end.

(** A range the engine accepts: valid bounds, the lower one below the upper
    one or equal to it with both ends closed.  Every range the factories
    return is one; a request throws a DataError for a key that is not valid
    and for any other range. *)
Definition range_ok (r : IDBKeyRange.t) : bool :=
  bound_ok (IDBKeyRange.lower r) && bound_ok (IDBKeyRange.upper r) &&
  match IDBKeyRange.lower r, IDBKeyRange.upper r with
  | Some lo, Some hi =>
      match key_compare lo hi with
      | Lt => true
      | Eq => negb (IDBKeyRange.lowerOpen r) && negb (IDBKeyRange.upperOpen r)
      | Gt => false
      end
  | _, _ => true
  end.

Definition in_range (r : IDBKeyRange.t) (k : jsval) : bool :=
  match IDBKeyRange.lower r with
  | None => true
  | Some lo =>
      match key_compare lo k with
      | Lt => true
      | Eq => negb (IDBKeyRange.lowerOpen r)
      | Gt => false
      end
  end &&
  match IDBKeyRange.upper r with
  | None => true
  | Some hi =>
      match key_compare k hi with
      | Lt => true
      | Eq => negb (IDBKeyRange.upperOpen r)
      | Gt => false
      end
  end.

(** The [query] argument of a native request: a key or a range.  A key
    stands for the range that holds it alone. *)
Inductive idbquery : Type :=
  | QKey (k : jsval)
  | QRange (r : IDBKeyRange.t).

Definition range_of_query (q : idbquery) : IDBKeyRange.t :=
  match q with
  | QKey k => IDBKeyRange.Make (Some k) (Some k) false false
  | QRange r => r
  end.

Inductive IDBTransactionMode : Type := readonly | readwrite.
Inductive IDBCursorDirection : Type := next | prev.

(** An object store: its in-line key path (or out-of-line keys), its rows in
    ascending key order, its indexes (index name to indexed field), and the
    names of the indexes created with [unique: true].  Key generators and
    multi-entry indexes are not modelled. *)
Record objectStore : Type := ObjectStore {
  keyPath : option string;
  rows : list (jsval * record);
  indexes : gmap string string;
  uniqueIndexes : list string;
}.

(** Every call the engine receives. *)
Inductive call : Type :=
  | c_transaction (storeNames : list string) (mode : IDBTransactionMode)
  | c_get (storeName : string) (key : jsval)
  | c_getAll (storeName : string) (index : option string)
             (query : option idbquery) (count : option Z)
  | c_count (storeName : string) (index : option string) (query : option idbquery)
  | c_openCursor (storeName : string) (index : option string)
                 (range : option IDBKeyRange.t) (direction : IDBCursorDirection)
  | c_continue
  | c_put (storeName : string) (value : record) (key : option jsval)
  | c_add (storeName : string) (value : record) (key : option jsval)
  | c_delete (storeName : string) (key : idbquery)
  | c_clear (storeName : string).

(** An open transaction: its scope and mode, the contents its requests have
    produced so far, and the error of its first failed request. *)
Record IDBTransaction : Type := Transaction {
  tx_scope : list string;
  tx_mode : IDBTransactionMode;
  tx_stores : gmap string objectStore;
  tx_failed : option DOMException;
}.

(** The connection: committed contents, the transaction the running
    function has open, and the log of calls. *)
Record Engine : Type := MkEngine {
  objectStores : gmap string objectStore;
  active : option IDBTransaction;
  calls : list call;
}.

(** The completion signals of a transaction, each with the value of
    [transaction.error] at the time its handler runs. *)
Inductive tx_event_type : Type := ev_complete | ev_error | ev_abort.

Record tx_event : Type := TxEvent {
  ev_type : tx_event_type;
  ev_txerror : option DOMException;
}.

(** *** Synchronous calls: state and exceptions *)

Definition M (A : Type) : Type := Engine -> thrown A * Engine.

Definition ret {A} (a : A) : M A := fun db => (Ok a, db).
Definition throw {A} (r : reason) : M A := fun db => (Throw r, db).
Definition bind {A B} (m : M A) (k : A -> M B) : M B :=
  fun db =>
    match m db with
    | (Ok a, db') => k a db'
    | (Throw r, db') => (Throw r, db')
    end.

Notation "'let!' x ':=' m 'in' k" := (bind m (fun x => k))
  (at level 10, x name, m at level 100, k at level 200).
Notation "'do!' m 'in' k" := (bind m (fun _ => k))
  (at level 10, m at level 100, k at level 200).

Definition log (c : call) : M unit :=
  fun db => (Ok tt, MkEngine (objectStores db) (active db) (calls db ++ [c])).

Definition set_active (tx : option IDBTransaction) : M unit :=
  fun db => (Ok tt, MkEngine (objectStores db) tx (calls db)).

(** The open transaction; a request on none is a TransactionInactiveError. *)
Definition current_tx : M IDBTransaction :=
  fun db =>
    match active db with
    | Some tx => (Ok tx, db)
    | None => (Throw (RDom TransactionInactiveError), db)
    end.

(** [db.transaction(storeNames, mode)] *)
Definition db_transaction (storeNames : list string) (mode : IDBTransactionMode) : M unit :=
  do! log (c_transaction storeNames mode) in
  fun db =>
    match storeNames with
    | [] => (Throw (RDom InvalidAccessError), db)
    | _ =>
      if forallb (fun n => bool_decide (is_Some (objectStores db !! n))) storeNames
      then set_active (Some (Transaction storeNames mode (objectStores db) None)) db
      else (Throw (RDom NotFoundError), db)
    end.

(** [tx.objectStore(name)]: the handle is the name, once found in scope. *)
Definition tx_objectStore (name : string) : M string :=
  let! tx := current_tx in
  if bool_decide (name ∈ tx_scope tx) then ret name
  else throw (RDom NotFoundError).

Definition the_store (name : string) : M objectStore :=
  let! tx := current_tx in
  match tx_stores tx !! name with
  | Some st => ret st
  | None => throw (RDom NotFoundError)
  end.

(** A request source: an object store, or one of its indexes. *)
Record source : Type := Source {
  src_store : string;
  src_index : option string;
}.

(** [store.index(name)] *)
Definition store_index (store : string) (name : string) : M source :=
  let! st := the_store store in
  match indexes st !! name with
  | Some _ => ret (Source store (Some name))
  | None => throw (RDom NotFoundError)
  end.

(** Entries with equal keys keep the order of the rows (the order of their
    primary keys). *)
Fixpoint insert_entry (e : jsval * record) (l : list (jsval * record))
  : list (jsval * record) :=
  match l with
  | [] => [e]
  | e' :: l' =>
      match key_compare (fst e) (fst e') with
      | Gt => e' :: insert_entry e l'
      | _ => e :: l
      end
  end.

Definition sort_entries (l : list (jsval * record)) : list (jsval * record) :=
  foldr insert_entry [] l.

(** The entry a row contributes to an index on field [kp]: none when the
    field is absent or holds no valid key. *)
Definition index_entry (kp : string) (row : jsval * record) : option (jsval * record) :=
  match snd row !! kp with
  | Some k => if valid_key k then Some (k, snd row) else None
  | None => None
  end.

Definition index_entries (kp : string) (rs : list (jsval * record))
  : list (jsval * record) :=
  sort_entries (omap (index_entry kp) rs).

(** The entries of a store, or of one of its indexes. *)
Definition entries_of (st : objectStore) (index : option string)
  : option (list (jsval * record)) :=
  match index with
  | None => Some (rows st)
  | Some n => kp ← indexes st !! n; Some (index_entries kp (rows st))
  end.

Definition source_entries (src : source) : M (list (jsval * record)) :=
  let! st := the_store (src_store src) in
  match entries_of st (src_index src) with
  | Some entries => ret entries
  | None => throw (RDom NotFoundError)
  end.

Definition query_ok (q : option idbquery) : bool :=
  match q with
  | None => true
  | Some q => range_ok (range_of_query q)
  end.

Definition matches (q : option idbquery) (e : jsval * record) : bool :=
  match q with
  | None => true
  | Some q => in_range (range_of_query q) (fst e)
  end.

(** The records of a source that a query selects, in ascending order. *)
Definition matching (q : option idbquery) (entries : list (jsval * record))
  : list record :=
  map snd (List.filter (matches q) entries).

(** *** Read requests; each returns what [request.result] will hold *)

Inductive result_value : Type :=
  | RUndefined
  | RRecord (r : record)
  | RRecords (rs : list record)
  | RCount (n : Z).

(** [store.get(key)] *)
Definition req_get (store : string) (key : jsval) : M result_value :=
  do! log (c_get store key) in
  let! st := the_store store in
  if valid_key key then
    match matching (Some (QKey key)) (rows st) with
    | r :: _ => ret (RRecord r)
    | [] => ret RUndefined
    end
  else throw (RDom DataError).

(** [source.getAll(query, count)]: [count] absent or 0 means no limit. *)
Definition req_getAll (src : source) (q : option idbquery) (count : option Z)
  : M (list record) :=
  do! log (c_getAll (src_store src) (src_index src) q count) in
  let! entries := source_entries src in
  match count with
  | Some n =>
      if (n <? 0) || (4294967295 <? n) then throw RTypeError
      else if negb (query_ok q) then throw (RDom DataError)
      else if n =? 0 then ret (matching q entries)
      else ret (take (Z.to_nat n) (matching q entries))
  | None =>
      if negb (query_ok q) then throw (RDom DataError)
      else ret (matching q entries)
  end.

(** [source.count(query)] *)
Definition req_count (src : source) (q : option idbquery) : M Z :=
  do! log (c_count (src_store src) (src_index src) q) in
  let! entries := source_entries src in
  if negb (query_ok q) then throw (RDom DataError)
  else ret (Z.of_nat (length (matching q entries))).

(** [source.openCursor(range, direction)]: the records the cursor will be
    positioned on, one success event each, in the order of the direction. *)
Definition req_openCursor (src : source) (range : option IDBKeyRange.t)
    (direction : IDBCursorDirection) : M (list record) :=
  do! log (c_openCursor (src_store src) (src_index src) range direction) in
  let! entries := source_entries src in
  if negb (query_ok (QRange <$> range)) then throw (RDom DataError)
  else
    match direction with
    | next => ret (matching (QRange <$> range) entries)
    | prev => ret (rev (matching (QRange <$> range) entries))
    end.

(** [cursor.continue()] *)
Definition cursor_continue : M unit := log c_continue.

(** *** Write requests *)

Fixpoint upsert (k : jsval) (v : record) (rs : list (jsval * record))
  : list (jsval * record) :=
  match rs with
  | [] => [(k, v)]
  | (k', v') :: rest =>
      match key_compare k k' with
      | Lt => (k, v) :: rs
      | Eq => (k, v) :: rest
      | Gt => (k', v') :: upsert k v rest
      end
  end.

Definition has_key (k : jsval) (rs : list (jsval * record)) : bool :=
  existsb (fun e => bool_decide (key_compare k (fst e) = Eq)) rs.

(** The key a value is stored under: the in-line one of a store with a key
    path, the given one otherwise. *)
Definition resolve_key (st : objectStore) (value : record) (key : option jsval)
  : option jsval :=
  match keyPath st, key with
  | Some kp, None =>
      match value !! kp with
      | Some k => if valid_key k then Some k else None
      | None => None
      end
  | None, Some k => if valid_key k then Some k else None
  | _, _ => None
  end.

(** The effect of an accepted request on its store; a transaction whose
    earlier request failed runs no further request. *)
Definition tx_update (store : string) (f : objectStore -> DOMException + objectStore)
  : M unit :=
  let! tx := current_tx in
  let! st := the_store store in
  match tx_failed tx with
  | Some _ => ret tt
  | None =>
      match f st with
      | inr st' =>
          set_active (Some (Transaction (tx_scope tx) (tx_mode tx)
                              (<[store := st']> (tx_stores tx)) None))
      | inl e =>
          set_active (Some (Transaction (tx_scope tx) (tx_mode tx)
                              (tx_stores tx) (Some e)))
      end
  end.

Definition writable : M unit :=
  let! tx := current_tx in
  match tx_mode tx with
  | readwrite => ret tt
  | readonly => throw (RDom ReadOnlyError)
  end.

Definition with_rows (st : objectStore) (rs : list (jsval * record)) : objectStore :=
  ObjectStore (keyPath st) rs (indexes st) (uniqueIndexes st).

(** The key a value has in an index on field [kp], if any. *)
Definition index_key (kp : string) (value : record) : option jsval :=
  match value !! kp with
  | Some x => if valid_key x then Some x else None
  | None => None
  end.

(** Storing [value] under the key [k] would give a unique index two entries
    with one key: a row under another key has the key of [value] in it. *)
Definition violates_unique (st : objectStore) (k : jsval) (value : record) : bool :=
  existsb
    (fun n =>
       match indexes st !! n with
       | Some kp =>
           match index_key kp value with
           | Some x =>
               existsb
                 (fun row =>
                    negb (bool_decide (key_compare k (fst row) = Eq)) &&
                    bool_decide (index_key kp (snd row) = Some x))
                 (rows st)
           | None => false
           end
       | None => false
       end)
    (uniqueIndexes st).

(** [store.put(value, key)]: a value that a unique index cannot take fails
    the request. *)
Definition req_put (store : string) (value : record) (key : option jsval) : M unit :=
  do! log (c_put store value key) in
  do! writable in
  let! st := the_store store in
  match resolve_key st value key with
  | None => throw (RDom DataError)
  | Some k =>
      tx_update store (fun st =>
        if violates_unique st k value then inl ConstraintError
        else inr (with_rows st (upsert k value (rows st))))
  end.

(** [store.add(value, key)]: a key already present fails the request too. *)
Definition req_add (store : string) (value : record) (key : option jsval) : M unit :=
  do! log (c_add store value key) in
  do! writable in
  let! st := the_store store in
  match resolve_key st value key with
  | None => throw (RDom DataError)
  | Some k =>
      tx_update store (fun st =>
        if has_key k (rows st) then inl ConstraintError
        else if violates_unique st k value then inl ConstraintError
        else inr (with_rows st (upsert k value (rows st))))
  end.

(** [store.delete(key or range)] *)
Definition req_delete (store : string) (q : idbquery) : M unit :=
  do! log (c_delete store q) in
  do! writable in
  if negb (range_ok (range_of_query q)) then throw (RDom DataError)
  else
    tx_update store (fun st =>
      inr (with_rows st (List.filter (fun e => negb (matches (Some q) e)) (rows st)))).

(** [store.clear()] *)
Definition req_clear (store : string) : M unit :=
  do! log (c_clear store) in
  do! writable in
  tx_update store (fun st => inr (with_rows st [])).

(** *** Completion *)

(** Control has returned to the scheduler: the open transaction, if any,
    finishes.  All its requests succeeded: it commits and signals
    [complete].  One failed: the error event of that request reaches the
    transaction while [transaction.error] is still null, then the
    transaction aborts, nothing is kept, and [abort] is signalled with the
    error set. *)
Definition tx_finish (db : Engine) : list tx_event * Engine :=
  match active db with
  | None => ([], db)
  | Some tx =>
      match tx_failed tx with
      | None =>
          ([TxEvent ev_complete None], MkEngine (tx_stores tx) None (calls db))
      | Some e =>
          ([TxEvent ev_error None; TxEvent ev_abort (Some e)],
           MkEngine (objectStores db) None (calls db))
      end
  end.

(** ** Promises and the completion bridge (utils.ts) *)

(** The state of a promise.  [resolve] and [reject] settle a pending
    promise and do nothing to a settled one. *)
Inductive promise (A : Type) : Type :=
  | Pending
  | Fulfilled (a : A)
  | Rejected (r : reason).
Arguments Pending {A}.
Arguments Fulfilled {A} a.
Arguments Rejected {A} r.

Definition resolve {A} (a : A) (p : promise A) : promise A :=
  match p with
  | Pending => Fulfilled a
  | _ => p
  end.

Definition reject {A} (r : reason) (p : promise A) : promise A :=
  match p with
  | Pending => Rejected r
  | _ => p
  end.

(** The value of the expression [transaction.error]. *)
Definition error_value (e : option DOMException) : reason :=
  match e with
  | Some e => RDom e
  | None => RNull
  end.

(** The three handlers [promisifyTransaction] installs, as one function of
    the signal received:
    [oncomplete = () => resolve()],
    [onerror = () => reject(transaction.error)],
    [onabort = () => reject(transaction.error ?? new Error('Transaction aborted'))]. *)
Definition promisifyTransaction_on (ev : tx_event) (p : promise unit) : promise unit :=
  match ev_type ev with
  | ev_complete => resolve tt p
  | ev_error => reject (error_value (ev_txerror ev)) p
  | ev_abort =>
      reject (match ev_txerror ev with
              | Some e => RDom e
              | None => RError "Transaction aborted"
              end) p
  end.

(** The promise [promisifyTransaction(transaction)] returns, after the
    transaction has delivered [events] in this order. *)
Definition promisifyTransaction (events : list tx_event) : promise unit :=
  fold_left (fun p ev => promisifyTransaction_on ev p) events Pending.

(** ** The condition translator ([parseWhereCondition], query.ts) *)

(** [WhereCondition]: every field optional. *)
Module Cond.
Record WhereCondition : Type := Make {
  eq : option jsval;
  gt : option jsval;
  gte : option jsval;
  lt : option jsval;
  lte : option jsval;
  between : option (jsval * jsval);
  startsWith : option string;
}.
End Cond.
Abbreviation WhereCondition := Cond.WhereCondition.

(** The argument of [parseWhereCondition]: a condition object, or any other
    value ([typeof condition === 'object' && condition !== null] decides). *)
Inductive where_arg : Type :=
  | WherePrimitive (v : jsval)
  | WhereObject (c : WhereCondition).

Definition isWhereConditionObject (a : where_arg) : bool :=
  match a with
  | WherePrimitive _ => false
  | WhereObject _ => true
  end.

(** The function returns a range or [undefined], or throws what the factory
    it calls throws. *)
Definition parseWhereCondition (condition : where_arg) : thrown (option IDBKeyRange.t) :=
  match condition with
  | WherePrimitive v => Some <$> IDBKeyRange.only v
  | WhereObject c =>
    match Cond.eq c with
    | Some v => Some <$> IDBKeyRange.only v
    | None =>
    match Cond.between c with
    | Some (lo, hi) => Some <$> IDBKeyRange.bound lo hi false false
    | None =>
    match Cond.startsWith c with
    | Some p => Some <$> IDBKeyRange.bound (JStr p) (JStr (p +:+ uffff)) false false
    | None =>
    match Cond.gte c, Cond.lte c with
    | Some a, Some b => Some <$> IDBKeyRange.bound a b false false
    | _, _ =>
    match Cond.gt c, Cond.lt c with
    | Some a, Some b => Some <$> IDBKeyRange.bound a b true true
    | _, _ =>
    match Cond.gte c, Cond.lt c with
    | Some a, Some b => Some <$> IDBKeyRange.bound a b false true
    | _, _ =>
    match Cond.gt c, Cond.lte c with
    | Some a, Some b => Some <$> IDBKeyRange.bound a b true false
    | _, _ =>
    match Cond.gt c with
    | Some a => Some <$> IDBKeyRange.lowerBound a true
    | None =>
    match Cond.gte c with
    | Some a => Some <$> IDBKeyRange.lowerBound a false
    | None =>
    match Cond.lt c with
    | Some b => Some <$> IDBKeyRange.upperBound b true
    | None =>
    match Cond.lte c with
    | Some b => Some <$> IDBKeyRange.upperBound b false
    | None => Ok None
    end end end end end end end end end end end
  end.

(** ** Query plans and the executor (query.ts) *)

Inductive SortOrder : Type := asc | desc.

Record QueryState : Type := MkQueryState {
  indexName : option string;
  useKey : bool;
  range : option IDBKeyRange.t;
  order : SortOrder;
  limitCount : option Z;
  offsetCount : Z;
}.

(** The truth value of an optional string in a condition: [undefined] and
    the empty string are false. *)
Definition truthy (s : option string) : option string :=
  match s with
  | Some n => if String.eqb n EmptyString then None else Some n
  | None => None
  end.

(** [{ ...defaults, ...value }]: the fields of the record win. *)
Definition overlay (defaults value : record) : record := value ∪ defaults.

(** [getCursorValue]: the value of the record a cursor is positioned on.
    A positioned cursor is represented by that record. *)
Definition getCursorValue (cursor : record) : record := cursor.

(** [createGetAllRequest(source, range)]: [source.getAll(range)]. *)
Definition createGetAllRequest (src : source) (range : option IDBKeyRange.t)
  : M (list record) :=
  req_getAll src (QRange <$> range) None.

(** The accumulators of the cursor path. *)
Record cursor_acc : Type := MkAcc {
  results : list record;
  skipped : Z;
  collected : Z;
}.

(** How a run of the success handler ends. *)
Inductive handler_end : Type :=
  | Resolved (rs : list record)
  | Continued.

(** The engine delivers the success events of a cursor: one per record,
    then one with a null cursor.  The next event comes only if the handler
    called [cursor.continue()]; a handler that ends otherwise without
    resolving leaves the promise pending. *)
Fixpoint cursor_events (handler : option record -> cursor_acc -> cursor_acc * handler_end)
    (recs : list record) (acc : cursor_acc) : M (promise (list record)) :=
  match recs with
  | [] =>
      match handler None acc with
      | (_, Resolved rs) => ret (Fulfilled rs)
      | (_, Continued) => ret Pending
      end
  | value :: rest =>
      match handler (Some value) acc with
      | (_, Resolved rs) => ret (Fulfilled rs)
      | (acc', Continued) => do! cursor_continue in cursor_events handler rest acc'
      end
  end.

Module FinalQueryBuilderImpl.
Record t : Type := Make {
  storeName : string;
  state : QueryState;
  defaults : record;
}.

Definition orderBy (this : t) (order : SortOrder) : t :=
  let s := state this in
  Make (storeName this)
       (MkQueryState (indexName s) (useKey s) (range s) order (limitCount s) (offsetCount s))
       (defaults this).

Definition limit (this : t) (count : Z) : t :=
  let s := state this in
  Make (storeName this)
       (MkQueryState (indexName s) (useKey s) (range s) (order s) (Some count) (offsetCount s))
       (defaults this).

Definition offset (this : t) (count : Z) : t :=
  let s := state this in
  Make (storeName this)
       (MkQueryState (indexName s) (useKey s) (range s) (order s) (limitCount s) count)
       (defaults this).

(** [Object.keys(this.defaults).length > 0] *)
Definition hasDefaults (this : t) : bool := (0 <? size (defaults this))%nat.

(** [indexName ? store.index(indexName) : store] *)
Definition source_of (this : t) (store : string) : M source :=
  match truthy (indexName (state this)) with
  | Some n => store_index store n
  | None => ret (Source store None)
  end.

(** [request.onsuccess] of the cursor path, run with [request.result]. *)
Definition onsuccess (this : t) (cursor : option record) (acc : cursor_acc)
  : cursor_acc * handler_end :=
  match cursor with
  | None => (acc, Resolved (results acc))
  | Some cursor =>
    if skipped acc <? offsetCount (state this) then
      (MkAcc (results acc) (skipped acc + 1) (collected acc), Continued)
    else
      let value := getCursorValue cursor in
      let acc1 :=
        if match limitCount (state this) with
           | None => true
           | Some l => collected acc <? l
           end
        then MkAcc (results acc ++
                      [if hasDefaults this then overlay (defaults this) value else value])
                   (skipped acc) (collected acc + 1)
        else acc in
      if match limitCount (state this) with
         | None => false
         | Some l => l <=? collected acc1
         end
      then (acc1, Resolved (results acc1))
      else (acc1, Continued)
  end.

(** Which path ran, with what its handlers need. *)
Inductive path : Type :=
  | CursorPath (p : promise (list record))
  | BulkPath (result : list record).

(** The body of the promise executor: the calls made before control
    returns to the scheduler. *)
Definition executor (this : t) : M path :=
  let s := state this in
  do! db_transaction [storeName this] readonly in
  let! store := tx_objectStore (storeName this) in
  if (0 <? offsetCount s) || bool_decide (is_Some (limitCount s)) then
    let! source := source_of this store in
    let direction := match order s with desc => prev | asc => next end in
    let! recs := req_openCursor source (range s) direction in
    let! p := cursor_events (onsuccess this) recs (MkAcc [] 0 0) in
    ret (CursorPath p)
  else
    let! source := source_of this store in
    let! result := createGetAllRequest source (range s) in
    ret (BulkPath result).

(** [tx.oncomplete] of the bulk path. *)
Definition oncomplete (this : t) (result : list record) : list record :=
  let results :=
    if hasDefaults this then map (overlay (defaults this)) result else result in
  match order (state this) with
  | desc => rev results
  | asc => results
  end.

Definition on_event (this : t) (pth : path) (ev : tx_event)
    (p : promise (list record)) : promise (list record) :=
  match ev_type ev, pth with
  | ev_complete, BulkPath result => resolve (oncomplete this result) p
  | ev_error, _ => reject (error_value (ev_txerror ev)) p
  | _, _ => p
  end.

Definition executeQuery (this : t) (db : Engine) : promise (list record) * Engine :=
  match executor this db with
  | (Throw r, db1) => (Rejected r, snd (tx_finish db1))
  | (Ok pth, db1) =>
      let '(events, db2) := tx_finish db1 in
      (fold_left (fun p ev => on_event this pth ev p) events
         match pth with
         | CursorPath p => p
         | BulkPath _ => Pending
         end,
       db2)
  end.

Definition findAll (this : t) (db : Engine) : promise (list record) * Engine :=
  executeQuery this db.

(** [results[0]] once the awaited promise is fulfilled. *)
Definition first (p : promise (list record)) : promise (option record) :=
  match p with
  | Fulfilled rs => Fulfilled (head rs)
  | Rejected r => Rejected r
  | Pending => Pending
  end.

Definition find (this : t) (db : Engine) : promise (option record) * Engine :=
  let '(p, db') := executeQuery (limit this 1) db in
  (first p, db').

Definition count_executor (this : t) : M Z :=
  do! db_transaction [storeName this] readonly in
  let! store := tx_objectStore (storeName this) in
  match truthy (indexName (state this)) with
  | Some n =>
      let! index := store_index store n in
      req_count index (QRange <$> range (state this))
  | None => req_count (Source store None) (QRange <$> range (state this))
  end.

(** [tx.oncomplete = () => resolve(request.result)] and
    [tx.onerror = () => reject(tx.error)]; no abort handler. *)
Definition count_on (result : Z) (ev : tx_event) (p : promise Z) : promise Z :=
  match ev_type ev with
  | ev_complete => resolve result p
  | ev_error => reject (error_value (ev_txerror ev)) p
  | ev_abort => p
  end.

Definition count (this : t) (db : Engine) : promise Z * Engine :=
  match count_executor this db with
  | (Throw r, db1) => (Rejected r, snd (tx_finish db1))
  | (Ok n, db1) =>
      let '(events, db2) := tx_finish db1 in
      (fold_left (fun p ev => count_on n ev p) events Pending, db2)
  end.
End FinalQueryBuilderImpl.

Module IndexQueryBuilderImpl.
Record t : Type := Make {
  storeName : string;
  indexName : option string;
  useKey : bool;
  defaults : record;
}.

Definition createFinal (this : t) (range : option IDBKeyRange.t)
  : FinalQueryBuilderImpl.t :=
  FinalQueryBuilderImpl.Make (storeName this)
    (MkQueryState (indexName this) (useKey this) range asc None 0)
    (defaults this).

(** The selecting methods: each calls a factory first, and returns a plan
    only if that call returns. *)
Definition equals (this : t) (value : jsval) : thrown FinalQueryBuilderImpl.t :=
  r ← IDBKeyRange.only value; Ok (createFinal this (Some r)).
Definition gt (this : t) (value : jsval) : thrown FinalQueryBuilderImpl.t :=
  r ← IDBKeyRange.lowerBound value true; Ok (createFinal this (Some r)).
Definition gte (this : t) (value : jsval) : thrown FinalQueryBuilderImpl.t :=
  r ← IDBKeyRange.lowerBound value false; Ok (createFinal this (Some r)).
Definition lt (this : t) (value : jsval) : thrown FinalQueryBuilderImpl.t :=
  r ← IDBKeyRange.upperBound value true; Ok (createFinal this (Some r)).
Definition lte (this : t) (value : jsval) : thrown FinalQueryBuilderImpl.t :=
  r ← IDBKeyRange.upperBound value false; Ok (createFinal this (Some r)).
Definition between (this : t) (lower upper : jsval) : thrown FinalQueryBuilderImpl.t :=
  r ← IDBKeyRange.bound lower upper false false; Ok (createFinal this (Some r)).
Definition startsWith (this : t) (prefix : string) : thrown FinalQueryBuilderImpl.t :=
  r ← IDBKeyRange.bound (JStr prefix) (JStr (prefix +:+ uffff)) false false;
  Ok (createFinal this (Some r)).

Definition orderBy (this : t) (order : SortOrder) :=
  FinalQueryBuilderImpl.orderBy (createFinal this None) order.
Definition limit (this : t) (count : Z) :=
  FinalQueryBuilderImpl.limit (createFinal this None) count.
Definition offset (this : t) (count : Z) :=
  FinalQueryBuilderImpl.offset (createFinal this None) count.
Definition findAll (this : t) := FinalQueryBuilderImpl.findAll (createFinal this None).
Definition find (this : t) := FinalQueryBuilderImpl.find (createFinal this None).
End IndexQueryBuilderImpl.

Module QueryBuilderImpl.
Record t : Type := Make {
  storeName : string;
  defaults : record;
}.

Definition index (this : t) (indexName : string) : IndexQueryBuilderImpl.t :=
  IndexQueryBuilderImpl.Make (storeName this) (Some indexName) false (defaults this).
Definition key (this : t) : IndexQueryBuilderImpl.t :=
  IndexQueryBuilderImpl.Make (storeName this) None true (defaults this).
Definition findAll (this : t) :=
  IndexQueryBuilderImpl.findAll
    (IndexQueryBuilderImpl.Make (storeName this) None false (defaults this)).
Definition keyBuilder (this : t) : IndexQueryBuilderImpl.t :=
  IndexQueryBuilderImpl.Make (storeName this) None true (defaults this).

Definition equals (this : t) := IndexQueryBuilderImpl.equals (keyBuilder this).
Definition gt (this : t) := IndexQueryBuilderImpl.gt (keyBuilder this).
Definition gte (this : t) := IndexQueryBuilderImpl.gte (keyBuilder this).
Definition lt (this : t) := IndexQueryBuilderImpl.lt (keyBuilder this).
Definition lte (this : t) := IndexQueryBuilderImpl.lte (keyBuilder this).
Definition between (this : t) := IndexQueryBuilderImpl.between (keyBuilder this).
Definition startsWith (this : t) := IndexQueryBuilderImpl.startsWith (keyBuilder this).
End QueryBuilderImpl.

(** [createQueryFunction]: the object style [query(options)].  The builder
    style [query()] is [QueryBuilderImpl.Make storeName defaults]. *)
Record QueryOptions : Type := MkQueryOptions {
  opt_index : option string;
  opt_where : option where_arg;
  opt_orderBy : option SortOrder;
  opt_limit : option Z;
  opt_offset : option Z;
}.

(** The truth value of [where] in [where ? parseWhereCondition(where) : undefined]. *)
Definition where_truthy (w : where_arg) : bool :=
  match w with
  | WhereObject _ => true
  | WherePrimitive JNull => false
  | WherePrimitive (JBool b) => b
  | WherePrimitive (JNum n) => negb (n =? 0)
  | WherePrimitive (JStr s) => negb (String.eqb s EmptyString)
  end.

(** [query] is no async function: what [parseWhereCondition] throws, it
    throws, and no promise exists then. *)
Definition query (storeName : string) (defaults : record) (options : QueryOptions)
  : thrown (Engine -> promise (list record) * Engine) :=
  range ← match opt_where options with
          | Some w => if where_truthy w then parseWhereCondition w else Ok None
          | None => Ok None
          end;
  Ok (FinalQueryBuilderImpl.findAll
        (FinalQueryBuilderImpl.Make storeName
           (MkQueryState (opt_index options) false range
              (default asc (opt_orderBy options))
              (opt_limit options)
              (default 0 (opt_offset options)))
           defaults)).

(** ** Transaction chains (writeChain.ts, readChain.ts) *)

(** [[...new Set(names)]]: the distinct names, each at its first occurrence. *)
Fixpoint new_Set (names : list string) : list string :=
  match names with
  | [] => []
  | n :: rest => n :: List.filter (fun m => negb (String.eqb m n)) (new_Set rest)
  end.

Definition dquote : string := String (ascii_of_nat 34) EmptyString.

(** The message of the error thrown for a store outside the scope. *)
Definition scope_error (store : string) (storeNames : list string) : string :=
  "Store " +:+ dquote +:+ store +:+ dquote +:+ " is not in the transaction scope. "
  +:+ "Available stores: " +:+ String.concat ", " storeNames.

(** The first used store that [storeNames.includes] does not find. *)
Definition out_of_scope (storeNames usedStores : list string) : option string :=
  List.find (fun store => negb (bool_decide (store ∈ storeNames))) usedStores.

Module WriteChain.
Inductive WriteOperation : Type :=
  | op_put (storeName : string) (value : record) (key : option jsval)
  | op_add (storeName : string) (value : record) (key : option jsval)
  | op_delete (storeName : string) (key : idbquery)
  | op_clear (storeName : string).

Definition storeName (op : WriteOperation) : string :=
  match op with
  | op_put s _ _ | op_add s _ _ | op_delete s _ | op_clear s => s
  end.

(** The two variables the chain object closes over.  The fluent methods
    push onto [operations] and return the chain; nothing else assigns to
    either. *)
Record t : Type := Make {
  storeNames : list string;
  operations : list WriteOperation;
}.

Definition createWriteChain (storeNames : list string) : t := Make storeNames [].

Definition push (chain : t) (op : WriteOperation) : t :=
  Make (storeNames chain) (operations chain ++ [op]).

Definition put (chain : t) (storeName : string) (value : record) (key : option jsval) : t :=
  push chain (op_put storeName value key).
Definition add (chain : t) (storeName : string) (value : record) (key : option jsval) : t :=
  push chain (op_add storeName value key).
Definition delete (chain : t) (storeName : string) (key : idbquery) : t :=
  push chain (op_delete storeName key).
Definition clear (chain : t) (storeName : string) : t :=
  push chain (op_clear storeName).

(** One turn of the loop over [operations]. *)
Definition issue (op : WriteOperation) : M unit :=
  let! store := tx_objectStore (storeName op) in
  match op with
  | op_put _ value key => req_put store value key
  | op_add _ value key => req_add store value key
  | op_delete _ key => req_delete store key
  | op_clear _ => req_clear store
  end.

Fixpoint issue_all (ops : list WriteOperation) : M unit :=
  match ops with
  | [] => ret tt
  | op :: rest => do! issue op in issue_all rest
  end.

(** [execute()]: the promise of the async function once the engine is
    idle again, and the engine after it.  An exception thrown while the
    requests are issued rejects the promise and leaves the transaction to
    the engine. *)
Definition execute (chain : t) (db : Engine) : promise unit * Engine :=
  if (length (operations chain) =? 0)%nat then (Fulfilled tt, db)
  else
    let usedStores := new_Set (map storeName (operations chain)) in
    match out_of_scope (storeNames chain) usedStores with
    | Some store => (Rejected (RError (scope_error store (storeNames chain))), db)
    | None =>
        match (do! db_transaction (storeNames chain) readwrite in
               issue_all (operations chain)) db with
        | (Throw r, db1) => (Rejected r, snd (tx_finish db1))
        | (Ok _, db1) =>
            let '(events, db2) := tx_finish db1 in
            (promisifyTransaction events, db2)
        end
    end.
End WriteChain.

(** [GetAllOptions], the options of a chained [getAll]. *)
Module GetAllOptions.
Record t : Type := Make {
  query : option idbquery;
  count : option Z;
}.
End GetAllOptions.

Module ReadChain.
Inductive ReadOperation : Type :=
  | op_get (storeName : string) (key : jsval)
  | op_getAll (storeName : string) (query : option idbquery) (count : option Z)
  | op_getAllByIndex (storeName : string) (indexName : string) (query : option idbquery)
  | op_count (storeName : string) (query : option idbquery).

Definition storeName (op : ReadOperation) : string :=
  match op with
  | op_get s _ | op_getAll s _ _ | op_getAllByIndex s _ _ | op_count s _ => s
  end.

Record t : Type := Make {
  storeNames : list string;
  operations : list ReadOperation;
}.

Definition createReadChain (storeNames : list string) : t := Make storeNames [].

Definition push (chain : t) (op : ReadOperation) : t :=
  Make (storeNames chain) (operations chain ++ [op]).

Definition get (chain : t) (storeName : string) (key : jsval) : t :=
  push chain (op_get storeName key).
Definition getAll (chain : t) (storeName : string) (options : option GetAllOptions.t) : t :=
  push chain (op_getAll storeName (options ≫= GetAllOptions.query)
                (options ≫= GetAllOptions.count)).
Definition getAllByIndex (chain : t) (storeName indexName : string)
    (query : option idbquery) : t :=
  push chain (op_getAllByIndex storeName indexName query).
Definition count (chain : t) (storeName : string) (query : option idbquery) : t :=
  push chain (op_count storeName query).

(** One turn of the loop: the request pushed onto [requests], as the
    result it will hold. *)
Definition issue (op : ReadOperation) : M result_value :=
  let! store := tx_objectStore (storeName op) in
  match op with
  | op_get _ key => req_get store key
  | op_getAll _ query count =>
      let! rs := req_getAll (Source store None) query count in ret (RRecords rs)
  | op_getAllByIndex _ indexName query =>
      let! index := store_index store indexName in
      let! rs := req_getAll index query None in ret (RRecords rs)
  | op_count _ query =>
      let! n := req_count (Source store None) query in ret (RCount n)
  end.

Fixpoint issue_all (ops : list ReadOperation) : M (list result_value) :=
  match ops with
  | [] => ret []
  | op :: rest =>
      let! r := issue op in
      let! rs := issue_all rest in
      ret (r :: rs)
  end.

Definition execute (chain : t) (db : Engine) : promise (list result_value) * Engine :=
  if (length (operations chain) =? 0)%nat then (Fulfilled [], db)
  else
    let usedStores := new_Set (map storeName (operations chain)) in
    match out_of_scope (storeNames chain) usedStores with
    | Some store => (Rejected (RError (scope_error store (storeNames chain))), db)
    | None =>
        match (do! db_transaction (storeNames chain) readonly in
               issue_all (operations chain)) db with
        | (Throw r, db1) => (Rejected r, snd (tx_finish db1))
        | (Ok requests, db1) =>
            let '(events, db2) := tx_finish db1 in
            (match promisifyTransaction events with
             | Fulfilled _ => Fulfilled requests
             | Rejected r => Rejected r
             | Pending => Pending
             end, db2)
        end
    end.
End ReadChain.

(** ** Definitions used to state the properties *)

(** The precedence order of the condition translator as the specification
    gives it: one rule per line, the first rule that applies wins.  A rule
    that applies gives the factory call it stands for. *)
Definition precedence : list (WhereCondition -> option (thrown IDBKeyRange.t)) :=
  [ (* equals *)
    (fun c => v ← Cond.eq c; Some (IDBKeyRange.only v));
    (* betweenInclusive *)
    (fun c => b ← Cond.between c; Some (IDBKeyRange.bound (fst b) (snd b) false false));
    (* startsWithPrefix *)
    (fun c => p ← Cond.startsWith c;
              Some (IDBKeyRange.bound (JStr p) (JStr (p +:+ uffff)) false false));
    (* gte and lte *)
    (fun c => a ← Cond.gte c; b ← Cond.lte c; Some (IDBKeyRange.bound a b false false));
    (* gt and lt, both exclusive *)
    (fun c => a ← Cond.gt c; b ← Cond.lt c; Some (IDBKeyRange.bound a b true true));
    (* gte and lt *)
    (fun c => a ← Cond.gte c; b ← Cond.lt c; Some (IDBKeyRange.bound a b false true));
    (* gt and lte *)
    (fun c => a ← Cond.gt c; b ← Cond.lte c; Some (IDBKeyRange.bound a b true false));
    (* gt only, gte only, lt only, lte only *)
    (fun c => a ← Cond.gt c; Some (IDBKeyRange.lowerBound a true));
    (fun c => a ← Cond.gte c; Some (IDBKeyRange.lowerBound a false));
    (fun c => b ← Cond.lt c; Some (IDBKeyRange.upperBound b true));
    (fun c => b ← Cond.lte c; Some (IDBKeyRange.upperBound b false)) ].

Fixpoint first_match (rules : list (WhereCondition -> option (thrown IDBKeyRange.t)))
    (c : WhereCondition) : option (thrown IDBKeyRange.t) :=
  match rules with
  | [] => None
  | rule :: rest =>
      match rule c with
      | Some r => Some r
      | None => first_match rest c
      end
  end.

(** What the translator returns or throws: the outcome of the call of the
    rule that applies, and no range when none does. *)
Definition outcome (call : option (thrown IDBKeyRange.t)) : thrown (option IDBKeyRange.t) :=
  match call with
  | Some made => Some <$> made
  | None => Ok None
  end.

(** The lower bound is not above the upper one. *)
Definition ordered (a b : jsval) : bool :=
  negb (bool_decide (key_compare a b = Gt)).

(** A sequence in the order a direction walks it. *)
Definition directed {A} (o : SortOrder) (l : list A) : list A :=
  match o with
  | asc => l
  | desc => rev l
  end.

Definition direction_of (o : SortOrder) : IDBCursorDirection :=
  match o with
  | desc => prev
  | asc => next
  end.

(** A record as a query returns it: with the defaults under it, if any. *)
Definition with_defaults (this : FinalQueryBuilderImpl.t) (value : record) : record :=
  if FinalQueryBuilderImpl.hasDefaults this
  then overlay (FinalQueryBuilderImpl.defaults this) value
  else value.

Definition promise_map {A B} (f : A -> B) (p : promise A) : promise B :=
  match p with
  | Fulfilled a => Fulfilled (f a)
  | Rejected r => Rejected r
  | Pending => Pending
  end.

(** The calls an engine received between two of its states. *)
Definition calls_since (before after : Engine) : list call :=
  drop (length (calls before)) (calls after).

Definition is_continue (c : call) : bool :=
  match c with
  | c_continue => true
  | _ => false
  end.

(** How many times the cursor was advanced between two states. *)
Definition advances (before after : Engine) : nat :=
  length (List.filter is_continue (calls_since before after)).

(** The plan of a builder with its limit removed. *)
Definition unlimited (this : FinalQueryBuilderImpl.t) : FinalQueryBuilderImpl.t :=
  let s := FinalQueryBuilderImpl.state this in
  FinalQueryBuilderImpl.Make (FinalQueryBuilderImpl.storeName this)
    (MkQueryState (indexName s) (useKey s) (range s) (order s) None (offsetCount s))
    (FinalQueryBuilderImpl.defaults this).

(** The rows whose field [kp] holds [x]. *)
Definition field_is (kp : string) (x : jsval) (row : jsval * record) : bool :=
  bool_decide (snd row !! kp = Some x).

(** The engine with further calls in its log. *)
Definition add_calls (cs : list call) (db : Engine) : Engine :=
  MkEngine (objectStores db) (active db) (calls db ++ cs).

(** The engine once [db.transaction(names, mode)] has returned. *)
Definition opened (names : list string) (mode : IDBTransactionMode) (db : Engine)
  : Engine :=
  MkEngine (objectStores db)
    (Some (Transaction names mode (objectStores db) None))
    (calls db ++ [c_transaction names mode]).

(** The engine once a read-only transaction over its committed contents
    has completed, with the calls [cs] logged since it was opened. *)
Definition closed (cs : list call) (db : Engine) : Engine :=
  MkEngine (objectStores db) None (calls db ++ cs).

(** What a request with query [q] selects from a store or from one of its
    indexes: the matching records in ascending order, or the exception of
    the engine (no such index, or a query it does not accept). *)
Definition selected (st : objectStore) (index : option string) (q : option idbquery)
  : thrown (list record) :=
  match entries_of st index with
  | None => Throw (RDom NotFoundError)
  | Some entries =>
      if query_ok q then Ok (matching q entries) else Throw (RDom DataError)
  end.

(** The first [limit] elements, or all of them without a limit. *)
Definition up_to {A} (limit : option Z) (l : list A) : list A :=
  match limit with
  | None => l
  | Some n => take (Z.to_nat n) l
  end.

(** How often a cursor over [n] records is advanced by a query with this
    offset and limit: once per skipped record, then once per collected
    record but the one that meets the limit. *)
Definition advance_count (n : nat) (offset : Z) (limit : option Z) : nat :=
  let d := Z.to_nat offset in
  (Nat.min n d +
   match limit with
   | None => n - d
   | Some l => Nat.min (n - d) (Z.to_nat l - 1)
   end)%nat.

(** The test that sends a plan to the cursor path. *)
Definition cursor_path (s : QueryState) : bool :=
  (0 <? offsetCount s) || bool_decide (is_Some (limitCount s)).

(** The request each queued operation stands for. *)
Definition write_call (op : WriteChain.WriteOperation) : call :=
  match op with
  | WriteChain.op_put s value key => c_put s value key
  | WriteChain.op_add s value key => c_add s value key
  | WriteChain.op_delete s key => c_delete s key
  | WriteChain.op_clear s => c_clear s
  end.


(** [m], run inside a transaction over [names], logs a prefix of the calls
    [cs] and, when it returns, all of them; it leaves the transaction open
    with the same scope. *)
Definition emits {A} (names : list string) (cs : list call) (m : M A) : Prop :=
  forall db tx,
    active db = Some tx -> tx_scope tx = names ->
    (exists k, calls (snd (m db)) = (calls db ++ take k cs)%list) /\
    (forall a, fst (m db) = Ok a -> calls (snd (m db)) = (calls db ++ cs)%list) /\
    (exists tx', active (snd (m db)) = Some tx' /\ tx_scope tx' = names).

(** ** Example data *)

Module Sample.
Definition product (id : string) (category : string) (price : Z) : jsval * record :=
  (JStr id,
   {[ "id" := JStr id; "category" := JStr category; "price" := JNum price ]}).

(** A store keyed by [id], with indexes on [price] and [category], and an
    index on [category] whose name is the empty string. *)
Definition products : objectStore :=
  ObjectStore (Some "id")
    [ product "p1" "fruit" 100; product "p2" "fruit" 50;
      product "p3" "vegetable" 30; product "p4" "meat" 200;
      product "p5" "dairy" 80 ]
    {[ "price" := "price"; "category" := "category"; EmptyString := "category" ]}
    [].

Definition users : objectStore := ObjectStore (Some "id") [] ∅ [].

Definition db : Engine :=
  MkEngine {[ "products" := products; "users" := users ]} None [].

Definition query : QueryBuilderImpl.t := QueryBuilderImpl.Make "products" ∅.

Definition u1 : record := {[ "id" := JStr "u1" ]}.

(** The products in ascending order of price. *)
Definition by_price : list record :=
  map snd [ product "p3" "vegetable" 30; product "p2" "fruit" 50;
            product "p5" "dairy" 80; product "p1" "fruit" 100;
            product "p4" "meat" 200 ].

(** [query().index('price')], without a range. *)
Definition all_by_price : FinalQueryBuilderImpl.t :=
  IndexQueryBuilderImpl.createFinal (QueryBuilderImpl.index query "price") None.

(** [query().index('price').orderBy('asc').limit(2).offset(1)] *)
Definition second_and_third : FinalQueryBuilderImpl.t :=
  FinalQueryBuilderImpl.offset
    (FinalQueryBuilderImpl.limit
       (IndexQueryBuilderImpl.orderBy (QueryBuilderImpl.index query "price") asc) 2) 1.

(** The range [IDBKeyRange.only('fruit')]. *)
Definition only_fruit : IDBKeyRange.t :=
  IDBKeyRange.Make (Some (JStr "fruit")) (Some (JStr "fruit")) false false.

(** The plan of
    [query().index('category').equals('fruit').orderBy('desc').limit(1).offset(3)] *)
Definition fruit : FinalQueryBuilderImpl.t :=
  FinalQueryBuilderImpl.offset
    (FinalQueryBuilderImpl.limit
       (FinalQueryBuilderImpl.orderBy
          (IndexQueryBuilderImpl.createFinal (QueryBuilderImpl.index query "category")
             (Some only_fruit)) desc) 1) 3.

(** The plan of [query().index('').equals('fruit')], on the index named by
    the empty string. *)
Definition fruit_by_unnamed : FinalQueryBuilderImpl.t :=
  IndexQueryBuilderImpl.createFinal (QueryBuilderImpl.index query EmptyString)
    (Some only_fruit).

(** [tx.put('users', u1)] on a chain over users. *)
Definition put_u1 : WriteChain.t :=
  WriteChain.put (WriteChain.createWriteChain ["users"]) "users" u1 None.
End Sample.

(** ** The range selectors as data *)

(** One constructor per range selector of the builder, which is also one
    per condition object with a single field. *)
Inductive selector : Type :=
  | sel_equals (value : jsval)
  | sel_gt (value : jsval)
  | sel_gte (value : jsval)
  | sel_lt (value : jsval)
  | sel_lte (value : jsval)
  | sel_between (lower upper : jsval)
  | sel_startsWith (prefix : string).

(** The condition object with that one field: [{ gt: value }] and so on. *)
Definition condition_of (sel : selector) : WhereCondition :=
  match sel with
  | sel_equals v => Cond.Make (Some v) None None None None None None
  | sel_gt v => Cond.Make None (Some v) None None None None None
  | sel_gte v => Cond.Make None None (Some v) None None None None
  | sel_lt v => Cond.Make None None None (Some v) None None None
  | sel_lte v => Cond.Make None None None None (Some v) None None
  | sel_between lo hi => Cond.Make None None None None None (Some (lo, hi)) None
  | sel_startsWith p => Cond.Make None None None None None None (Some p)
  end.

(** The call of the method of that name on an index builder. *)
Definition select (b : IndexQueryBuilderImpl.t) (sel : selector)
  : thrown FinalQueryBuilderImpl.t :=
  match sel with
  | sel_equals v => IndexQueryBuilderImpl.equals b v
  | sel_gt v => IndexQueryBuilderImpl.gt b v
  | sel_gte v => IndexQueryBuilderImpl.gte b v
  | sel_lt v => IndexQueryBuilderImpl.lt b v
  | sel_lte v => IndexQueryBuilderImpl.lte b v
  | sel_between lo hi => IndexQueryBuilderImpl.between b lo hi
  | sel_startsWith p => IndexQueryBuilderImpl.startsWith b p
  end.

(** A page of a plan: [limit(size).offset(start)]. *)
Definition page (b : FinalQueryBuilderImpl.t) (start size : Z) : FinalQueryBuilderImpl.t :=
  FinalQueryBuilderImpl.offset (FinalQueryBuilderImpl.limit b size) start.

(** The results of two promises, one after the other. *)
Definition promise_app {A} (p q : promise (list A)) : promise (list A) :=
  match p, q with
  | Fulfilled a, Fulfilled b => Fulfilled (a ++ b)%list
  | Rejected r, _ => Rejected r
  | _, Rejected r => Rejected r
  | _, _ => Pending
  end.

(** [m] only reads: what it returns depends on the open transaction alone,
    and it changes neither that transaction nor the committed contents
    (it may add to the log). *)
Definition pure_read {A} (m : M A) : Prop :=
  forall db1 db2,
    active db1 = active db2 ->
    fst (m db1) = fst (m db2) /\
    active (snd (m db1)) = active db1 /\
    objectStores (snd (m db1)) = objectStores db1.

(** ** The store accessor (storeAccessor.ts) *)

(** [getResult(tx, request)]: [await promisifyTransaction(tx)], then
    [request.result]. *)
Definition getResult {A} (events : list tx_event) (result : A) : promise A :=
  match promisifyTransaction events with
  | Fulfilled _ => Fulfilled result
  | Rejected r => Rejected r
  | Pending => Pending
  end.

(** [applyDefaults]: nothing for [undefined], else the value over the
    defaults. *)
Definition applyDefaults (value : option record) (defaults : record) : option record :=
  match value with
  | None => None
  | Some v => Some (overlay defaults v)
  end.

Definition applyDefaultsToArray (values : list record) (defaults : record) : list record :=
  if (size defaults =? 0)%nat then values
  else map (fun v => overlay defaults v) values.

(** An async function whose body issues its requests at once and then
    awaits the transaction: an exception thrown while issuing rejects the
    promise and leaves the transaction to the engine. *)
Definition issue_then_await {A} (body : M A) (db : Engine) : promise A * Engine :=
  match body db with
  | (Throw r, db1) => (Rejected r, snd (tx_finish db1))
  | (Ok a, db1) =>
      let '(events, db2) := tx_finish db1 in
      (getResult events a, db2)
  end.

(** [store.get(key)] as the accessor types it: a record or [undefined]. *)
Definition get_request (store : string) (key : jsval) : M (option record) :=
  let! r := req_get store key in
  match r with
  | RRecord v => ret (Some v)
  | _ => ret None
  end.

(** [store.put(value, key)] and [store.add(value, key)] with the result of
    the request: the key the value is stored under. *)
Definition put_request (store : string) (value : record) (key : option jsval) : M jsval :=
  do! req_put store value key in
  let! st := the_store store in
  match resolve_key st value key with
  | Some k => ret k
  | None => throw (RDom DataError)
  end.

Definition add_request (store : string) (value : record) (key : option jsval) : M jsval :=
  do! req_add store value key in
  let! st := the_store store in
  match resolve_key st value key with
  | Some k => ret k
  | None => throw (RDom DataError)
  end.

Module StoreAccessor.
(** What [createStoreAccessor(db, storeName, defaults)] closes over. *)
Record t : Type := Make {
  storeName : string;
  defaults : record;
}.

Definition hasDefaults (this : t) : bool := (0 <? size (defaults this))%nat.

Definition get (this : t) (key : jsval) (db : Engine) : promise (option record) * Engine :=
  let '(p, db') :=
    issue_then_await
      (do! db_transaction [storeName this] readonly in
       let! store := tx_objectStore (storeName this) in
       get_request store key) db in
  (promise_map (fun result =>
                  if hasDefaults this then applyDefaults result (defaults this)
                  else result) p, db').

Definition getAll (this : t) (options : option GetAllOptions.t) (db : Engine)
  : promise (list record) * Engine :=
  let '(p, db') :=
    issue_then_await
      (do! db_transaction [storeName this] readonly in
       let! store := tx_objectStore (storeName this) in
       req_getAll (Source store None) (options ≫= GetAllOptions.query)
         (options ≫= GetAllOptions.count)) db in
  (promise_map (fun result =>
                  if hasDefaults this then applyDefaultsToArray result (defaults this)
                  else result) p, db').

Definition getAllBy (this : t) (indexName : string) (query : option idbquery) (db : Engine)
  : promise (list record) * Engine :=
  let '(p, db') :=
    issue_then_await
      (do! db_transaction [storeName this] readonly in
       let! store := tx_objectStore (storeName this) in
       let! index := store_index store indexName in
       req_getAll index query None) db in
  (promise_map (fun result =>
                  if hasDefaults this then applyDefaultsToArray result (defaults this)
                  else result) p, db').

Definition put (this : t) (value : record) (key : option jsval)
  : Engine -> promise jsval * Engine :=
  issue_then_await
    (do! db_transaction [storeName this] readwrite in
     let! store := tx_objectStore (storeName this) in
     put_request store value key).

Definition add (this : t) (value : record) (key : option jsval)
  : Engine -> promise jsval * Engine :=
  issue_then_await
    (do! db_transaction [storeName this] readwrite in
     let! store := tx_objectStore (storeName this) in
     add_request store value key).

Definition delete (this : t) (key : idbquery) : Engine -> promise unit * Engine :=
  issue_then_await
    (do! db_transaction [storeName this] readwrite in
     let! store := tx_objectStore (storeName this) in
     req_delete store key).

Definition clear (this : t) : Engine -> promise unit * Engine :=
  issue_then_await
    (do! db_transaction [storeName this] readwrite in
     let! store := tx_objectStore (storeName this) in
     req_clear store).

Definition count (this : t) (query : option idbquery) : Engine -> promise Z * Engine :=
  issue_then_await
    (do! db_transaction [storeName this] readonly in
     let! store := tx_objectStore (storeName this) in
     req_count (Source store None) query).

(** [query(options)] and [query()] of the accessor. *)
Definition query (this : t) (options : QueryOptions)
  : thrown (Engine -> promise (list record) * Engine) :=
  query (storeName this) (defaults this) options.

Definition query_builder (this : t) : QueryBuilderImpl.t :=
  QueryBuilderImpl.Make (storeName this) (defaults this).
End StoreAccessor.

(** ** States of the contents, to state what writes do *)

(** What [store.get(key)] finds in a store. *)
Definition stored (st : objectStore) (key : jsval) : option record :=
  head (matching (Some (QKey key)) (rows st)).

(** The engine once a transaction that replaced the contents of store [name]
    by [st] has committed, with the calls [cs] logged. *)
Definition committed (name : string) (st : objectStore) (cs : list call) (db : Engine)
  : Engine :=
  MkEngine (<[name := st]> (objectStores db)) None (calls db ++ cs).

(** Between two states of the contents: the stores are the same ones, each
    with its key path and its indexes, and the stores outside [names] have
    their rows as well. *)
Definition only_rows_of (names : list string) (before after : gmap string objectStore)
  : Prop :=
  forall n,
    (n ∉ names -> after !! n = before !! n) /\
    match before !! n, after !! n with
    | Some a, Some b =>
        keyPath b = keyPath a /\ indexes b = indexes a /\
        uniqueIndexes b = uniqueIndexes a
    | None, None => True
    | _, _ => False
    end.

(** [m] leaves the committed contents alone and, in the open transaction,
    changes the rows of stores in [names] only; the transaction keeps its
    scope and its mode. *)
Definition local_write {A} (names : list string) (m : M A) : Prop :=
  forall db tx, active db = Some tx ->
    objectStores (snd (m db)) = objectStores db /\
    exists tx', active (snd (m db)) = Some tx' /\
                only_rows_of names (tx_stores tx) (tx_stores tx') /\
                tx_scope tx' = tx_scope tx /\ tx_mode tx' = tx_mode tx.

(** ** Example data for the accessor *)

(** Accessors with a default stock of 0, a plan with these defaults, and a
    read chain of two operations. *)
Module Stock.
Definition defaults : record := {[ "stock" := JNum 0 ]}.

Definition products : StoreAccessor.t := StoreAccessor.Make "products" defaults.

Definition users : StoreAccessor.t := StoreAccessor.Make "users" defaults.

(** [query().index('price')] of the accessor [products]. *)
Definition by_price : FinalQueryBuilderImpl.t :=
  IndexQueryBuilderImpl.createFinal
    (QueryBuilderImpl.index (StoreAccessor.query_builder products) "price") None.

(** [read(['products']).get('products', 'p2').count('products')] *)
Definition reads : ReadChain.t :=
  ReadChain.count
    (ReadChain.get (ReadChain.createReadChain ["products"]) "products" (JStr "p2"))
    "products" None.

(** Accounts keyed by [id], with a unique index on [email] that holds one
    account, and an engine with this store. *)
Definition account (id email : string) : record :=
  {[ "id" := JStr id; "email" := JStr email ]}.

Definition accounts_store : objectStore :=
  ObjectStore (Some "id") [ (JStr "a1", account "a1" "kim@example.com") ]
    {[ "email" := "email" ]} [ "email" ].

Definition accounts_db : Engine :=
  MkEngine {[ "accounts" := accounts_store ]} None [].

Definition accounts : StoreAccessor.t := StoreAccessor.Make "accounts" ∅.
End Stock.

(** ** Store definitions and migrations (types.ts, field.ts, schema.ts,
       defineStore.ts, createDB.ts) *)

(** [throw new Error(message)] in a function that touches no database. *)
Definition error {A} (message : string) : thrown A := Throw (RError message).

(** [array.sort(compare)]: the host sorts stably; for a comparator that is
    consistent (a total preorder) the result is the one arrangement that is
    in order and keeps equal elements in their earlier order, which is what
    inserting from the right computes.  For other comparators the host's
    order is implementation-defined and not modelled. *)
Fixpoint insert_sorted {A} (compare : A -> A -> Z) (x : A) (l : list A) : list A :=
  match l with
  | [] => [x]
  | y :: l' => if 0 <? compare x y then y :: insert_sorted compare x l' else x :: l
  end.

Definition Array_sort {A} (compare : A -> A -> Z) (l : list A) : list A :=
  foldr (insert_sorted compare) [] l.

(** [IndexOptions], [IndexOption] and [IndexDefinition] of types.ts.  A
    property that is absent and one that holds [undefined] are the same
    [None]. *)
Module IndexOptions.
Record t : Type := Make {
  unique : option bool;
  multiEntry : option bool;
}.
End IndexOptions.

Inductive IndexOption : Type :=
  | opt_boolean (b : bool)
  | opt_options (o : IndexOptions.t).

Module IndexDefinition.
Record t : Type := Make {
  name : string;
  keyPath : string;
  unique : option bool;
  multiEntry : option bool;
}.
End IndexDefinition.

(** A function value, kept by reference. *)
Definition MigrationFn : Type := nat.

Record Migration : Type := MkMigration {
  mig_name : string;
  up : MigrationFn;
}.

(** [keyPath?: string | string[]] *)
Inductive StoreKeyPath : Type :=
  | kp_string (s : string)
  | kp_array (l : list string).

Module StoreDefinition.
Record t : Type := Make {
  name : string;
  keyPath : option StoreKeyPath;
  autoIncrement : bool;
  indexes : list IndexDefinition.t;
  migrations : list Migration;
}.
End StoreDefinition.

(** The options of [createStore]; every property is optional. *)
Module StoreOptions.
Record t : Type := Make {
  keyPath : option StoreKeyPath;
  autoIncrement : option bool;
  indexes : option (list (string * IndexOption));
  migrations : option (list Migration);
}.
End StoreOptions.

(** [parseIndexConfig] (defineStore.ts).  An object is the list of its
    entries in the order of [Object.entries]. *)
Definition parseIndexConfig (indexes : option (list (string * IndexOption)))
  : list IndexDefinition.t :=
  match indexes with
  | None => []
  | Some entries =>
      fold_left
        (fun result entry =>
           let '(name, option) := entry in
           match option with
           | opt_boolean false => result
           | opt_boolean true =>
               (result ++ [IndexDefinition.Make name name None None])%list
           | opt_options o =>
               (result ++ [IndexDefinition.Make name name
                             (IndexOptions.unique o) (IndexOptions.multiEntry o)])%list
           end)
        entries []
  end.

Definition invalid_migration_name (store : string) : string :=
  "Invalid migration name in store " +:+ dquote +:+ store +:+ dquote
  +:+ ": must be a non-empty string".

Definition duplicate_migration_name (migration store : string) : string :=
  "Duplicate migration name " +:+ dquote +:+ migration +:+ dquote
  +:+ " in store " +:+ dquote +:+ store +:+ dquote.

(** The loop that validates the migrations of a store, from the set
    [migrationNames] of the names seen so far: the error it throws, if any. *)
Fixpoint validate_migrations (store : string) (migrationNames : list string)
    (migrations : list Migration) : option string :=
  match migrations with
  | [] => None
  | migration :: rest =>
      if String.eqb (mig_name migration) EmptyString
      then Some (invalid_migration_name store)
      else if bool_decide (mig_name migration ∈ migrationNames)
      then Some (duplicate_migration_name (mig_name migration) store)
      else validate_migrations store (migrationNames ++ [mig_name migration]) rest
  end.

(** ** Field builders (field.ts) *)

Module FieldDef.
Record t : Type := Make {
  _optional : bool;
  _hasDefault : bool;
  _isIndexed : bool;
  _default : option jsval;
  _primaryKey : bool;
  _indexOptions : option IndexOptions.t;
}.
End FieldDef.

(** A builder is its [_def]: the five methods are the same functions on
    every builder.  Default values are restricted to [jsval]; [None] is
    [undefined]. *)
Module FieldBuilder.
Import FieldDef.
Abbreviation t := FieldDef.t.

Definition createFieldBuilder : t := FieldDef.Make false false false None false None.

Definition optional (this : t) : t :=
  Make true (_hasDefault this) (_isIndexed this) (_default this) (_primaryKey this)
       (_indexOptions this).
Definition default (this : t) (value : option jsval) : t :=
  Make (_optional this) true (_isIndexed this) value (_primaryKey this)
       (_indexOptions this).
Definition primaryKey (this : t) : t :=
  Make (_optional this) (_hasDefault this) (_isIndexed this) (_default this) true
       (_indexOptions this).
Definition index (this : t) (options : option IndexOptions.t) : t :=
  Make (_optional this) (_hasDefault this) true (_default this) (_primaryKey this)
       options.
Definition array (this : t) : t := createFieldBuilder.

(** One call of a chain [field.string().m1().m2()...]. *)
Inductive method : Type :=
  | m_optional
  | m_default (value : option jsval)
  | m_primaryKey
  | m_index (options : option IndexOptions.t)
  | m_array.

Definition call (this : t) (m : method) : t :=
  match m with
  | m_optional => optional this
  | m_default value => default this value
  | m_primaryKey => primaryKey this
  | m_index options => index this options
  | m_array => array this
  end.

(** The builder a chain of calls returns, from [field.string()] or any other
    factory that is [createFieldBuilder()]. *)
Definition chain (ms : list method) : t := fold_left call ms createFieldBuilder.
End FieldBuilder.

(** ** Schema-based store definitions (schema.ts) *)

(** A [StoreSchema] is the list of its entries in the order of
    [Object.entries]. *)
Abbreviation StoreSchema := (list (string * FieldDef.t)).

Definition multiple_primary_keys (keyPath fieldName : string) : string :=
  "Multiple primary keys defined: " +:+ dquote +:+ keyPath +:+ dquote
  +:+ " and " +:+ dquote +:+ fieldName +:+ dquote.

Record ParsedSchema : Type := MkParsedSchema {
  ps_keyPath : option string;
  ps_indexes : list IndexDefinition.t;
  ps_defaults : record;
}.

(** One turn of the loop of [parseSchema]. *)
Definition parseSchema_step (acc : ParsedSchema) (entry : string * FieldDef.t)
  : thrown ParsedSchema :=
  let '(fieldName, def) := entry in
  match
    (if FieldDef._primaryKey def then
       match truthy (ps_keyPath acc) with
       | Some keyPath => error (multiple_primary_keys keyPath fieldName)
       | None => Ok (Some fieldName)
       end
     else Ok (ps_keyPath acc))
  with
  | Throw r => Throw r
  | Ok keyPath =>
      let indexes :=
        if FieldDef._isIndexed def then
          (ps_indexes acc ++
           [IndexDefinition.Make fieldName fieldName
              (FieldDef._indexOptions def ≫= IndexOptions.unique)
              (FieldDef._indexOptions def ≫= IndexOptions.multiEntry)])%list
        else ps_indexes acc in
      let defaults :=
        if FieldDef._hasDefault def then
          match FieldDef._default def with
          | Some value => <[fieldName := value]> (ps_defaults acc)
          | None => ps_defaults acc
          end
        else ps_defaults acc in
      Ok (MkParsedSchema keyPath indexes defaults)
  end.

Fixpoint parseSchema_loop (acc : ParsedSchema) (entries : StoreSchema)
  : thrown ParsedSchema :=
  match entries with
  | [] => Ok acc
  | entry :: rest =>
      match parseSchema_step acc entry with
      | Ok acc' => parseSchema_loop acc' rest
      | Throw r => Throw r
      end
  end.

Definition parseSchema (schema : StoreSchema) : thrown ParsedSchema :=
  parseSchema_loop (MkParsedSchema None [] ∅) schema.

Module SchemaStoreDefinition.
Record t : Type := Make {
  name : string;
  schema : StoreSchema;
  keyPath : string;
  indexes : list IndexDefinition.t;
  migrations : list Migration;
  defaults : record;
}.
End SchemaStoreDefinition.

Definition no_primary_key (store : string) : string :=
  "Store " +:+ dquote +:+ store +:+ dquote
  +:+ " must have a primary key. Use field.xxx().primaryKey()".

Definition migration_name_required (store : string) : string :=
  "Migration name is required and must be a string in store "
  +:+ dquote +:+ store +:+ dquote.

Definition duplicate_across_stores (migration : string) : string :=
  "Duplicate migration name " +:+ dquote +:+ migration +:+ dquote
  +:+ " found across stores".

Definition duplicate_store_name (store : string) : string :=
  "Duplicate store name: " +:+ dquote +:+ store +:+ dquote.

Definition version_required : string :=
  "Version is required when versionStrategy is " +:+ dquote +:+ "explicit" +:+ dquote.

Inductive VersionStrategy : Type := explicit | auto.

Module DatabaseConfig.
Record t : Type := Make {
  name : string;
  version : option Z;
  versionStrategy : option VersionStrategy;
  stores : list StoreDefinition.t;
}.
End DatabaseConfig.

(** A property of the object [openDB] returns: one of the seven members
    of [database], or a store accessor. *)
Inductive property : Type :=
  | p_name | p_version | p_raw | p_close | p_read | p_write | p_transaction
  | p_accessor (accessor : StoreAccessor.t).

(** The object [database] of [openDB]. *)
Definition database : gmap string property :=
  {[ "name" := p_name; "version" := p_version; "raw" := p_raw; "close" := p_close;
     "read" := p_read; "write" := p_write; "transaction" := p_transaction ]}.

(** [createStoreAccessor(idb, storeName)]: the defaults are [{}]. *)
Definition createStoreAccessor (storeName : string) : StoreAccessor.t :=
  StoreAccessor.Make storeName ∅.

(** An ordinary object: its own properties, and its prototype, which is
    [Object.prototype] ([None]) until an assignment makes a store accessor
    the prototype. *)
Record JSObject : Type := MkObject {
  own : gmap string property;
  prototype : option StoreAccessor.t;
}.

(** [obj[name] = accessor] on an ordinary object.  An own property of that
    name is overwritten.  Without one, the name [__proto__] reaches the
    setter that [Object.prototype] provides: the accessor becomes the
    prototype of the object, and no property is created.  Any other name
    gets a new own property. *)
Definition assign (obj : JSObject) (name : string) (accessor : StoreAccessor.t)
  : JSObject :=
  match own obj !! name with
  | None =>
      if String.eqb name "__proto__" then MkObject (own obj) (Some accessor)
      else MkObject (<[name := p_accessor accessor]> (own obj)) (prototype obj)
  | Some _ => MkObject (<[name := p_accessor accessor]> (own obj)) (prototype obj)
  end.

(** [buildDatabaseWithStores] (createDB.ts), from the copy
    [{ ...database }]. *)
Definition buildDatabaseWithStores (database : gmap string property)
    (stores : list StoreDefinition.t) : JSObject :=
  fold_left
    (fun dbWithStores store =>
       assign dbWithStores (StoreDefinition.name store)
         (createStoreAccessor (StoreDefinition.name store)))
    stores (MkObject database None).

(** The loop of [openDB] over the stores, from the set [storeNames] of the
    names seen so far: the error it throws, if any. *)
Fixpoint validate_stores (storeNames : list string) (stores : list StoreDefinition.t)
  : option string :=
  match stores with
  | [] => None
  | store :: rest =>
      if bool_decide (StoreDefinition.name store ∈ storeNames)
      then Some (duplicate_store_name (StoreDefinition.name store))
      else validate_stores (storeNames ++ [StoreDefinition.name store]) rest
  end.

Section Stores.
(** [a.localeCompare(b)] of the host: negative, zero or positive. *)
Variable localeCompare : string -> string -> Z.

(** [(a, b) => a.name.localeCompare(b.name)] *)
Definition by_name (a b : Migration) : Z := localeCompare (mig_name a) (mig_name b).

(** [createStore], the function [defineStore<T>()] of defineStore.ts returns. *)
Definition createStore (name : string) (options : StoreOptions.t)
  : thrown StoreDefinition.t :=
  let autoIncrement := default false (StoreOptions.autoIncrement options) in
  let migrations := default [] (StoreOptions.migrations options) in
  let parsedIndexes := parseIndexConfig (StoreOptions.indexes options) in
  if String.eqb name EmptyString
  then error "Store name is required and must be a string"
  else
    match validate_migrations name [] migrations with
    | Some message => error message
    | None =>
        Ok (StoreDefinition.Make name (StoreOptions.keyPath options) autoIncrement
              parsedIndexes (Array_sort by_name migrations))
    end.

(** [defineStore(name, schema, options)] of schema.ts; the builder it
    returns is the definition, with [addMigration] below as its method. *)
Definition defineStore (name : string) (schema : StoreSchema)
    (migrations : option (list Migration)) : thrown SchemaStoreDefinition.t :=
  let migrations := default [] migrations in
  if String.eqb name EmptyString
  then error "Store name is required and must be a string"
  else
    match parseSchema schema with
    | Throw r => Throw r
    | Ok parsed =>
        match truthy (ps_keyPath parsed) with
        | None => error (no_primary_key name)
        | Some keyPath =>
            match validate_migrations name [] migrations with
            | Some message => error message
            | None =>
                Ok (SchemaStoreDefinition.Make name schema keyPath (ps_indexes parsed)
                      (Array_sort by_name migrations) (ps_defaults parsed))
            end
        end
    end.

(** [builder.addMigration(migrationName, up)] *)
Definition addMigration (definition : SchemaStoreDefinition.t)
    (migrationName : string) (up : MigrationFn) : thrown SchemaStoreDefinition.t :=
  if String.eqb migrationName EmptyString
  then error (migration_name_required (SchemaStoreDefinition.name definition))
  else
    let existingNames :=
      new_Set (map mig_name (SchemaStoreDefinition.migrations definition)) in
    if bool_decide (migrationName ∈ existingNames)
    then error (duplicate_migration_name migrationName
                  (SchemaStoreDefinition.name definition))
    else
      let newMigrations :=
        Array_sort by_name
          (SchemaStoreDefinition.migrations definition ++ [MkMigration migrationName up]) in
      Ok (SchemaStoreDefinition.Make
            (SchemaStoreDefinition.name definition)
            (SchemaStoreDefinition.schema definition)
            (SchemaStoreDefinition.keyPath definition)
            (SchemaStoreDefinition.indexes definition)
            newMigrations
            (SchemaStoreDefinition.defaults definition)).

(** [toStoreDefinition] *)
Definition toStoreDefinition (store : SchemaStoreDefinition.t) : StoreDefinition.t :=
  StoreDefinition.Make (SchemaStoreDefinition.name store)
    (Some (kp_string (SchemaStoreDefinition.keyPath store))) false
    (SchemaStoreDefinition.indexes store) (SchemaStoreDefinition.migrations store).

(** The inner loop of [collectMigrations], over the migrations of one
    store, and the outer one, over the stores; the state is the set
    [seenNames] and the array [allMigrations]. *)
Fixpoint collect_migrations (seenNames : list string) (allMigrations : list Migration)
    (migrations : list Migration) : thrown (list string * list Migration) :=
  match migrations with
  | [] => Ok (seenNames, allMigrations)
  | migration :: rest =>
      if bool_decide (mig_name migration ∈ seenNames)
      then error (duplicate_across_stores (mig_name migration))
      else collect_migrations (seenNames ++ [mig_name migration])
             (allMigrations ++ [migration]) rest
  end.

Fixpoint collect_stores (seenNames : list string) (allMigrations : list Migration)
    (stores : list StoreDefinition.t) : thrown (list Migration) :=
  match stores with
  | [] => Ok allMigrations
  | store :: rest =>
      match collect_migrations seenNames allMigrations (StoreDefinition.migrations store) with
      | Ok (seenNames', allMigrations') => collect_stores seenNames' allMigrations' rest
      | Throw r => Throw r
      end
  end.

(** [collectMigrations] (createDB.ts) *)
Definition collectMigrations (stores : list StoreDefinition.t) : thrown (list Migration) :=
  match collect_stores [] [] stores with
  | Ok allMigrations => Ok (Array_sort by_name allMigrations)
  | Throw r => Throw r
  end.

(** [openDB] up to the call of [openDatabase]: the checks, the version and
    the migrations it opens the database with.  A [throw] here rejects
    the promise [openDB] returns, before the host is asked anything. *)
Definition openDB_checks (config : DatabaseConfig.t) : thrown (Z * list Migration) :=
  match validate_stores [] (DatabaseConfig.stores config) with
  | Some message => error message
  | None =>
      match
        (match default explicit (DatabaseConfig.versionStrategy config) with
         | auto => Ok 1
         | explicit =>
             match DatabaseConfig.version config with
             | None => error version_required
             | Some explicitVersion => Ok explicitVersion
             end
         end)
      with
      | Throw r => Throw r
      | Ok version =>
          match collectMigrations (DatabaseConfig.stores config) with
          | Throw r => Throw r
          | Ok migrations => Ok (version, migrations)
          end
      end
  end.
End Stores.

(** ** Definitions used to state the properties of store definitions *)

(** The index definition an entry of an index configuration stands for. *)
Definition index_of_entry (entry : string * IndexOption) : option IndexDefinition.t :=
  match snd entry with
  | opt_boolean false => None
  | opt_boolean true => Some (IndexDefinition.Make (fst entry) (fst entry) None None)
  | opt_options o =>
      Some (IndexDefinition.Make (fst entry) (fst entry)
              (IndexOptions.unique o) (IndexOptions.multiEntry o))
  end.

(** The names and the migrations of all stores, in the order of the loops. *)
Definition all_migrations (stores : list StoreDefinition.t) : list Migration :=
  concat (map StoreDefinition.migrations stores).






(** Which method a call is. *)
Definition is_optional (m : FieldBuilder.method) : bool :=
  match m with FieldBuilder.m_optional => true | _ => false end.
Definition is_default (m : FieldBuilder.method) : bool :=
  match m with FieldBuilder.m_default _ => true | _ => false end.
Definition is_primaryKey (m : FieldBuilder.method) : bool :=
  match m with FieldBuilder.m_primaryKey => true | _ => false end.
Definition is_index (m : FieldBuilder.method) : bool :=
  match m with FieldBuilder.m_index _ => true | _ => false end.
Definition is_array (m : FieldBuilder.method) : bool :=
  match m with FieldBuilder.m_array => true | _ => false end.

(** ** Example data for the store definitions *)

Module Blog.
Import FieldBuilder.

(** A host that compares names by their code units. *)
Definition code_unit_order (a b : string) : Z :=
  match code_unit_compare a b with
  | Lt => -1
  | Eq => 0
  | Gt => 1
  end.

Definition seed : Migration := MkMigration "001-seed" 1%nat.
Definition add_index : Migration := MkMigration "002-add-index" 2%nat.

(** [{ keyPath: 'id', indexes: { title: false, authorId: true },
       migrations: [add_index, seed] }] *)
Definition posts_options : StoreOptions.t :=
  StoreOptions.Make (Some (kp_string "id")) None
    (Some [("title", opt_boolean false); ("authorId", opt_boolean true)])
    (Some [add_index; seed]).

Definition posts : StoreDefinition.t :=
  StoreDefinition.Make "posts" (Some (kp_string "id")) false
    [IndexDefinition.Make "authorId" "authorId" None None] [seed; add_index].

(** [{ id: field.string().primaryKey(),
       email: field.string().index({ unique: true }),
       age: field.number().optional().default(0).index() }] *)
Definition users_schema : StoreSchema :=
  [ ("id", chain [m_primaryKey]);
    ("email", chain [m_index (Some (IndexOptions.Make (Some true) None))]);
    ("age", chain [m_optional; m_default (Some (JNum 0)); m_index None]) ].

Definition users : SchemaStoreDefinition.t :=
  SchemaStoreDefinition.Make "users" users_schema "id"
    [ IndexDefinition.Make "email" "email" (Some true) None;
      IndexDefinition.Make "age" "age" None None ]
    [seed] {[ "age" := JNum 0 ]}.

Definition users_migrated : SchemaStoreDefinition.t :=
  SchemaStoreDefinition.Make "users" users_schema "id"
    [ IndexDefinition.Make "email" "email" (Some true) None;
      IndexDefinition.Make "age" "age" None None ]
    [seed; add_index] {[ "age" := JNum 0 ]}.

Definition products : StoreDefinition.t :=
  StoreDefinition.Make "products" (Some (kp_string "id")) false [] [].

(** [{ name: 'blog', versionStrategy: 'auto', version: 7, stores: [posts, products] }] *)
Definition config : DatabaseConfig.t :=
  DatabaseConfig.Make "blog" (Some 7) (Some auto) [posts; products].

(** A store with the name [__proto__]. *)
Definition proto : StoreDefinition.t :=
  StoreDefinition.Make "__proto__" (Some (kp_string "id")) false [] [].
End Blog.

(** ** The upgrade handler (createDB.ts) *)







(** ** Requests as promises (utils.ts) *)

(** The events of a request, each with [request.result] or [request.error]
    at the time its handler runs. *)
Inductive request_event (A : Type) : Type :=
  | req_success (result : A)
  | req_error (error : reason).
Arguments req_success {A} result.
Arguments req_error {A} error.

(** [promisifyRequest(request)], after the request has delivered [events]. *)
Definition promisifyRequest {A} (events : list (request_event A)) : promise A :=
  fold_left
    (fun p ev =>
       match ev with
       | req_success result => resolve result p
       | req_error error => reject error p
       end)
    events Pending.

(** The events of [indexedDB.open] and [indexedDB.deleteDatabase]. *)
Inductive open_event (A : Type) : Type :=
  | open_success (db : A)
  | open_error (error : reason)
  | open_upgradeneeded (oldVersion : Z) (newVersion : option Z)
  | open_blocked.
Arguments open_success {A} db.
Arguments open_error {A} error.
Arguments open_upgradeneeded {A} oldVersion newVersion.
Arguments open_blocked {A}.

(** The calls of the two optional callbacks of [openDatabase]. *)
Inductive callback_call : Type :=
  | cb_onUpgradeNeeded (oldVersion newVersion : Z)
  | cb_onBlocked.

(** [openDatabase(name, version, onUpgradeNeeded, onBlocked)] after the
    request has delivered [events]: the promise, and the calls of the
    callbacks; the two booleans tell whether a callback was passed. *)
Definition openDatabase_on {A} (version : Z) (onUpgradeNeeded onBlocked : bool)
    (state : promise A * list callback_call) (ev : open_event A)
  : promise A * list callback_call :=
  let '(p, called) := state in
  match ev with
  | open_success db => (resolve db p, called)
  | open_error error => (reject error p, called)
  | open_upgradeneeded oldVersion newVersion =>
      (p, if onUpgradeNeeded
          then (called ++ [cb_onUpgradeNeeded oldVersion (default version newVersion)])%list
          else called)
  | open_blocked => (p, if onBlocked then (called ++ [cb_onBlocked])%list else called)
  end.

Definition openDatabase {A} (version : Z) (onUpgradeNeeded onBlocked : bool)
    (events : list (open_event A)) : promise A * list callback_call :=
  fold_left (openDatabase_on version onUpgradeNeeded onBlocked) events (Pending, []).

(** ** Definitions used to state the properties of the upgrade *)




(** The event of an open request as an event of a plain request, if it is
    one that settles. *)
Definition settling {A} (ev : open_event A) : option (request_event A) :=
  match ev with
  | open_success db => Some (req_success db)
  | open_error error => Some (req_error error)
  | _ => None
  end.

Definition callback_of {A} (version : Z) (onUpgradeNeeded onBlocked : bool)
    (ev : open_event A) : option callback_call :=
  match ev with
  | open_upgradeneeded oldVersion newVersion =>
      if onUpgradeNeeded
      then Some (cb_onUpgradeNeeded oldVersion (default version newVersion))
      else None
  | open_blocked => if onBlocked then Some cb_onBlocked else None
  | _ => None
  end.

(** * Properties *)

(** ** The order of strings *)

Lemma unit_rank_inj (x y : ascii) : unit_rank x = unit_rank y -> x = y.
Proof.
  intros H. rewrite <- (ascii_N_embedding x), <- (ascii_N_embedding y). f_equal.
  pose proof (N_ascii_bounded x) as Hx. pose proof (N_ascii_bounded y) as Hy.
  unfold unit_rank in H. cbv zeta in H.
  destruct (N.ltb_spec (N_of_ascii x) 238), (N.ltb_spec (N_of_ascii x) 240),
    (N.ltb_spec (N_of_ascii y) 238), (N.ltb_spec (N_of_ascii y) 240); lia.
Qed.

Lemma code_unit_compare_antisym (a : string) :
  forall b, code_unit_compare a b = CompOpp (code_unit_compare b a).
Proof.
  induction a as [|x a IH]; intros [|y b]; cbn; try reflexivity.
  rewrite (N.compare_antisym (unit_rank x) (unit_rank y)).
  destruct (unit_rank x ?= unit_rank y)%N; cbn; [apply IH | reflexivity..].
Qed.

Lemma code_unit_compare_refl (a : string) : code_unit_compare a a = Eq.
Proof. induction a as [|x a IH]; cbn; [reflexivity|]. now rewrite N.compare_refl. Qed.

Lemma code_unit_compare_eq (a : string) :
  forall b, code_unit_compare a b = Eq -> a = b.
Proof.
  induction a as [|x a IH]; intros [|y b]; cbn; try discriminate; [reflexivity|].
  destruct (unit_rank x ?= unit_rank y)%N eqn:Hc; try discriminate.
  intros H. apply N.compare_eq in Hc. apply unit_rank_inj in Hc. apply IH in H.
  now subst.
Qed.

Lemma code_unit_compare_trans (a : string) :
  forall b c, code_unit_compare a b <> Gt -> code_unit_compare b c <> Gt ->
              code_unit_compare a c <> Gt.
Proof.
  induction a as [|x a IH]; intros [|y b] [|z c]; cbn; try congruence.
  destruct (unit_rank x ?= unit_rank y)%N eqn:Hxy; try congruence.
  - apply N.compare_eq in Hxy. rewrite Hxy.
    destruct (unit_rank y ?= unit_rank z)%N; try congruence. apply IH.
  - destruct (unit_rank y ?= unit_rank z)%N eqn:Hyz; try congruence.
    + apply N.compare_eq in Hyz. rewrite <- Hyz, Hxy. congruence.
    + rewrite N.compare_lt_iff in *.
      assert (H : (unit_rank x ?= unit_rank z)%N = Lt) by (apply N.compare_lt_iff; lia).
      rewrite H. congruence.
Qed.


(** A character above U+FFFF sorts before one from U+E000 on, as its
    surrogates do: U+10000 before U+E000. *)
Lemma code_unit_compare_astral :
  code_unit_compare
    (String (ascii_of_nat 240) (String (ascii_of_nat 144)
       (String (ascii_of_nat 128) (String (ascii_of_nat 128) EmptyString))))
    (String (ascii_of_nat 238) (String (ascii_of_nat 128)
       (String (ascii_of_nat 128) EmptyString)))
  = Lt.
Proof. reflexivity. Qed.

(** ** The condition translator *)

Lemma made_not_absent (made : thrown IDBKeyRange.t) : Some <$> made <> Ok None.
Proof. now destruct made. Qed.

Lemma first_match_precedence (c : WhereCondition) :
  parseWhereCondition (WhereObject c) = outcome (first_match precedence c).
Proof.
  destruct c as [e g ge l le b s]; unfold parseWhereCondition; cbn.
  destruct e, b as [[lo hi]|], s, ge, le, g, l; reflexivity.
Qed.

Lemma parse_absent_iff (c : WhereCondition) :
  parseWhereCondition (WhereObject c) = Ok None <->
  Cond.eq c = None /\ Cond.between c = None /\ Cond.startsWith c = None /\
  Cond.gt c = None /\ Cond.gte c = None /\ Cond.lt c = None /\ Cond.lte c = None.
Proof.
  destruct c as [e g ge l le b s]; unfold parseWhereCondition; cbn.
  destruct e, b as [[lo hi]|], s, ge, le, g, l; cbn; split;
    first [ reflexivity
          | intros H; now apply made_not_absent in H
          | intuition discriminate
          | intuition ].
Qed.

(** Every range a factory returns is one the engine accepts. *)
Lemma factory_range_ok :
  (forall v r, IDBKeyRange.only v = Ok r -> range_ok r = true) /\
  (forall v open r, IDBKeyRange.lowerBound v open = Ok r -> range_ok r = true) /\
  (forall v open r, IDBKeyRange.upperBound v open = Ok r -> range_ok r = true) /\
  (forall lo hi lowerOpen upperOpen r,
      IDBKeyRange.bound lo hi lowerOpen upperOpen = Ok r -> range_ok r = true).
Proof.
  unfold IDBKeyRange.only, IDBKeyRange.lowerBound, IDBKeyRange.upperBound,
    IDBKeyRange.bound, range_ok.
  split; [|split; [|split]].
  - intros v r. destruct (valid_key v) eqn:Hv; [|discriminate]. intros [= <-]. cbn.
    rewrite Hv. cbn. destruct v; try discriminate; cbn.
    + now rewrite Z.compare_refl.
    + now rewrite code_unit_compare_refl.
  - intros v open r. destruct (valid_key v) eqn:Hv; [|discriminate]. intros [= <-]. cbn.
    now rewrite Hv.
  - intros v open r. destruct (valid_key v) eqn:Hv; [|discriminate]. intros [= <-]. cbn.
    now rewrite Hv.
  - intros lo hi lowerOpen upperOpen r.
    destruct (valid_key lo) eqn:Hlo, (valid_key hi) eqn:Hhi; try discriminate. cbn [andb].
    destruct (key_compare lo hi) eqn:Hc; try discriminate.
    + destruct lowerOpen, upperOpen; try discriminate. intros [= <-]. cbn.
      now rewrite Hlo, Hhi, Hc.
    + intros [= <-]. cbn. now rewrite Hlo, Hhi, Hc.
Qed.

(** The inclusive bound: returned for valid keys in order, and a DataError
    otherwise. *)
Lemma bound_inclusive (a b : jsval) :
  IDBKeyRange.bound a b false false
  = if valid_key a && valid_key b && ordered a b
    then Ok (IDBKeyRange.Make (Some a) (Some b) false false)
    else Throw (RDom DataError).
Proof.
  unfold IDBKeyRange.bound, ordered.
  destruct (valid_key a && valid_key b); [|reflexivity].
  now destruct (key_compare a b).
Qed.


(** C2.  [parseWhereCondition] resolves a condition object by first match in
    the order equals, betweenInclusive, startsWithPrefix, (gte and lte),
    (gt and lt, both exclusive), (gte and lt), (gt and lte), gt, gte, lt,
    lte: its outcome is that of the factory call of the first rule that
    applies, a range or a thrown DataError.  It returns no bound exactly
    when no field is set.  A condition with gte and lte set and none of eq,
    between, startsWith set yields the inclusive bound from gte to lte when
    both are valid keys and gte is not above lte, and throws a DataError
    otherwise. *)
Theorem translate_precedence :
  (forall c, parseWhereCondition (WhereObject c) = outcome (first_match precedence c)) /\
  (forall c, parseWhereCondition (WhereObject c) = Ok None <->
             Cond.eq c = None /\ Cond.between c = None /\ Cond.startsWith c = None /\
             Cond.gt c = None /\ Cond.gte c = None /\ Cond.lt c = None /\
             Cond.lte c = None) /\
  (forall c a b,
      Cond.gte c = Some a -> Cond.lte c = Some b ->
      Cond.eq c = None -> Cond.between c = None -> Cond.startsWith c = None ->
      parseWhereCondition (WhereObject c)
      = if valid_key a && valid_key b && ordered a b
        then Ok (Some (IDBKeyRange.Make (Some a) (Some b) false false))
        else Throw (RDom DataError)).
Proof.
  split; [exact first_match_precedence|].
  split; [exact parse_absent_iff|].
  intros [e g ge l le bt s] a b; cbn.
  intros -> -> -> -> ->. rewrite bound_inclusive.
  now destruct (valid_key a && valid_key b && ordered a b).
Qed.

Lemma translate_precedence_witness :
  parseWhereCondition
    (WhereObject (Cond.Make None (Some (JNum 7)) (Some (JNum 1)) (Some (JNum 9))
                    (Some (JNum 5)) None None))
  = Ok (Some (IDBKeyRange.Make (Some (JNum 1)) (Some (JNum 5)) false false)).
Proof.
  apply (proj2 (proj2 translate_precedence) _ (JNum 1) (JNum 5)); reflexivity.
Defined.

(** The condition [{ gte: 5, lte: 1 }] has gte and lte set and no field of
    higher precedence, and its translation is no bound: the factory throws
    a DataError. *)
Lemma translate_reversed_bounds_counterexample :
  let c := Cond.Make None None (Some (JNum 5)) None (Some (JNum 1)) None None in
  Cond.gte c = Some (JNum 5) /\ Cond.lte c = Some (JNum 1) /\
  Cond.eq c = None /\ Cond.between c = None /\ Cond.startsWith c = None /\
  parseWhereCondition (WhereObject c) = Throw (RDom DataError) /\
  parseWhereCondition (WhereObject c)
  <> Ok (Some (IDBKeyRange.Make (Some (JNum 5)) (Some (JNum 1)) false false)).
Proof. cbn. repeat split; discriminate. Qed.


(** ** The completion bridge *)

Lemma settled_resolve {A} (a : A) (p : promise A) : p <> Pending -> resolve a p = p.
Proof. destruct p; [congruence | reflexivity | reflexivity]. Qed.

Lemma settled_reject {A} (r : reason) (p : promise A) : p <> Pending -> reject r p = p.
Proof. destruct p; [congruence | reflexivity | reflexivity]. Qed.

Lemma promisify_on_settled (ev : tx_event) (p : promise unit) :
  p <> Pending -> promisifyTransaction_on ev p = p.
Proof.
  intros Hp. unfold promisifyTransaction_on.
  destruct (ev_type ev); auto using @settled_resolve, @settled_reject.
Qed.

Lemma promisify_fold_settled (events : list tx_event) (p : promise unit) :
  p <> Pending ->
  fold_left (fun p ev => promisifyTransaction_on ev p) events p = p.
Proof.
  revert p. induction events as [|ev events IH]; intros p Hp; cbn; [reflexivity|].
  rewrite (promisify_on_settled ev p Hp). now apply IH.
Qed.

(** C9.  The promise of [promisifyTransaction] is settled by the first
    signal of the transaction and by that one only: fulfilled on complete,
    rejected with [transaction.error] on error, rejected on abort with
    [transaction.error] or, when there is none, with the error
    Transaction aborted; later signals change nothing. *)
Theorem promisifyTransaction_single_resolution :
  (forall ev rest,
      promisifyTransaction (ev :: rest) =
      match ev_type ev with
      | ev_complete => Fulfilled tt
      | ev_error => Rejected (error_value (ev_txerror ev))
      | ev_abort =>
          match ev_txerror ev with
          | Some e => Rejected (RDom e)
          | None => Rejected (RError "Transaction aborted")
          end
      end) /\
  (forall ev rest, promisifyTransaction (ev :: rest) <> Pending) /\
  (forall events ev,
      promisifyTransaction events <> Pending ->
      promisifyTransaction (events ++ [ev]) = promisifyTransaction events) /\
  (forall rest,
      promisifyTransaction (TxEvent ev_abort None :: rest)
      = Rejected (RError "Transaction aborted")).
Proof.
  assert (first_signal : forall ev rest,
      promisifyTransaction (ev :: rest) =
      match ev_type ev with
      | ev_complete => Fulfilled tt
      | ev_error => Rejected (error_value (ev_txerror ev))
      | ev_abort =>
          match ev_txerror ev with
          | Some e => Rejected (RDom e)
          | None => Rejected (RError "Transaction aborted")
          end
      end).
  { intros [ty e] rest. unfold promisifyTransaction; cbn.
    rewrite promisify_fold_settled.
    - destruct ty, e; reflexivity.
    - destruct ty, e; discriminate. }
  repeat split.
  - exact first_signal.
  - intros [ty e] rest. rewrite first_signal. destruct ty, e; discriminate.
  - intros events ev Hs. unfold promisifyTransaction in *.
    rewrite fold_left_app. cbn. now apply promisify_on_settled.
  - intros rest. now rewrite first_signal.
Qed.

Lemma promisifyTransaction_single_resolution_witness :
  promisifyTransaction ([TxEvent ev_error None] ++ [TxEvent ev_abort (Some ConstraintError)])
  = promisifyTransaction [TxEvent ev_error None].
Proof.
  apply (proj1 (proj2 (proj2 promisifyTransaction_single_resolution))).
  vm_compute. discriminate.
Defined.

(** ** Transaction chains: the checks made before any transaction *)

(** C4.  A chain with an empty queue resolves at once, a write chain with no
    payload and a read chain with the empty sequence, and the engine is left
    exactly as it was: no transaction is opened and no call is logged. *)
Theorem empty_chain_is_noop :
  (forall chain db,
      WriteChain.operations chain = [] ->
      WriteChain.execute chain db = (Fulfilled tt, db)) /\
  (forall chain db,
      ReadChain.operations chain = [] ->
      ReadChain.execute chain db = (Fulfilled [], db)).
Proof.
  split; intros chain db Hq.
  - unfold WriteChain.execute. now rewrite Hq.
  - unfold ReadChain.execute. now rewrite Hq.
Qed.

Lemma empty_chain_is_noop_witness :
  WriteChain.execute (WriteChain.createWriteChain ["users"]) Sample.db
  = (Fulfilled tt, Sample.db) /\
  ReadChain.execute (ReadChain.createReadChain ["users"]) Sample.db
  = (Fulfilled [], Sample.db).
Proof.
  split.
  - apply (proj1 empty_chain_is_noop). reflexivity.
  - apply (proj2 empty_chain_is_noop). reflexivity.
Defined.

Lemma new_Set_In (names : list string) (x : string) :
  In x (new_Set names) <-> In x names.
Proof.
  induction names as [|n rest IH]; cbn; [tauto|].
  rewrite filter_In, IH.
  split.
  - intros [H | [H _]]; auto.
  - intros [H | H]; auto.
    destruct (String.eqb_spec x n) as [-> | Hne]; auto.
Qed.

Lemma out_of_scope_Some (storeNames used : list string) (store : string) :
  out_of_scope storeNames used = Some store ->
  In store used /\ (store ∉ storeNames).
Proof.
  unfold out_of_scope. intros H. apply find_some in H as [Hin Hb].
  split; [assumption|].
  apply negb_true_iff, bool_decide_eq_false in Hb. assumption.
Qed.

Lemma out_of_scope_None (storeNames used : list string) :
  out_of_scope storeNames used = None ->
  forall store, In store used -> store ∈ storeNames.
Proof.
  unfold out_of_scope. intros H store Hin.
  pose proof (find_none _ _ H store Hin) as Hb. cbn in Hb.
  apply negb_false_iff, bool_decide_eq_true in Hb. assumption.
Qed.

(** What the scope check finds in a queue that uses a store outside the
    declared scope. *)
Lemma scope_check_finds (storeNames names : list string) :
  (exists n, In n names /\ (n ∉ storeNames)) ->
  exists store, out_of_scope storeNames (new_Set names) = Some store /\
                In store names /\ (store ∉ storeNames).
Proof.
  intros (n & Hin & Hout).
  destruct (out_of_scope storeNames (new_Set names)) as [store|] eqn:Hs.
  - exists store. apply out_of_scope_Some in Hs as [H1 H2].
    apply (proj1 (new_Set_In _ _)) in H1. split; [reflexivity | split; assumption].
  - exfalso. apply Hout.
    apply (out_of_scope_None _ _ Hs). now apply new_Set_In.
Qed.

(** C1.  A chain whose queue uses a store that is not in its declared scope
    is rejected with the error that names such a store and lists the
    declared scope, and the engine is left exactly as it was: no transaction
    is opened, nothing is logged and no store changes. *)
Theorem scope_violation_rejects :
  (forall chain db,
      (exists op, In op (WriteChain.operations chain) /\
                  (WriteChain.storeName op ∉ WriteChain.storeNames chain)) ->
      exists store,
        In store (map WriteChain.storeName (WriteChain.operations chain)) /\
        (store ∉ WriteChain.storeNames chain) /\
        WriteChain.execute chain db
        = (Rejected (RError
             ("Store " +:+ dquote +:+ store +:+ dquote
              +:+ " is not in the transaction scope. "
              +:+ "Available stores: "
              +:+ String.concat ", " (WriteChain.storeNames chain))), db)) /\
  (forall chain db,
      (exists op, In op (ReadChain.operations chain) /\
                  (ReadChain.storeName op ∉ ReadChain.storeNames chain)) ->
      exists store,
        In store (map ReadChain.storeName (ReadChain.operations chain)) /\
        (store ∉ ReadChain.storeNames chain) /\
        ReadChain.execute chain db
        = (Rejected (RError
             ("Store " +:+ dquote +:+ store +:+ dquote
              +:+ " is not in the transaction scope. "
              +:+ "Available stores: "
              +:+ String.concat ", " (ReadChain.storeNames chain))), db)).
Proof.
  split; intros chain db (op & Hop & Hout).
  - destruct (scope_check_finds (WriteChain.storeNames chain)
                (map WriteChain.storeName (WriteChain.operations chain)))
      as (store & Hs & Hin & Hno).
    { exists (WriteChain.storeName op). split; [now apply in_map | assumption]. }
    exists store. repeat split; [assumption | assumption |].
    unfold WriteChain.execute.
    destruct (WriteChain.operations chain) as [|o ops] eqn:Hq; [destruct Hop|].
    cbn [length Nat.eqb]. rewrite Hs. reflexivity.
  - destruct (scope_check_finds (ReadChain.storeNames chain)
                (map ReadChain.storeName (ReadChain.operations chain)))
      as (store & Hs & Hin & Hno).
    { exists (ReadChain.storeName op). split; [now apply in_map | assumption]. }
    exists store. repeat split; [assumption | assumption |].
    unfold ReadChain.execute.
    destruct (ReadChain.operations chain) as [|o ops] eqn:Hq; [destruct Hop|].
    cbn [length Nat.eqb]. rewrite Hs. reflexivity.
Qed.

(** The chain of the specification's scenario: a put into users, then a
    delete in posts, with the scope users alone. *)
Lemma scope_violation_rejects_witness :
  exists store,
    In store ["users"; "posts"] /\ (store ∉ ["users"]) /\
    WriteChain.execute
      (WriteChain.delete
         (WriteChain.put (WriteChain.createWriteChain ["users"]) "users" Sample.u1 None)
         "posts" (QKey (JStr "p9")))
      Sample.db
    = (Rejected (RError
         ("Store " +:+ dquote +:+ store +:+ dquote
          +:+ " is not in the transaction scope. "
          +:+ "Available stores: " +:+ String.concat ", " ["users"])), Sample.db).
Proof.
  apply (proj1 scope_violation_rejects
           (WriteChain.delete
              (WriteChain.put (WriteChain.createWriteChain ["users"]) "users" Sample.u1 None)
              "posts" (QKey (JStr "p9")))
           Sample.db).
  exists (WriteChain.op_delete "posts" (QKey (JStr "p9"))). split.
  - cbn. right. left. reflexivity.
  - cbn. intros H. apply list_elem_of_In in H. cbn in H.
    destruct H as [H | []]. discriminate H.
Defined.

(** ** The engine during a read-only transaction over one store *)

Lemma db_transaction_one n mode db st :
  objectStores db !! n = Some st ->
  db_transaction [n] mode db = (Ok tt, opened [n] mode db).
Proof.
  intros H. unfold db_transaction, bind, log, set_active, opened. cbn.
  rewrite H. reflexivity.
Qed.

Lemma tx_objectStore_one n mode db :
  tx_objectStore n (opened [n] mode db) = (Ok n, opened [n] mode db).
Proof.
  unfold tx_objectStore, bind, current_tx. cbn.
  rewrite bool_decide_eq_true_2 by apply list_elem_of_here. reflexivity.
Qed.

Lemma the_store_opened n names mode cs db st :
  objectStores db !! n = Some st ->
  the_store n (add_calls cs (opened names mode db))
  = (Ok st, add_calls cs (opened names mode db)).
Proof.
  intros H. unfold the_store, bind, current_tx. cbn. rewrite H. reflexivity.
Qed.

Lemma add_calls_nil db : add_calls [] db = db.
Proof. destruct db; unfold add_calls; cbn. now rewrite app_nil_r. Qed.

Lemma source_of_opened b n mode db st :
  objectStores db !! n = Some st ->
  FinalQueryBuilderImpl.source_of b n (opened [n] mode db)
  = (match truthy (indexName (FinalQueryBuilderImpl.state b)) with
     | Some i => match indexes st !! i with
                 | Some _ => Ok (Source n (Some i))
                 | None => Throw (RDom NotFoundError)
                 end
     | None => Ok (Source n None)
     end, opened [n] mode db).
Proof.
  intros H. unfold FinalQueryBuilderImpl.source_of.
  destruct (truthy _) as [i|]; [|reflexivity].
  unfold store_index, bind.
  rewrite <- (add_calls_nil (opened [n] mode db)).
  rewrite (the_store_opened _ _ _ _ _ _ H).
  destruct (indexes st !! i); reflexivity.
Qed.

Lemma add_calls_add_calls cs1 cs2 db :
  add_calls cs2 (add_calls cs1 db) = add_calls (cs1 ++ cs2) db.
Proof. unfold add_calls; cbn. now rewrite app_assoc. Qed.

Lemma log_add_calls c db : log c db = (Ok tt, add_calls [c] db).
Proof. reflexivity. Qed.

Lemma source_entries_opened n idx names mode cs db st :
  objectStores db !! n = Some st ->
  source_entries (Source n idx) (add_calls cs (opened names mode db))
  = (match entries_of st idx with
     | Some es => Ok es
     | None => Throw (RDom NotFoundError)
     end, add_calls cs (opened names mode db)).
Proof.
  intros H. unfold source_entries, bind. cbn [src_store src_index].
  rewrite (the_store_opened _ _ _ _ _ _ H).
  destruct (entries_of st idx); reflexivity.
Qed.

Lemma req_getAll_opened n idx q names mode db st :
  objectStores db !! n = Some st ->
  req_getAll (Source n idx) q None (opened names mode db)
  = (selected st idx q, add_calls [c_getAll n idx q None] (opened names mode db)).
Proof.
  intros H. unfold req_getAll, bind. rewrite log_add_calls. cbn [src_store src_index].
  rewrite (source_entries_opened _ _ _ _ _ _ _ H). unfold selected.
  destruct (entries_of st idx); [|reflexivity].
  destruct (query_ok q); reflexivity.
Qed.

Lemma req_count_opened n idx q names mode db st :
  objectStores db !! n = Some st ->
  req_count (Source n idx) q (opened names mode db)
  = (match selected st idx q with
     | Ok ms => Ok (Z.of_nat (length ms))
     | Throw r => Throw r
     end, add_calls [c_count n idx q] (opened names mode db)).
Proof.
  intros H. unfold req_count, bind. rewrite log_add_calls. cbn [src_store src_index].
  rewrite (source_entries_opened _ _ _ _ _ _ _ H). unfold selected.
  destruct (entries_of st idx); [|reflexivity].
  destruct (query_ok q); reflexivity.
Qed.

Lemma req_openCursor_opened n idx range o names mode db st :
  objectStores db !! n = Some st ->
  req_openCursor (Source n idx) range (direction_of o) (opened names mode db)
  = (match selected st idx (QRange <$> range) with
     | Ok ms => Ok (directed o ms)
     | Throw r => Throw r
     end, add_calls [c_openCursor n idx range (direction_of o)] (opened names mode db)).
Proof.
  intros H. unfold req_openCursor, bind. rewrite log_add_calls. cbn [src_store src_index].
  rewrite (source_entries_opened _ _ _ _ _ _ _ H). unfold selected.
  destruct (entries_of st idx); [|reflexivity].
  destruct (query_ok _); [|reflexivity]. destruct o; reflexivity.
Qed.

Lemma replicate_S_continue k db :
  add_calls (replicate k c_continue) (add_calls [c_continue] db)
  = add_calls (replicate (S k) c_continue) db.
Proof. now rewrite add_calls_add_calls. Qed.

(** ** The cursor path *)

(** One run of the success handler on a record, by cases. *)
Lemma onsuccess_record b v acc :
  FinalQueryBuilderImpl.onsuccess b (Some v) acc =
  let pushed := MkAcc (results acc ++ [with_defaults b v]) (skipped acc) (collected acc + 1) in
  if skipped acc <? offsetCount (FinalQueryBuilderImpl.state b) then
    (MkAcc (results acc) (skipped acc + 1) (collected acc), Continued)
  else
    match limitCount (FinalQueryBuilderImpl.state b) with
    | None => (pushed, Continued)
    | Some l =>
        if collected acc <? l then
          if l <=? collected acc + 1 then (pushed, Resolved (results pushed))
          else (pushed, Continued)
        else (acc, Resolved (results acc))
    end.
Proof.
  unfold FinalQueryBuilderImpl.onsuccess, with_defaults, getCursorValue. cbn zeta.
  destruct (skipped acc <? _); [reflexivity|].
  destruct (limitCount _) as [l|]; [|reflexivity].
  destruct (Z.ltb_spec (collected acc) l) as [Hc|Hc]; cbn [collected results]; [reflexivity|].
  destruct (Z.leb_spec l (collected acc)); [reflexivity | lia].
Qed.

Lemma cursor_events_run b recs : forall acc db,
  cursor_events (FinalQueryBuilderImpl.onsuccess b) recs acc db
  = (Ok (Fulfilled
           (results acc ++
            map (with_defaults b)
              (up_to ((fun l => l - collected acc) <$> limitCount (FinalQueryBuilderImpl.state b))
                 (drop (Z.to_nat (offsetCount (FinalQueryBuilderImpl.state b) - skipped acc))
                    recs)))%list),
     add_calls
       (replicate
          (advance_count (length recs)
             (offsetCount (FinalQueryBuilderImpl.state b) - skipped acc)
             ((fun l => l - collected acc) <$> limitCount (FinalQueryBuilderImpl.state b)))
          c_continue) db).
Proof.
  set (O := offsetCount (FinalQueryBuilderImpl.state b)).
  induction recs as [|v rest IH]; intros acc db.
  - cbn. rewrite drop_nil. unfold ret, advance_count.
    destruct (limitCount _); cbn; rewrite ?take_nil, app_nil_r, add_calls_nil; reflexivity.
  - cbn [cursor_events]. rewrite onsuccess_record. fold O. cbn zeta.
    destruct (Z.ltb_spec (skipped acc) O) as [Hs|Hs].
    + (* a skipped record *)
      unfold bind, cursor_continue. rewrite log_add_calls, IH.
      cbn [results skipped collected]. rewrite replicate_S_continue.
      assert (Z.to_nat (O - skipped acc) = S (Z.to_nat (O - (skipped acc + 1)))) as -> by lia.
      cbn [drop]. do 3 f_equal.
      unfold advance_count. cbn [length].
      assert (Z.to_nat (O - skipped acc) = S (Z.to_nat (O - (skipped acc + 1)))) as -> by lia.
      destruct (limitCount _); cbn [fmap option_fmap option_map]; lia.
    + assert (Z.to_nat (O - skipped acc) = 0%nat) as Hd0 by lia.
      unfold advance_count in *. rewrite Hd0. cbn [drop].
      rewrite Nat.min_0_r, Nat.sub_0_r. cbn [Nat.add].
      destruct (limitCount (FinalQueryBuilderImpl.state b)) as [l|] eqn:Hl;
        cbn [fmap option_fmap option_map up_to] in *.
      * destruct (Z.ltb_spec (collected acc) l) as [Hc|Hc].
        -- destruct (Z.leb_spec l (collected acc + 1)) as [Hd|Hd].
           ++ (* the record that meets the limit *)
              unfold ret. assert (Z.to_nat (l - collected acc) = 1%nat) as -> by lia.
              cbn [take map results]. rewrite take_0. cbn [Nat.sub]. rewrite Nat.min_0_r.
              cbn [replicate]. rewrite add_calls_nil. reflexivity.
           ++ (* a collected record, more to come *)
              unfold bind, cursor_continue. rewrite log_add_calls, IH.
              cbn [results skipped collected]. rewrite replicate_S_continue, Hd0.
              cbn [drop].
              assert (Z.to_nat (l - collected acc) = S (Z.to_nat (l - (collected acc + 1))))
                as -> by lia.
              cbn [take map]. rewrite <- app_assoc. cbn [app].
              do 3 f_equal. cbn [length]. lia.
        -- (* the limit was met before this record *)
           unfold ret. assert (Z.to_nat (l - collected acc) = 0%nat) as -> by lia.
           rewrite take_0. cbn [map Nat.sub]. rewrite app_nil_r, Nat.min_0_r.
           cbn [replicate]. rewrite add_calls_nil. reflexivity.
      * (* no limit *)
        unfold bind, cursor_continue. rewrite log_add_calls, IH.
        cbn [results skipped collected]. rewrite replicate_S_continue, Hd0.
        cbn [drop map]. rewrite <- app_assoc. cbn [app].
        do 3 f_equal. cbn [length]. lia.
Qed.

Lemma tx_finish_opened names mode cs db :
  tx_finish (add_calls cs (opened names mode db))
  = ([TxEvent ev_complete None], closed (c_transaction names mode :: cs) db).
Proof. unfold tx_finish, closed; cbn. now rewrite <- app_assoc. Qed.

Lemma source_of_entries b n mode db st :
  objectStores db !! n = Some st ->
  FinalQueryBuilderImpl.source_of b n (opened [n] mode db)
  = (match entries_of st (truthy (indexName (FinalQueryBuilderImpl.state b))) with
     | Some _ => Ok (Source n (truthy (indexName (FinalQueryBuilderImpl.state b))))
     | None => Throw (RDom NotFoundError)
     end, opened [n] mode db).
Proof.
  intros H. rewrite (source_of_opened _ _ _ _ _ H).
  destruct (truthy _) as [i|]; [|reflexivity]. cbn.
  destruct (indexes st !! i); reflexivity.
Qed.

Section Executor.
Variable n : string.
Variable s : QueryState.
Variable d : record.
Variable db : Engine.
Variable st : objectStore.
Hypothesis store_exists : objectStores db !! n = Some st.

Local Abbreviation b := (FinalQueryBuilderImpl.Make n s d).

Lemma executeQuery_cursor ms :
  cursor_path s = true ->
  selected st (truthy (indexName s)) (QRange <$> range s) = Ok ms ->
  FinalQueryBuilderImpl.executeQuery b db
  = (Fulfilled (map (with_defaults b)
                  (up_to (limitCount s)
                     (drop (Z.to_nat (offsetCount s)) (directed (order s) ms)))),
     closed (c_transaction [n] readonly
             :: c_openCursor n (truthy (indexName s)) (range s) (direction_of (order s))
             :: replicate (advance_count (length ms) (offsetCount s) (limitCount s))
                  c_continue) db).
Proof.
  intros Hpath Hsel.
  unfold FinalQueryBuilderImpl.executeQuery, FinalQueryBuilderImpl.executor.
  cbn [FinalQueryBuilderImpl.state FinalQueryBuilderImpl.storeName].
  unfold cursor_path in Hpath. rewrite Hpath.
  unfold bind at 1. rewrite (db_transaction_one _ _ _ _ store_exists).
  unfold bind at 1. rewrite tx_objectStore_one.
  unfold bind at 1. rewrite (source_of_entries _ _ _ _ _ store_exists).
  cbn [FinalQueryBuilderImpl.state].
  pose proof Hsel as Hsel'. unfold selected in Hsel'.
  destruct (entries_of st (truthy (indexName s))) as [es|] eqn:He; [|discriminate].
  unfold bind at 1.
  change (match order s with desc => prev | asc => next end) with (direction_of (order s)).
  rewrite (req_openCursor_opened _ _ _ _ _ _ _ _ store_exists), Hsel.
  unfold bind at 1. rewrite cursor_events_run.
  cbn [results skipped collected FinalQueryBuilderImpl.state].
  unfold ret. rewrite add_calls_add_calls, tx_finish_opened.
  cbn [fold_left FinalQueryBuilderImpl.on_event ev_type app].
  rewrite !Z.sub_0_r.
  assert (Hlim : (fun l => l - 0) <$> limitCount s = limitCount s).
  { destruct (limitCount s); cbn; [now rewrite Z.sub_0_r | reflexivity]. }
  rewrite Hlim.
  assert (Hlen : length (directed (order s) ms) = length ms).
  { destruct (order s); cbn; [reflexivity | apply length_rev]. }
  rewrite Hlen. reflexivity.
Qed.

Lemma executeQuery_bulk ms :
  cursor_path s = false ->
  selected st (truthy (indexName s)) (QRange <$> range s) = Ok ms ->
  FinalQueryBuilderImpl.executeQuery b db
  = (Fulfilled (directed (order s) (map (with_defaults b) ms)),
     closed [c_transaction [n] readonly;
             c_getAll n (truthy (indexName s)) (QRange <$> range s) None] db).
Proof.
  intros Hpath Hsel.
  unfold FinalQueryBuilderImpl.executeQuery, FinalQueryBuilderImpl.executor.
  cbn [FinalQueryBuilderImpl.state FinalQueryBuilderImpl.storeName].
  unfold cursor_path in Hpath. rewrite Hpath.
  unfold bind at 1. rewrite (db_transaction_one _ _ _ _ store_exists).
  unfold bind at 1. rewrite tx_objectStore_one.
  unfold bind at 1. rewrite (source_of_entries _ _ _ _ _ store_exists).
  cbn [FinalQueryBuilderImpl.state].
  pose proof Hsel as Hsel'. unfold selected in Hsel'.
  destruct (entries_of st (truthy (indexName s))) as [es|] eqn:He; [|discriminate].
  unfold bind at 1, createGetAllRequest.
  rewrite (req_getAll_opened _ _ _ _ _ _ _ store_exists), Hsel.
  unfold ret. rewrite tx_finish_opened.
  cbn [fold_left FinalQueryBuilderImpl.on_event ev_type resolve].
  unfold FinalQueryBuilderImpl.oncomplete, with_defaults, directed.
  cbn [FinalQueryBuilderImpl.state].
  destruct (FinalQueryBuilderImpl.hasDefaults b); [reflexivity|].
  now rewrite map_id.
Qed.

Lemma executeQuery_throw r :
  selected st (truthy (indexName s)) (QRange <$> range s) = Throw r ->
  fst (FinalQueryBuilderImpl.executeQuery b db) = Rejected r.
Proof.
  intros Hsel.
  unfold FinalQueryBuilderImpl.executeQuery, FinalQueryBuilderImpl.executor.
  cbn [FinalQueryBuilderImpl.state FinalQueryBuilderImpl.storeName].
  unfold bind at 1. rewrite (db_transaction_one _ _ _ _ store_exists).
  unfold bind at 1. rewrite tx_objectStore_one.
  pose proof Hsel as Hsel'. unfold selected in Hsel'.
  destruct ((0 <? offsetCount s) || bool_decide (is_Some (limitCount s)));
    unfold bind at 1; rewrite (source_of_entries _ _ _ _ _ store_exists);
    cbn [FinalQueryBuilderImpl.state];
    (destruct (entries_of st (truthy (indexName s))) as [es|] eqn:He;
     [| injection Hsel' as <-; reflexivity]);
    unfold bind at 1.
  - change (match order s with desc => prev | asc => next end) with (direction_of (order s)).
    rewrite (req_openCursor_opened _ _ _ _ _ _ _ _ store_exists), Hsel. reflexivity.
  - unfold createGetAllRequest.
    rewrite (req_getAll_opened _ _ _ _ _ _ _ store_exists), Hsel. reflexivity.
Qed.

Lemma count_run :
  FinalQueryBuilderImpl.count b db
  = match entries_of st (truthy (indexName s)) with
    | None => (Rejected (RDom NotFoundError), closed [c_transaction [n] readonly] db)
    | Some es =>
        (if query_ok (QRange <$> range s)
         then Fulfilled (Z.of_nat (length (matching (QRange <$> range s) es)))
         else Rejected (RDom DataError),
         closed [c_transaction [n] readonly;
                 c_count n (truthy (indexName s)) (QRange <$> range s)] db)
    end.
Proof.
  unfold FinalQueryBuilderImpl.count, FinalQueryBuilderImpl.count_executor.
  cbn [FinalQueryBuilderImpl.state FinalQueryBuilderImpl.storeName].
  unfold bind at 1. rewrite (db_transaction_one _ _ _ _ store_exists).
  unfold bind at 1. rewrite tx_objectStore_one.
  destruct (truthy (indexName s)) as [i|] eqn:Hi.
  - unfold bind at 1, store_index, bind at 1.
    rewrite <- (add_calls_nil (opened [n] readonly db)).
    rewrite (the_store_opened _ _ _ _ _ _ store_exists).
    cbn [entries_of]. destruct (indexes st !! i) as [kp|] eqn:Hkp; cbn [mbind option_bind].
    + unfold ret. rewrite add_calls_nil, (req_count_opened _ _ _ _ _ _ _ store_exists).
      unfold selected. cbn [entries_of]. rewrite Hkp. cbn [mbind option_bind].
      destruct (query_ok _); rewrite tx_finish_opened; reflexivity.
    + unfold throw. rewrite tx_finish_opened. reflexivity.
  - rewrite (req_count_opened _ _ _ _ _ _ _ store_exists).
    unfold selected. cbn [entries_of].
    destruct (query_ok _); rewrite tx_finish_opened; reflexivity.
Qed.
End Executor.

Lemma length_directed {A} (o : SortOrder) (l : list A) : length (directed o l) = length l.
Proof. destruct o; cbn; [reflexivity | apply length_rev]. Qed.

Lemma advance_count_limit (n : nat) (O L : Z) :
  0 <= O -> 0 <= L ->
  advance_count n O (Some L) = Z.to_nat (Z.min (Z.of_nat n) (O + Z.max 0 (L - 1))).
Proof. intros HO HL. unfold advance_count. lia. Qed.

(** C3.  A query with limit [L] and offset [O], both non-negative, whose
    bound selects [N] records runs on the cursor path: it opens one
    transaction and one cursor, skips the first [O] records, collects the
    next [L] or all that remain, and advances the cursor
    min(N, O + max(0, L - 1)) times, so never after the limit is met.  The
    result has [L] records when O + L <= N, none when N <= O, and N - O
    when O < N < O + L. *)
Theorem cursor_pagination (b : FinalQueryBuilderImpl.t) (db : Engine) (st : objectStore)
    (ms : list record) (L O : Z) :
  objectStores db !! FinalQueryBuilderImpl.storeName b = Some st ->
  selected st (truthy (indexName (FinalQueryBuilderImpl.state b)))
    (QRange <$> range (FinalQueryBuilderImpl.state b)) = Ok ms ->
  limitCount (FinalQueryBuilderImpl.state b) = Some L ->
  offsetCount (FinalQueryBuilderImpl.state b) = O ->
  0 <= L -> 0 <= O ->
  let N := Z.of_nat (length ms) in
  exists rs,
    FinalQueryBuilderImpl.findAll b db
    = (Fulfilled rs,
       closed (c_transaction [FinalQueryBuilderImpl.storeName b] readonly
               :: c_openCursor (FinalQueryBuilderImpl.storeName b)
                    (truthy (indexName (FinalQueryBuilderImpl.state b)))
                    (range (FinalQueryBuilderImpl.state b))
                    (direction_of (order (FinalQueryBuilderImpl.state b)))
               :: replicate (Z.to_nat (Z.min N (O + Z.max 0 (L - 1)))) c_continue) db) /\
    rs = map (with_defaults b)
           (take (Z.to_nat L)
              (drop (Z.to_nat O) (directed (order (FinalQueryBuilderImpl.state b)) ms))) /\
    (O + L <= N -> Z.of_nat (length rs) = L) /\
    (N <= O -> Z.of_nat (length rs) = 0) /\
    (O < N < O + L -> Z.of_nat (length rs) = N - O).
Proof.
  destruct b as [n s d]. intros Hst Hsel Hl Ho HL HO N.
  cbn [FinalQueryBuilderImpl.state FinalQueryBuilderImpl.storeName] in *.
  eexists. split; [|split; [reflexivity|]].
  - unfold FinalQueryBuilderImpl.findAll.
    rewrite (executeQuery_cursor _ _ _ _ _ Hst ms); [| |exact Hsel].
    + rewrite Hl, Ho. cbn [up_to]. rewrite advance_count_limit by assumption. reflexivity.
    + unfold cursor_path. rewrite Hl. cbn. apply orb_true_r.
  - rewrite length_map, length_take, length_drop, length_directed. subst N. lia.
Qed.

(** C6.  With no limit and offset 0, [findAll] in descending order returns
    the reverse of [findAll] in ascending order, over any existing store.
    Each runs one transaction with a single getAll request; the descending
    result is the ascending result of that request, reversed. *)
Theorem desc_is_reverse_of_asc (b : FinalQueryBuilderImpl.t) (db : Engine) (st : objectStore) :
  objectStores db !! FinalQueryBuilderImpl.storeName b = Some st ->
  limitCount (FinalQueryBuilderImpl.state b) = None ->
  offsetCount (FinalQueryBuilderImpl.state b) = 0 ->
  fst (FinalQueryBuilderImpl.findAll (FinalQueryBuilderImpl.orderBy b desc) db)
  = promise_map (@rev record)
      (fst (FinalQueryBuilderImpl.findAll (FinalQueryBuilderImpl.orderBy b asc) db)) /\
  (forall ms,
      selected st (truthy (indexName (FinalQueryBuilderImpl.state b)))
        (QRange <$> range (FinalQueryBuilderImpl.state b)) = Ok ms ->
      let log :=
        [c_transaction [FinalQueryBuilderImpl.storeName b] readonly;
         c_getAll (FinalQueryBuilderImpl.storeName b)
           (truthy (indexName (FinalQueryBuilderImpl.state b)))
           (QRange <$> range (FinalQueryBuilderImpl.state b)) None] in
      FinalQueryBuilderImpl.findAll (FinalQueryBuilderImpl.orderBy b asc) db
      = (Fulfilled (map (with_defaults b) ms), closed log db) /\
      FinalQueryBuilderImpl.findAll (FinalQueryBuilderImpl.orderBy b desc) db
      = (Fulfilled (rev (map (with_defaults b) ms)), closed log db)).
Proof.
  destruct b as [n [i u r o l k] d]. intros Hst Hl Hk.
  cbn [FinalQueryBuilderImpl.state FinalQueryBuilderImpl.storeName
       limitCount offsetCount indexName range] in *.
  subst l k.
  unfold FinalQueryBuilderImpl.findAll, FinalQueryBuilderImpl.orderBy.
  cbn [FinalQueryBuilderImpl.state FinalQueryBuilderImpl.storeName
       FinalQueryBuilderImpl.defaults indexName useKey range limitCount offsetCount].
  assert (Hbulk : forall o', cursor_path (MkQueryState i u r o' None 0) = false)
    by reflexivity.
  assert (on_plan : forall ms,
      selected st (truthy i) (QRange <$> r) = Ok ms ->
      forall o',
        FinalQueryBuilderImpl.executeQuery
          (FinalQueryBuilderImpl.Make n (MkQueryState i u r o' None 0) d) db
        = (Fulfilled (directed o' (map (with_defaults
                                          (FinalQueryBuilderImpl.Make n (MkQueryState i u r o None 0) d))
                                     ms)),
           closed [c_transaction [n] readonly; c_getAll n (truthy i) (QRange <$> r) None] db)).
  { intros ms Hsel o'.
    now rewrite (executeQuery_bulk _ _ _ _ _ Hst ms (Hbulk o') Hsel). }
  split.
  - destruct (selected st (truthy i) (QRange <$> r)) as [ms|e] eqn:Hsel.
    + now rewrite !(on_plan ms).
    + now rewrite (executeQuery_throw n (MkQueryState i u r desc None 0) d db st Hst e Hsel),
        (executeQuery_throw n (MkQueryState i u r asc None 0) d db st Hst e Hsel).
  - intros ms Hsel. cbv zeta. rewrite !(on_plan ms Hsel). split; reflexivity.
Qed.

Lemma head_map_take {A B} (f : A -> B) (k : nat) (l : list A) :
  (1 <= k)%nat -> head (map f (take k l)) = head (map f l).
Proof. destruct k; [lia|]. now destruct l. Qed.

Lemma calls_since_closed (cs : list call) (db : Engine) :
  calls_since db (closed cs db) = cs.
Proof. unfold calls_since, closed; cbn. apply drop_app_length. Qed.

Lemma filter_continue_replicate (k : nat) :
  List.filter is_continue (replicate k c_continue) = replicate k c_continue.
Proof. induction k; cbn; [reflexivity | now f_equal]. Qed.

(** C10.  [find] forces the limit to 1 whatever limit the plan has.  It
    resolves with the first record of [findAll] on the plan with the same
    bound, order and offset (without a limit, or with any limit of at least
    1), with undefined when nothing matches, and it advances the cursor at
    most offset times, so that it visits at most offset + 1 records. *)
Theorem find_is_first_of_findAll (b : FinalQueryBuilderImpl.t) (db : Engine) (st : objectStore) :
  objectStores db !! FinalQueryBuilderImpl.storeName b = Some st ->
  (forall l, FinalQueryBuilderImpl.find (FinalQueryBuilderImpl.limit b l) db
             = FinalQueryBuilderImpl.find b db) /\
  fst (FinalQueryBuilderImpl.find b db)
  = FinalQueryBuilderImpl.first (fst (FinalQueryBuilderImpl.findAll (unlimited b) db)) /\
  (forall l, limitCount (FinalQueryBuilderImpl.state b) = Some l -> 1 <= l ->
             fst (FinalQueryBuilderImpl.find b db)
             = FinalQueryBuilderImpl.first (fst (FinalQueryBuilderImpl.findAll b db))) /\
  (forall ms,
      selected st (truthy (indexName (FinalQueryBuilderImpl.state b)))
        (QRange <$> range (FinalQueryBuilderImpl.state b)) = Ok ms ->
      0 <= offsetCount (FinalQueryBuilderImpl.state b) ->
      fst (FinalQueryBuilderImpl.find b db)
      = Fulfilled (with_defaults b <$>
                     head (drop (Z.to_nat (offsetCount (FinalQueryBuilderImpl.state b)))
                             (directed (order (FinalQueryBuilderImpl.state b)) ms))) /\
      (ms = [] -> fst (FinalQueryBuilderImpl.find b db) = Fulfilled None) /\
      Z.of_nat (advances db (snd (FinalQueryBuilderImpl.find b db))) + 1
      <= offsetCount (FinalQueryBuilderImpl.state b) + 1).
Proof.
  destruct b as [n [i u r o lim k] d]. intros Hst.
  cbn [FinalQueryBuilderImpl.state FinalQueryBuilderImpl.storeName
       limitCount offsetCount indexName range order] in *.
  set (b := FinalQueryBuilderImpl.Make n (MkQueryState i u r o lim k) d).
  assert (Hfind : forall ms,
      selected st (truthy i) (QRange <$> r) = Ok ms ->
      FinalQueryBuilderImpl.find b db
      = (Fulfilled (head (map (with_defaults b)
                            (take 1 (drop (Z.to_nat k) (directed o ms))))),
         closed (c_transaction [n] readonly
                 :: c_openCursor n (truthy i) r (direction_of o)
                 :: replicate (advance_count (length ms) k (Some 1)) c_continue) db)).
  { intros ms Hsel. unfold FinalQueryBuilderImpl.find, FinalQueryBuilderImpl.limit, b.
    cbn [FinalQueryBuilderImpl.state FinalQueryBuilderImpl.storeName
         FinalQueryBuilderImpl.defaults indexName useKey range order offsetCount].
    rewrite (executeQuery_cursor _ _ _ _ _ Hst ms); [reflexivity | | exact Hsel].
    unfold cursor_path. cbn. apply orb_true_r. }
  assert (Hthrow : forall e,
      selected st (truthy i) (QRange <$> r) = Throw e ->
      fst (FinalQueryBuilderImpl.find b db) = Rejected e).
  { intros e Hsel. unfold FinalQueryBuilderImpl.find, FinalQueryBuilderImpl.limit, b.
    cbn [FinalQueryBuilderImpl.state FinalQueryBuilderImpl.storeName
         FinalQueryBuilderImpl.defaults indexName useKey range order offsetCount].
    pose proof (executeQuery_throw n (MkQueryState i u r o (Some 1) k) d db st Hst e Hsel) as H.
    destruct (FinalQueryBuilderImpl.executeQuery _ db) as [p db']. cbn in H |- *.
    now subst p. }
  split; [|split; [|split]].
  - intros l. reflexivity.
  - destruct (selected st (truthy i) (QRange <$> r)) as [ms|e] eqn:Hsel.
    + rewrite (Hfind ms eq_refl). unfold FinalQueryBuilderImpl.findAll, unlimited, b.
      cbn [FinalQueryBuilderImpl.state FinalQueryBuilderImpl.storeName
           FinalQueryBuilderImpl.defaults indexName useKey range order offsetCount fst].
      destruct (cursor_path (MkQueryState i u r o None k)) eqn:Hpath.
      * rewrite (executeQuery_cursor _ _ _ _ _ Hst ms Hpath Hsel).
        cbn [fst FinalQueryBuilderImpl.first up_to limitCount offsetCount order].
        f_equal. now rewrite head_map_take by lia.
      * rewrite (executeQuery_bulk _ _ _ _ _ Hst ms Hpath Hsel).
        cbn [fst FinalQueryBuilderImpl.first order].
        unfold cursor_path in Hpath. cbn in Hpath. rewrite orb_false_r in Hpath.
        apply Z.ltb_ge in Hpath.
        replace (Z.to_nat k) with 0%nat by lia. rewrite drop_0.
        f_equal. rewrite head_map_take by lia.
        destruct o; cbn [directed]; [reflexivity | now rewrite map_rev].
    + rewrite (Hthrow e eq_refl). unfold FinalQueryBuilderImpl.findAll, unlimited, b.
      cbn [FinalQueryBuilderImpl.state FinalQueryBuilderImpl.storeName
           FinalQueryBuilderImpl.defaults indexName useKey range order offsetCount].
      now rewrite (executeQuery_throw n (MkQueryState i u r o None k) d db st Hst e Hsel).
  - intros l -> Hl.
    destruct (selected st (truthy i) (QRange <$> r)) as [ms|e] eqn:Hsel.
    + rewrite (Hfind ms eq_refl). unfold FinalQueryBuilderImpl.findAll, b.
      rewrite (executeQuery_cursor _ _ _ _ _ Hst ms); [| |exact Hsel].
      * cbn [fst FinalQueryBuilderImpl.first up_to limitCount offsetCount order].
        f_equal. rewrite !head_map_take by lia. reflexivity.
      * unfold cursor_path. cbn. apply orb_true_r.
    + rewrite (Hthrow e eq_refl). unfold FinalQueryBuilderImpl.findAll, b.
      now rewrite (executeQuery_throw n (MkQueryState i u r o (Some l) k) d db st Hst e Hsel).
  - intros ms Hsel Hk. rewrite (Hfind ms Hsel). cbn [fst snd]. split; [|split].
    + f_equal. rewrite head_map_take by lia. now destruct (drop _ _).
    + intros ->. f_equal. destruct o; cbn; now rewrite drop_nil.
    + unfold advances.
      rewrite calls_since_closed. cbn [List.filter is_continue].
      rewrite filter_continue_replicate, length_replicate.
      unfold advance_count. lia.
Qed.

(** ** Counting *)

Lemma key_compare_antisym (a b : jsval) :
  key_compare b a = CompOpp (key_compare a b).
Proof.
  destruct a, b; cbn; try reflexivity.
  - apply Z.compare_antisym.
  - apply code_unit_compare_antisym.
Qed.

Lemma key_compare_refl (a : jsval) : key_compare a a = Eq.
Proof.
  pose proof (key_compare_antisym a a) as H.
  destruct (key_compare a a); cbn in H; congruence.
Qed.

Lemma key_compare_eq (a b : jsval) :
  valid_key a = true -> valid_key b = true -> key_compare a b = Eq -> a = b.
Proof.
  destruct a, b; cbn; try discriminate; intros _ _ H.
  - apply Z.compare_eq in H. now subst.
  - apply code_unit_compare_eq in H. now subst.
Qed.

Lemma in_range_only (x k : jsval) :
  valid_key x = true -> valid_key k = true ->
  in_range (IDBKeyRange.Make (Some x) (Some x) false false) k = bool_decide (k = x).
Proof.
  intros Hx Hk. unfold in_range; cbn.
  rewrite (key_compare_antisym x k).
  destruct (key_compare x k) eqn:Hc; cbn.
  - apply key_compare_eq in Hc; [|assumption..]. subst.
    now rewrite bool_decide_eq_true_2.
  - rewrite bool_decide_eq_false_2; [reflexivity|].
    intros ->. rewrite key_compare_refl in Hc. discriminate.
  - rewrite bool_decide_eq_false_2; [reflexivity|].
    intros ->. rewrite key_compare_refl in Hc. discriminate.
Qed.

Lemma filter_insert_entry_length (f : jsval * record -> bool) e l :
  length (List.filter f (insert_entry e l)) = length (List.filter f (e :: l)).
Proof.
  induction l as [|e' l IH]; [reflexivity|].
  cbn [insert_entry]. destruct (key_compare (fst e) (fst e')); try reflexivity.
  cbn [List.filter] in *. destruct (f e'), (f e); cbn [length] in *; lia.
Qed.

Lemma filter_sort_entries_length (f : jsval * record -> bool) l :
  length (List.filter f (sort_entries l)) = length (List.filter f l).
Proof.
  induction l as [|e l IH]; [reflexivity|].
  cbn [sort_entries foldr]. rewrite filter_insert_entry_length.
  cbn [List.filter]. fold (sort_entries l). destruct (f e); cbn [length]; lia.
Qed.

Lemma omap_cons_step {A B} (f : A -> option B) (x : A) (l : list A) :
  omap f (x :: l) = match f x with Some y => y :: omap f l | None => omap f l end.
Proof. reflexivity. Qed.

(** An index on field [kp] holds, under the key [x], the rows whose field
    [kp] is [x]. *)
Lemma index_only_length (kp : string) (x : jsval) (rs : list (jsval * record)) :
  valid_key x = true ->
  length (matching (Some (QRange (IDBKeyRange.Make (Some x) (Some x) false false))) (index_entries kp rs))
  = length (List.filter (field_is kp x) rs).
Proof.
  intros Hx. unfold matching, index_entries.
  rewrite length_map, filter_sort_entries_length.
  induction rs as [|[pk r] rs IH]; [reflexivity|].
  rewrite omap_cons_step. cbn [List.filter].
  unfold index_entry at 1, field_is at 1. cbn [snd].
  destruct (r !! kp) as [k|] eqn:Hk.
  - destruct (valid_key k) eqn:Hv.
    + cbn [List.filter]. unfold matches at 1. cbn [range_of_query fst].
      rewrite (in_range_only x k Hx Hv).
      destruct (decide (k = x)) as [->|Hne].
      * rewrite !bool_decide_eq_true_2 by reflexivity. cbn [length]. now rewrite IH.
      * rewrite !bool_decide_eq_false_2 by congruence. exact IH.
    + rewrite bool_decide_eq_false_2; [exact IH|].
      intros [= ->]. congruence.
  - rewrite bool_decide_eq_false_2 by discriminate. exact IH.
Qed.

Lemma truthy_nonempty (i : string) : i <> EmptyString -> truthy (Some i) = Some i.
Proof.
  intros Hi. unfold truthy. destruct (String.eqb_spec i EmptyString); congruence.
Qed.

(** [count] ignores order, limit and offset.  Over an existing store and
    source it logs one transaction and exactly one count request with the
    bound of the plan, on the source [indexName ? store.index(indexName) :
    store], and it resolves with the count of the engine, or rejects with
    its error.  After [equals x] on an index with a non-empty name it
    resolves with the number of rows whose indexed field is [x].  Its
    handlers resolve on complete with the result of the request and reject
    on error with the error of the transaction. *)
Lemma count_ignores_order_limit_offset :
  (forall b db o l k,
      FinalQueryBuilderImpl.count (FinalQueryBuilderImpl.orderBy b o) db
      = FinalQueryBuilderImpl.count b db /\
      FinalQueryBuilderImpl.count (FinalQueryBuilderImpl.limit b l) db
      = FinalQueryBuilderImpl.count b db /\
      FinalQueryBuilderImpl.count (FinalQueryBuilderImpl.offset b k) db
      = FinalQueryBuilderImpl.count b db) /\
  (forall b db st es,
      objectStores db !! FinalQueryBuilderImpl.storeName b = Some st ->
      entries_of st (truthy (indexName (FinalQueryBuilderImpl.state b))) = Some es ->
      FinalQueryBuilderImpl.count b db
      = (if query_ok (QRange <$> range (FinalQueryBuilderImpl.state b))
         then Fulfilled
                (Z.of_nat (length (matching (QRange <$> range (FinalQueryBuilderImpl.state b)) es)))
         else Rejected (RDom DataError),
         closed [c_transaction [FinalQueryBuilderImpl.storeName b] readonly;
                 c_count (FinalQueryBuilderImpl.storeName b)
                   (truthy (indexName (FinalQueryBuilderImpl.state b)))
                   (QRange <$> range (FinalQueryBuilderImpl.state b))] db)) /\
  (forall q i x db st kp o l k,
      i <> EmptyString ->
      objectStores db !! QueryBuilderImpl.storeName q = Some st ->
      indexes st !! i = Some kp ->
      valid_key x = true ->
      exists f,
        IndexQueryBuilderImpl.equals (QueryBuilderImpl.index q i) x = Ok f /\
        fst (FinalQueryBuilderImpl.count
               (FinalQueryBuilderImpl.offset
                  (FinalQueryBuilderImpl.limit (FinalQueryBuilderImpl.orderBy f o) l) k)
               db)
        = Fulfilled (Z.of_nat (length (List.filter (field_is kp x) (rows st))))) /\
  (forall n ev rest,
      fold_left (fun p e => FinalQueryBuilderImpl.count_on n e p) (ev :: rest) Pending
      = match ev_type ev with
        | ev_complete => Fulfilled n
        | ev_error => Rejected (error_value (ev_txerror ev))
        | ev_abort => fold_left (fun p e => FinalQueryBuilderImpl.count_on n e p) rest Pending
        end).
Proof.
  split; [|split; [|split]].
  - intros [n [i u r o' l' k'] d] db o l k. repeat split.
  - intros [n s d] db st es Hst Hes.
    cbn [FinalQueryBuilderImpl.state FinalQueryBuilderImpl.storeName] in *.
    rewrite (count_run _ _ _ _ _ Hst), Hes. reflexivity.
  - intros [n d] i x db st kp o l k Hi Hst Hkp Hx.
    cbn [QueryBuilderImpl.storeName] in Hst.
    unfold IndexQueryBuilderImpl.equals, IDBKeyRange.only. rewrite Hx.
    eexists; split; [reflexivity|].
    unfold IndexQueryBuilderImpl.createFinal,
      QueryBuilderImpl.index, FinalQueryBuilderImpl.orderBy, FinalQueryBuilderImpl.limit,
      FinalQueryBuilderImpl.offset.
    cbn [FinalQueryBuilderImpl.state FinalQueryBuilderImpl.storeName
         FinalQueryBuilderImpl.defaults IndexQueryBuilderImpl.storeName
         IndexQueryBuilderImpl.indexName IndexQueryBuilderImpl.useKey
         IndexQueryBuilderImpl.defaults QueryBuilderImpl.storeName QueryBuilderImpl.defaults
         indexName useKey range order limitCount offsetCount].
    rewrite (count_run _ _ _ _ _ Hst).
    cbn [indexName range]. rewrite (truthy_nonempty i Hi).
    cbn [entries_of]. rewrite Hkp. cbn [mbind option_bind fmap option_fmap option_map].
    unfold query_ok. cbn [range_of_query].
    assert (Hok : range_ok (IDBKeyRange.Make (Some x) (Some x) false false) = true).
    { unfold range_ok; cbn. rewrite Hx, key_compare_refl. reflexivity. }
    rewrite Hok. cbn [fst]. now rewrite index_only_length.
  - intros n [ty e] rest. cbn [fold_left].
    assert (Hs : forall (p : promise Z) evs, p <> Pending ->
              fold_left (fun p e => FinalQueryBuilderImpl.count_on n e p) evs p = p).
    { intros p evs. revert p. induction evs as [|e' evs IH]; intros p Hp; [reflexivity|].
      cbn [fold_left]. rewrite IH; unfold FinalQueryBuilderImpl.count_on;
        destruct (ev_type e'), p; cbn; congruence. }
    destruct ty; cbn; [now apply Hs | now apply Hs | reflexivity].
Qed.

(** ** Transaction chains: what an execution logs *)

Lemma tx_finish_calls db : calls (snd (tx_finish db)) = calls db.
Proof.
  unfold tx_finish. destruct (active db) as [tx|]; [|reflexivity].
  destruct (tx_failed tx); reflexivity.
Qed.


Section Emits.
Variable names : list string.

Lemma emits_quiet {A} (m : M A) :
  (forall db, snd (m db) = db) -> emits names [] m.
Proof.
  intros Hq db tx Ha Hs. rewrite Hq. split; [|split].
  - exists 0%nat. now rewrite app_nil_r.
  - intros _ _. now rewrite app_nil_r.
  - eauto.
Qed.

Lemma emits_ret {A} (a : A) : emits names [] (ret a).
Proof. now apply emits_quiet. Qed.

Lemma emits_throw {A} (r : reason) : emits names [] (@throw A r).
Proof. now apply emits_quiet. Qed.

Lemma emits_log (c : call) : emits names [c] (log c).
Proof.
  intros db tx Ha Hs. cbn. split; [|split].
  - now exists 1%nat.
  - reflexivity.
  - eauto.
Qed.

Lemma emits_current_tx : emits names [] current_tx.
Proof.
  apply emits_quiet. intros db. unfold current_tx. now destruct (active db).
Qed.

Lemma emits_the_store (n : string) : emits names [] (the_store n).
Proof.
  apply emits_quiet. intros db. unfold the_store, bind, current_tx.
  destruct (active db) as [tx|]; [|reflexivity].
  now destruct (tx_stores tx !! n).
Qed.

Lemma emits_tx_objectStore (n : string) : emits names [] (tx_objectStore n).
Proof.
  apply emits_quiet. intros db. unfold tx_objectStore, bind, current_tx.
  destruct (active db) as [tx|]; [|reflexivity].
  now destruct (bool_decide _).
Qed.

Lemma emits_writable : emits names [] writable.
Proof.
  apply emits_quiet. intros db. unfold writable, bind, current_tx.
  destruct (active db) as [tx|]; [|reflexivity].
  now destruct (tx_mode tx).
Qed.

Lemma emits_store_index (store i : string) : emits names [] (store_index store i).
Proof.
  apply emits_quiet. intros db. unfold store_index, bind.
  pose proof (emits_the_store store) as H.
  unfold the_store, bind, current_tx.
  destruct (active db) as [tx|]; [|reflexivity].
  destruct (tx_stores tx !! store) as [st|]; [|reflexivity]. cbn.
  now destruct (indexes st !! i).
Qed.

Lemma emits_source_entries (src : source) : emits names [] (source_entries src).
Proof.
  apply emits_quiet. intros db. unfold source_entries, the_store, bind, current_tx.
  destruct (active db) as [tx|]; [|reflexivity].
  destruct (tx_stores tx !! src_store src) as [st|]; [|reflexivity]. cbn.
  now destruct (entries_of st (src_index src)).
Qed.

Lemma emits_tx_update (store : string) f : emits names [] (tx_update store f).
Proof.
  intros db tx Ha Hs. unfold tx_update, bind.
  assert (Hcur : current_tx db = (Ok tx, db)) by (unfold current_tx; now rewrite Ha).
  rewrite Hcur. unfold the_store, bind. rewrite Hcur.
  destruct (tx_stores tx !! store) as [st|]; cbn;
    [destruct (tx_failed tx) as [e|]; [|destruct (f st) as [e|st']]|];
    unfold set_active, ret, throw; cbn;
    (split; [exists 0%nat; cbn; now rewrite app_nil_r
            |split; [intros; now rewrite app_nil_r
                    |eexists; split; [reflexivity || eassumption | assumption]]]).
Qed.

Lemma emits_bind_post {A B} (P : A -> Prop) (cs1 cs2 : list call) (m : M A) (k : A -> M B) :
  emits names cs1 m ->
  (forall db a, fst (m db) = Ok a -> P a) ->
  (forall a, P a -> emits names cs2 (k a)) ->
  emits names (cs1 ++ cs2) (bind m k).
Proof.
  intros Hm HP Hk db tx Ha Hs. unfold bind.
  destruct (Hm db tx Ha Hs) as ((k1 & Hpre) & Hall & (tx1 & Ha1 & Hs1)).
  pose proof (HP db) as HPdb.
  destruct (m db) as [[a|r] db1] eqn:Hrun; cbn [fst snd] in *.
  - specialize (Hall a eq_refl).
    destruct (Hk a (HPdb a eq_refl) db1 tx1 Ha1 Hs1) as ((k2 & Hpre2) & Hall2 & Hkeep).
    split; [|split].
    + exists (length cs1 + k2)%nat. rewrite Hpre2, Hall, <- app_assoc.
      now rewrite take_app_add.
    + intros b' Hb. rewrite (Hall2 b' Hb), Hall. now rewrite app_assoc.
    + exact Hkeep.
  - split; [|split].
    + exists (Nat.min k1 (length cs1)). rewrite Hpre. f_equal.
      rewrite take_app_le by lia.
      destruct (Nat.le_ge_cases k1 (length cs1)).
      * now rewrite Nat.min_l.
      * rewrite Nat.min_r by assumption. now rewrite !take_ge by lia.
    + discriminate.
    + eauto.
Qed.

Lemma emits_bind {A B} (cs1 cs2 : list call) (m : M A) (k : A -> M B) :
  emits names cs1 m -> (forall a, emits names cs2 (k a)) ->
  emits names (cs1 ++ cs2) (bind m k).
Proof.
  intros Hm Hk. apply (emits_bind_post (fun _ => True)); auto.
Qed.

Lemma tx_objectStore_returns (n : string) db a :
  fst (tx_objectStore n db) = Ok a -> a = n.
Proof.
  unfold tx_objectStore, bind, current_tx.
  destruct (active db) as [tx|]; [|discriminate]. cbn.
  destruct (bool_decide _); cbn; congruence.
Qed.

Ltac quiet :=
  repeat first
    [ apply emits_ret | apply emits_throw | apply emits_current_tx
    | apply emits_the_store | apply emits_tx_objectStore | apply emits_writable
    | apply emits_store_index | apply emits_source_entries | apply emits_tx_update
    | apply emits_log
    | apply (emits_bind [] []); [|intros ?]
    | match goal with
      | |- emits _ _ (match ?x with _ => _ end) => destruct x
      end ].

Lemma emits_req_put store value key : emits names [c_put store value key] (req_put store value key).
Proof. unfold req_put. apply (emits_bind [_] []); [|intros ?]; quiet. Qed.

Lemma emits_req_add store value key : emits names [c_add store value key] (req_add store value key).
Proof. unfold req_add. apply (emits_bind [_] []); [|intros ?]; quiet. Qed.

Lemma emits_req_delete store q : emits names [c_delete store q] (req_delete store q).
Proof. unfold req_delete. apply (emits_bind [_] []); [|intros ?]; quiet. Qed.

Lemma emits_req_clear store : emits names [c_clear store] (req_clear store).
Proof. unfold req_clear. apply (emits_bind [_] []); [|intros ?]; quiet. Qed.




Lemma emits_issue_write op : emits names [write_call op] (WriteChain.issue op).
Proof.
  unfold WriteChain.issue.
  apply (emits_bind_post (fun a => a = WriteChain.storeName op) [] [_]).
  - apply emits_tx_objectStore.
  - intros db a. apply tx_objectStore_returns.
  - intros a ->. destruct op; cbn [WriteChain.storeName write_call].
    + apply emits_req_put.
    + apply emits_req_add.
    + apply emits_req_delete.
    + apply emits_req_clear.
Qed.

Lemma emits_issue_all_write ops : emits names (map write_call ops) (WriteChain.issue_all ops).
Proof.
  induction ops as [|op ops IH]; cbn [WriteChain.issue_all map].
  - apply emits_ret.
  - apply (emits_bind [_] _); [apply emits_issue_write | intros _; exact IH].
Qed.



End Emits.


Lemma nonempty_length {A} (l : list A) : l <> [] -> (length l =? 0)%nat = false.
Proof. destruct l; [congruence | reflexivity]. Qed.



(** ** The properties on the example data *)

(** The specification's scenario: the second and third cheapest products. *)
Lemma cursor_pagination_witness :
  exists rs,
    FinalQueryBuilderImpl.findAll Sample.second_and_third Sample.db
    = (Fulfilled rs,
       closed [c_transaction ["products"] readonly;
               c_openCursor "products" (Some "price") None next;
               c_continue; c_continue] Sample.db) /\
    rs = map snd [Sample.product "p2" "fruit" 50; Sample.product "p5" "dairy" 80] /\
    Z.of_nat (length rs) = 2.
Proof.
  destruct (cursor_pagination Sample.second_and_third Sample.db Sample.products
              Sample.by_price 2 1) as (rs & Hrun & Hrs & Hlen & _).
  - vm_compute. reflexivity.
  - vm_compute. reflexivity.
  - reflexivity.
  - reflexivity.
  - lia.
  - lia.
  - exists rs. split; [exact Hrun | split; [exact Hrs | apply Hlen; cbn; lia]].
Defined.

Lemma desc_is_reverse_of_asc_witness :
  fst (FinalQueryBuilderImpl.findAll
         (FinalQueryBuilderImpl.orderBy Sample.all_by_price desc) Sample.db)
  = promise_map (@rev record)
      (fst (FinalQueryBuilderImpl.findAll
              (FinalQueryBuilderImpl.orderBy Sample.all_by_price asc) Sample.db)).
Proof.
  refine (proj1 (desc_is_reverse_of_asc Sample.all_by_price Sample.db
                   Sample.products _ _ _)).
  - vm_compute. reflexivity.
  - reflexivity.
  - reflexivity.
Defined.

Lemma find_is_first_of_findAll_witness :
  fst (FinalQueryBuilderImpl.find Sample.second_and_third Sample.db)
  = FinalQueryBuilderImpl.first
      (fst (FinalQueryBuilderImpl.findAll Sample.second_and_third Sample.db)) /\
  fst (FinalQueryBuilderImpl.find Sample.second_and_third Sample.db)
  = Fulfilled (Some (snd (Sample.product "p2" "fruit" 50))).
Proof.
  assert (Hst : objectStores Sample.db !! "products" = Some Sample.products)
    by (vm_compute; reflexivity).
  destruct (find_is_first_of_findAll Sample.second_and_third Sample.db
              Sample.products Hst) as (_ & _ & Hlim & Hsel).
  split.
  - apply (Hlim 2); [reflexivity | lia].
  - destruct (Hsel Sample.by_price) as (Hfirst & _).
    + vm_compute. reflexivity.
    + cbn. lia.
    + exact Hfirst.
Defined.

(** C7.  [count] on the plan of [query().index('').equals('fruit')], where
    the index of the example store whose name is the empty string holds two
    records under fruit: the count request goes to the object store and not
    to the index the plan selects, and the promise resolves with 0, the
    number of records whose primary key is fruit.  The accessor's
    [getAllBy] on the same index and range reads the index and resolves
    with the two records. *)
Theorem count_misses_the_unnamed_index :
  IndexQueryBuilderImpl.equals (QueryBuilderImpl.index Sample.query EmptyString) (JStr "fruit")
  = Ok Sample.fruit_by_unnamed /\
  indexName (FinalQueryBuilderImpl.state Sample.fruit_by_unnamed) = Some EmptyString /\
  indexes Sample.products !! EmptyString = Some "category" /\
  FinalQueryBuilderImpl.count Sample.fruit_by_unnamed Sample.db
  = (Fulfilled 0,
     closed [c_transaction ["products"] readonly;
             c_count "products" None (Some (QRange Sample.only_fruit))]
       Sample.db) /\
  length (List.filter (field_is "category" (JStr "fruit")) (rows Sample.products)) = 2%nat /\
  StoreAccessor.getAllBy (StoreAccessor.Make "products" ∅) EmptyString
    (Some (QRange Sample.only_fruit)) Sample.db
  = (Fulfilled (map snd [Sample.product "p1" "fruit" 100; Sample.product "p2" "fruit" 50]),
     closed [c_transaction ["products"] readonly;
             c_getAll "products" (Some EmptyString) (Some (QRange Sample.only_fruit)) None]
       Sample.db).
Proof. repeat apply conj; vm_compute; reflexivity. Qed.


(** * Further properties *)

(** ** Queries: one formula for both paths *)

Lemma executeQuery_formula n s d db st ms :
  objectStores db !! n = Some st ->
  selected st (truthy (indexName s)) (QRange <$> range s) = Ok ms ->
  exists cs,
    FinalQueryBuilderImpl.executeQuery (FinalQueryBuilderImpl.Make n s d) db
    = (Fulfilled (map (with_defaults (FinalQueryBuilderImpl.Make n s d))
                    (up_to (limitCount s)
                       (drop (Z.to_nat (offsetCount s)) (directed (order s) ms)))),
       closed cs db).
Proof.
  intros Hst Hsel. destruct (cursor_path s) eqn:Hpath.
  - eexists. apply (executeQuery_cursor _ _ _ _ _ Hst ms Hpath Hsel).
  - eexists. rewrite (executeQuery_bulk _ _ _ _ _ Hst ms Hpath Hsel).
    unfold cursor_path in Hpath. apply orb_false_elim in Hpath as [Hk Hl].
    apply Z.ltb_ge in Hk. apply bool_decide_eq_false in Hl.
    destruct (limitCount s) as [l|]; [exfalso; apply Hl; eauto|].
    cbn [up_to]. replace (Z.to_nat (offsetCount s)) with 0%nat by lia.
    rewrite drop_0. f_equal. f_equal.
    destruct (order s); cbn [directed]; [reflexivity | now rewrite map_rev].
Qed.

(** X1.  [findAll] resolves with one slice of the selected records, whichever
    path runs it and whatever the limit and the offset are: the records the
    range selects from the store or the index, in the direction of the
    order, without the first [offset] of them, cut at [limit], each over the
    defaults.  The contents of the database are what they were. *)
Theorem findAll_is_slice (b : FinalQueryBuilderImpl.t) (db : Engine) (st : objectStore)
    (ms : list record) :
  objectStores db !! FinalQueryBuilderImpl.storeName b = Some st ->
  selected st (truthy (indexName (FinalQueryBuilderImpl.state b)))
    (QRange <$> range (FinalQueryBuilderImpl.state b)) = Ok ms ->
  fst (FinalQueryBuilderImpl.findAll b db)
  = Fulfilled
      (map (with_defaults b)
         (up_to (limitCount (FinalQueryBuilderImpl.state b))
            (drop (Z.to_nat (offsetCount (FinalQueryBuilderImpl.state b)))
               (directed (order (FinalQueryBuilderImpl.state b)) ms)))) /\
  objectStores (snd (FinalQueryBuilderImpl.findAll b db)) = objectStores db.
Proof.
  destruct b as [n s d]. cbn [FinalQueryBuilderImpl.state FinalQueryBuilderImpl.storeName].
  intros Hst Hsel. unfold FinalQueryBuilderImpl.findAll.
  destruct (executeQuery_formula n s d db st ms Hst Hsel) as (cs & ->).
  split; reflexivity.
Qed.

Lemma take_then_take {A} (l : list A) (a c : nat) :
  (take a l ++ take c (drop a l))%list = take (a + c) l.
Proof.
  revert l. induction a as [|a IH]; intros l; [reflexivity|].
  destruct l as [|x l]; cbn.
  - now rewrite take_nil.
  - f_equal. apply IH.
Qed.

Lemma take_drop_pages {A} (l : list A) (o a c : nat) :
  (take a (drop o l) ++ take c (drop (o + a) l))%list = take (a + c) (drop o l).
Proof. rewrite <- take_then_take, drop_drop. reflexivity. Qed.

(** X2.  Pages join up: the page of [size] records from [start] followed by
    the page of [more] records from [start + size] is the page of
    [size + more] records from [start]; and if one of the two is rejected, so
    is the long one, for the same reason. *)
Theorem pages_concatenate (b : FinalQueryBuilderImpl.t) (db : Engine) (st : objectStore)
    (start size more : Z) :
  objectStores db !! FinalQueryBuilderImpl.storeName b = Some st ->
  0 <= start -> 0 <= size -> 0 <= more ->
  promise_app (fst (FinalQueryBuilderImpl.findAll (page b start size) db))
              (fst (FinalQueryBuilderImpl.findAll (page b (start + size) more) db))
  = fst (FinalQueryBuilderImpl.findAll (page b start (size + more)) db).
Proof.
  destruct b as [n [i u r o l k] d].
  cbn [FinalQueryBuilderImpl.state FinalQueryBuilderImpl.storeName].
  intros Hst H0 H1 H2.
  unfold page, FinalQueryBuilderImpl.findAll, FinalQueryBuilderImpl.offset,
    FinalQueryBuilderImpl.limit.
  cbn [FinalQueryBuilderImpl.state FinalQueryBuilderImpl.storeName
       FinalQueryBuilderImpl.defaults indexName useKey range order limitCount offsetCount].
  destruct (selected st (truthy i) (QRange <$> r)) as [ms|e] eqn:Hsel.
  - destruct (executeQuery_formula n (MkQueryState i u r o (Some size) start) d db st ms
                Hst Hsel) as (cs1 & ->).
    destruct (executeQuery_formula n (MkQueryState i u r o (Some more) (start + size)) d db st ms
                Hst Hsel) as (cs2 & ->).
    destruct (executeQuery_formula n (MkQueryState i u r o (Some (size + more)) start) d db st ms
                Hst Hsel) as (cs3 & ->).
    cbn [fst promise_app up_to limitCount offsetCount order]. f_equal.
    rewrite <- map_app. unfold with_defaults. cbn. f_equal.
    replace (Z.to_nat (start + size)) with (Z.to_nat start + Z.to_nat size)%nat by lia.
    replace (Z.to_nat (size + more)) with (Z.to_nat size + Z.to_nat more)%nat by lia.
    apply take_drop_pages.
  - rewrite (executeQuery_throw n (MkQueryState i u r o (Some size) start) d db st Hst e Hsel).
    rewrite (executeQuery_throw n (MkQueryState i u r o (Some (size + more)) start) d db st
               Hst e Hsel).
    reflexivity.
Qed.

(** ** Defaults *)

Lemma size_zero_empty (d : record) : (0 <? size d)%nat = false -> d = ∅.
Proof. intros H. apply Nat.ltb_ge in H. apply map_size_empty_iff. lia. Qed.

Lemma with_defaults_overlay (b : FinalQueryBuilderImpl.t) (v : record) :
  with_defaults b v = overlay (FinalQueryBuilderImpl.defaults b) v.
Proof.
  unfold with_defaults, FinalQueryBuilderImpl.hasDefaults.
  destruct (0 <? size _)%nat eqn:H; [reflexivity|].
  apply size_zero_empty in H. rewrite H. unfold overlay.
  now rewrite (right_id_L ∅ (∪)).
Qed.

Lemma overlay_lookup (d v : record) (k : string) :
  overlay d v !! k = match v !! k with Some x => Some x | None => d !! k end.
Proof.
  unfold overlay. rewrite lookup_union. destruct (v !! k), (d !! k); reflexivity.
Qed.

Lemma elem_of_slice {A} (lim : option Z) (k : nat) (o : SortOrder) (l : list A) (x : A) :
  x ∈ up_to lim (drop k (directed o l)) -> x ∈ l.
Proof.
  intros H.
  assert (H1 : x ∈ drop k (directed o l)).
  { destruct lim as [n|]; cbn in H; [|exact H]. now apply (subseteq_take (Z.to_nat n)). }
  apply (subseteq_drop k) in H1.
  destruct o; cbn [directed] in H1; [exact H1|].
  apply list_elem_of_In. apply list_elem_of_In in H1. now apply in_rev.
Qed.

(** X3.  Every record [findAll] returns is one of the selected records with
    the defaults under it: a field of the record keeps its value, and a field
    the record lacks has the default, if there is one. *)
Theorem results_carry_defaults (b : FinalQueryBuilderImpl.t) (db : Engine)
    (st : objectStore) (ms rs : list record) :
  objectStores db !! FinalQueryBuilderImpl.storeName b = Some st ->
  selected st (truthy (indexName (FinalQueryBuilderImpl.state b)))
    (QRange <$> range (FinalQueryBuilderImpl.state b)) = Ok ms ->
  fst (FinalQueryBuilderImpl.findAll b db) = Fulfilled rs ->
  forall r', r' ∈ rs ->
    exists r, r ∈ ms /\
      forall k, r' !! k = match r !! k with
                          | Some x => Some x
                          | None => FinalQueryBuilderImpl.defaults b !! k
                          end.
Proof.
  destruct b as [n s d]. cbn [FinalQueryBuilderImpl.state FinalQueryBuilderImpl.storeName
                              FinalQueryBuilderImpl.defaults].
  intros Hst Hsel Hrun r' Hin. unfold FinalQueryBuilderImpl.findAll in Hrun.
  destruct (executeQuery_formula n s d db st ms Hst Hsel) as (cs & Heq).
  rewrite Heq in Hrun. cbn [fst] in Hrun. injection Hrun as <-.
  apply list_elem_of_In, in_map_iff in Hin as (r & <- & Hr).
  exists r. split.
  - apply list_elem_of_In in Hr. eapply elem_of_slice; exact Hr.
  - intros k. rewrite with_defaults_overlay. apply overlay_lookup.
Qed.

(** ** Counting and listing *)

(** X4.  For a plan without limit and offset, [count] resolves with the
    number of records [findAll] resolves with, and is rejected when [findAll]
    is, for the same reason. *)
Theorem count_is_length_of_findAll (b : FinalQueryBuilderImpl.t) (db : Engine)
    (st : objectStore) :
  objectStores db !! FinalQueryBuilderImpl.storeName b = Some st ->
  limitCount (FinalQueryBuilderImpl.state b) = None ->
  offsetCount (FinalQueryBuilderImpl.state b) = 0 ->
  fst (FinalQueryBuilderImpl.count b db)
  = promise_map (fun rs => Z.of_nat (length rs)) (fst (FinalQueryBuilderImpl.findAll b db)).
Proof.
  destruct b as [n [i u r o l k] d].
  cbn [FinalQueryBuilderImpl.state FinalQueryBuilderImpl.storeName limitCount offsetCount].
  intros Hst -> ->. rewrite (count_run _ _ _ _ _ Hst).
  unfold FinalQueryBuilderImpl.findAll. cbn [indexName range].
  destruct (selected st (truthy i) (QRange <$> r)) as [ms|e] eqn:Hsel.
  - destruct (executeQuery_formula n (MkQueryState i u r o None 0) d db st ms Hst Hsel)
      as (cs & ->).
    unfold selected in Hsel.
    destruct (entries_of st (truthy i)) as [es|]; [|discriminate].
    destruct (query_ok (QRange <$> r)); [|discriminate].
    injection Hsel as <-. cbn [fst promise_map up_to limitCount offsetCount order].
    rewrite drop_0, length_map, length_directed. reflexivity.
  - rewrite (executeQuery_throw n (MkQueryState i u r o None 0) d db st Hst e Hsel).
    unfold selected in Hsel.
    destruct (entries_of st (truthy i)) as [es|]; [|now injection Hsel as <-].
    destruct (query_ok (QRange <$> r)); [discriminate | now injection Hsel as <-].
Qed.

(** ** The two query styles *)

Lemma select_parse (b : IndexQueryBuilderImpl.t) (sel : selector) :
  select b sel
  = r ← parseWhereCondition (WhereObject (condition_of sel));
    Ok (IndexQueryBuilderImpl.createFinal b r).
Proof.
  destruct sel; cbn;
    unfold IndexQueryBuilderImpl.equals, IndexQueryBuilderImpl.gt,
      IndexQueryBuilderImpl.gte, IndexQueryBuilderImpl.lt, IndexQueryBuilderImpl.lte,
      IndexQueryBuilderImpl.between, IndexQueryBuilderImpl.startsWith;
    match goal with
    | |- context [mbind _ ?made] => destruct made; reflexivity
    end.
Qed.

(** X5.  The two query styles agree.  Each selecting method of the builder
    throws what [parseWhereCondition] throws for the condition object with
    that one field, and otherwise sets the range that it returns;
    [query(options)] with every option given throws what the selector
    throws, and otherwise is the builder chain
    [index(i).<selector>.orderBy(o).limit(l).offset(k).findAll()]; and
    [query({})] is [query().findAll()]. *)
Theorem selectors_agree_with_conditions :
  (forall b sel,
      (fun f => range (FinalQueryBuilderImpl.state f)) <$> select b sel
      = parseWhereCondition (WhereObject (condition_of sel))) /\
  (forall n d i sel o l k,
      query n d (MkQueryOptions (Some i) (Some (WhereObject (condition_of sel)))
                   (Some o) (Some l) (Some k))
      = (fun f =>
           FinalQueryBuilderImpl.findAll
             (FinalQueryBuilderImpl.offset
                (FinalQueryBuilderImpl.limit (FinalQueryBuilderImpl.orderBy f o) l) k))
        <$> select (QueryBuilderImpl.index (QueryBuilderImpl.Make n d) i) sel) /\
  (forall n d,
      query n d (MkQueryOptions None None None None None)
      = Ok (QueryBuilderImpl.findAll (QueryBuilderImpl.Make n d))).
Proof.
  split; [|split].
  - intros b sel. rewrite select_parse.
    now destruct (parseWhereCondition (WhereObject (condition_of sel))).
  - intros n d i sel o l k. rewrite select_parse. unfold query.
    cbn [opt_where opt_index opt_orderBy opt_limit opt_offset where_truthy].
    now destruct (parseWhereCondition (WhereObject (condition_of sel))).
  - reflexivity.
Qed.

(** ** Reading leaves the contents alone *)

Lemma pure_read_bind {A B} (m : M A) (k : A -> M B) :
  pure_read m -> (forall a, pure_read (k a)) -> pure_read (bind m k).
Proof.
  intros Hm Hk db1 db2 Ha. unfold bind.
  destruct (Hm db1 db2 Ha) as (Hf & Ha1 & Ho1).
  destruct (Hm db2 db1 (eq_sym Ha)) as (_ & Ha2 & _).
  destruct (m db1) as [[a|r] db1'], (m db2) as [[a'|r'] db2']; cbn [fst snd] in *;
    try discriminate.
  - injection Hf as <-.
    destruct (Hk a db1' db2') as (Hf' & Ha' & Ho'); [congruence|].
    split; [exact Hf' | split; congruence].
  - split; [congruence | split; assumption].
Qed.

Lemma pure_read_const {A} (m : M A) (t : thrown A) :
  (forall db, m db = (t, db)) -> pure_read m.
Proof. intros H db1 db2 _. rewrite !H. auto. Qed.

Lemma pure_read_ret {A} (a : A) : pure_read (ret a).
Proof. now apply (pure_read_const _ (Ok a)). Qed.

Lemma pure_read_throw {A} (r : reason) : pure_read (@throw A r).
Proof. now apply (pure_read_const _ (Throw r)). Qed.

Lemma pure_read_log (c : call) : pure_read (log c).
Proof. intros db1 db2 _. cbn. auto. Qed.

Lemma pure_read_current_tx : pure_read current_tx.
Proof.
  intros db1 db2 Ha. unfold current_tx. rewrite Ha.
  destruct (active db2); cbn; auto.
Qed.

Ltac pure_read :=
  repeat first
    [ apply pure_read_ret | apply pure_read_throw | apply pure_read_log
    | apply pure_read_current_tx
    | apply pure_read_bind; [|intros ?]
    | match goal with
      | |- pure_read (match ?x with _ => _ end) => destruct x
      end ].

Lemma pure_read_the_store (n : string) : pure_read (the_store n).
Proof. unfold the_store. pure_read. Qed.

Lemma pure_read_tx_objectStore (n : string) : pure_read (tx_objectStore n).
Proof. unfold tx_objectStore. pure_read. Qed.

Lemma pure_read_store_index (n i : string) : pure_read (store_index n i).
Proof. unfold store_index. apply pure_read_bind; [apply pure_read_the_store|]. intros ?. pure_read. Qed.

Lemma pure_read_source_entries (src : source) : pure_read (source_entries src).
Proof.
  unfold source_entries. apply pure_read_bind; [apply pure_read_the_store|]. intros ?. pure_read.
Qed.

Lemma pure_read_req_get (n : string) (key : jsval) : pure_read (req_get n key).
Proof.
  unfold req_get. apply pure_read_bind; [apply pure_read_log|]. intros _.
  apply pure_read_bind; [apply pure_read_the_store|]. intros ?. pure_read.
Qed.

Lemma pure_read_req_getAll src q n : pure_read (req_getAll src q n).
Proof.
  unfold req_getAll. apply pure_read_bind; [apply pure_read_log|]. intros _.
  apply pure_read_bind; [apply pure_read_source_entries|]. intros ?. pure_read.
Qed.

Lemma pure_read_req_count src q : pure_read (req_count src q).
Proof.
  unfold req_count. apply pure_read_bind; [apply pure_read_log|]. intros _.
  apply pure_read_bind; [apply pure_read_source_entries|]. intros ?. pure_read.
Qed.

Lemma pure_read_req_openCursor src r d : pure_read (req_openCursor src r d).
Proof.
  unfold req_openCursor. apply pure_read_bind; [apply pure_read_log|]. intros _.
  apply pure_read_bind; [apply pure_read_source_entries|]. intros ?. pure_read.
Qed.

Lemma pure_read_cursor_events handler recs : forall acc,
  pure_read (cursor_events handler recs acc).
Proof.
  induction recs as [|v rest IH]; intros acc; cbn [cursor_events].
  - destruct (handler None acc) as [? []]; pure_read.
  - destruct (handler (Some v) acc) as [acc' []]; [pure_read|].
    apply pure_read_bind; [apply pure_read_log | intros _; apply IH].
Qed.

Lemma pure_read_read_issue op : pure_read (ReadChain.issue op).
Proof.
  unfold ReadChain.issue. apply pure_read_bind; [apply pure_read_tx_objectStore|].
  intros store. destruct op.
  - apply pure_read_req_get.
  - apply pure_read_bind; [apply pure_read_req_getAll | intros ?; apply pure_read_ret].
  - apply pure_read_bind; [apply pure_read_store_index|]. intros ?.
    apply pure_read_bind; [apply pure_read_req_getAll | intros ?; apply pure_read_ret].
  - apply pure_read_bind; [apply pure_read_req_count | intros ?; apply pure_read_ret].
Qed.

Lemma pure_read_read_issue_all ops : pure_read (ReadChain.issue_all ops).
Proof.
  induction ops as [|op ops IH]; cbn [ReadChain.issue_all]; [apply pure_read_ret|].
  apply pure_read_bind; [apply pure_read_read_issue|]. intros ?.
  apply pure_read_bind; [exact IH | intros ?; apply pure_read_ret].
Qed.

Lemma db_transaction_cases names mode db :
  db_transaction names mode db = (Ok tt, opened names mode db) \/
  exists r, db_transaction names mode db
            = (Throw r, add_calls [c_transaction names mode] db).
Proof.
  unfold db_transaction, bind, log, opened, add_calls, set_active. cbn.
  destruct names as [|n names]; [right; eauto|].
  destruct (forallb _ (n :: names)); [left | right; eauto]. reflexivity.
Qed.

(** A transaction that only reads, from an idle engine: whatever happens,
    the contents are kept and the engine is idle again; and if the body
    returned, the transaction completes. *)
Lemma read_transaction {A} names mode (body : M A) db :
  pure_read body -> active db = None ->
  objectStores (snd (tx_finish (snd ((do! db_transaction names mode in body) db))))
  = objectStores db /\
  active (snd (tx_finish (snd ((do! db_transaction names mode in body) db)))) = None /\
  (forall a, fst ((do! db_transaction names mode in body) db) = Ok a ->
             fst (tx_finish (snd ((do! db_transaction names mode in body) db)))
             = [TxEvent ev_complete None]).
Proof.
  intros Hbody Hidle. unfold bind.
  destruct (db_transaction_cases names mode db) as [-> | (r & ->)].
  - destruct (Hbody (opened names mode db) (opened names mode db) eq_refl) as (_ & Ha & Ho).
    destruct (body (opened names mode db)) as [[a|r] db2]; cbn [fst snd] in *;
      unfold tx_finish; rewrite Ha; cbn; repeat split; auto; discriminate.
  - unfold tx_finish. cbn. rewrite Hidle. cbn. repeat split; auto. discriminate.
Qed.

Lemma read_transaction_keeps {A} names mode (body : M A) db :
  pure_read body -> active db = None ->
  objectStores (snd (tx_finish (snd ((do! db_transaction names mode in body) db))))
  = objectStores db /\
  active (snd (tx_finish (snd ((do! db_transaction names mode in body) db)))) = None.
Proof.
  intros Hb Hi. destruct (read_transaction names mode body db Hb Hi) as (H1 & H2 & _).
  now split.
Qed.

Lemma pure_read_source_of b store : pure_read (FinalQueryBuilderImpl.source_of b store).
Proof.
  unfold FinalQueryBuilderImpl.source_of.
  destruct (truthy _); [apply pure_read_store_index | apply pure_read_ret].
Qed.

Lemma snd_executeQuery b db :
  snd (FinalQueryBuilderImpl.executeQuery b db)
  = snd (tx_finish (snd (FinalQueryBuilderImpl.executor b db))).
Proof.
  unfold FinalQueryBuilderImpl.executeQuery.
  destruct (FinalQueryBuilderImpl.executor b db) as [[pth|r] db1]; cbn [snd]; [|reflexivity].
  now destruct (tx_finish db1).
Qed.

Lemma snd_count b db :
  snd (FinalQueryBuilderImpl.count b db)
  = snd (tx_finish (snd (FinalQueryBuilderImpl.count_executor b db))).
Proof.
  unfold FinalQueryBuilderImpl.count.
  destruct (FinalQueryBuilderImpl.count_executor b db) as [[n|r] db1]; cbn [snd]; [|reflexivity].
  now destruct (tx_finish db1).
Qed.

Lemma snd_issue_then_await {A} (body : M A) db :
  snd (issue_then_await body db) = snd (tx_finish (snd (body db))).
Proof.
  unfold issue_then_await.
  destruct (body db) as [[a|r] db1]; cbn [snd]; [|reflexivity].
  now destruct (tx_finish db1).
Qed.

Lemma executor_reads b db :
  active db = None ->
  objectStores (snd (tx_finish (snd (FinalQueryBuilderImpl.executor b db)))) = objectStores db /\
  active (snd (tx_finish (snd (FinalQueryBuilderImpl.executor b db)))) = None.
Proof.
  intros Hidle. unfold FinalQueryBuilderImpl.executor.
  apply read_transaction_keeps; [|exact Hidle].
  apply pure_read_bind; [apply pure_read_tx_objectStore|]. intros store.
  destruct (_ || _).
  - apply pure_read_bind; [apply pure_read_source_of|]. intros src.
    apply pure_read_bind; [apply pure_read_req_openCursor|]. intros recs.
    apply pure_read_bind; [apply pure_read_cursor_events | intros ?; apply pure_read_ret].
  - apply pure_read_bind; [apply pure_read_source_of|]. intros src.
    apply pure_read_bind; [apply pure_read_req_getAll | intros ?; apply pure_read_ret].
Qed.

(** X6.  Reading never changes the database: from an idle connection,
    [findAll], [find] and [count] of any plan and [execute] of any read chain
    leave every store as it was and the connection idle, whether they are
    fulfilled or rejected. *)
Theorem reads_keep_the_contents (db : Engine) :
  active db = None ->
  (forall b,
      objectStores (snd (FinalQueryBuilderImpl.findAll b db)) = objectStores db /\
      active (snd (FinalQueryBuilderImpl.findAll b db)) = None) /\
  (forall b,
      objectStores (snd (FinalQueryBuilderImpl.find b db)) = objectStores db /\
      active (snd (FinalQueryBuilderImpl.find b db)) = None) /\
  (forall b,
      objectStores (snd (FinalQueryBuilderImpl.count b db)) = objectStores db /\
      active (snd (FinalQueryBuilderImpl.count b db)) = None) /\
  (forall chain,
      objectStores (snd (ReadChain.execute chain db)) = objectStores db /\
      active (snd (ReadChain.execute chain db)) = None).
Proof.
  intros Hidle. split; [|split; [|split]].
  - intros b. unfold FinalQueryBuilderImpl.findAll. rewrite snd_executeQuery.
    now apply executor_reads.
  - intros b. unfold FinalQueryBuilderImpl.find.
    pose proof (snd_executeQuery (FinalQueryBuilderImpl.limit b 1) db) as Hs.
    destruct (FinalQueryBuilderImpl.executeQuery (FinalQueryBuilderImpl.limit b 1) db)
      as [p db'] eqn:Hrun.
    cbn [snd] in *. rewrite Hs. now apply executor_reads.
  - intros b. rewrite snd_count. unfold FinalQueryBuilderImpl.count_executor.
    apply read_transaction_keeps; [|exact Hidle].
    apply pure_read_bind; [apply pure_read_tx_objectStore|]. intros store.
    destruct (truthy _).
    + apply pure_read_bind; [apply pure_read_store_index | intros ?; apply pure_read_req_count].
    + apply pure_read_req_count.
  - intros chain. unfold ReadChain.execute.
    destruct (length _ =? 0)%nat; [now split|].
    destruct (out_of_scope _ _); [now split|].
    destruct (read_transaction_keeps (ReadChain.storeNames chain) readonly
                (ReadChain.issue_all (ReadChain.operations chain)) db
                (pure_read_read_issue_all _) Hidle) as (H1 & H2).
    destruct ((do! db_transaction _ _ in _) db) as [[rs|r] db1]; cbn [snd] in *.
    + destruct (tx_finish db1) as [events db2]. cbn [snd] in *. now split.
    + now split.
Qed.

(** ** Read chains: results by position *)

Lemma issue_all_results ops : forall db rs,
  fst (ReadChain.issue_all ops db) = Ok rs ->
  Forall2 (fun op r => fst (ReadChain.issue op db) = Ok r) ops rs.
Proof.
  induction ops as [|op ops IH]; intros db rs; cbn [ReadChain.issue_all].
  - intros [= <-]. constructor.
  - unfold bind.
    destruct (pure_read_read_issue op db db eq_refl) as (_ & Ha & _).
    destruct (ReadChain.issue op db) as [[r|e] db1] eqn:Hop; cbn [fst snd] in *;
      [|discriminate].
    pose proof (IH db1) as IH1.
    destruct (ReadChain.issue_all ops db1) as [[rs'|e] db2] eqn:Hrest; cbn [fst snd] in *;
      [|discriminate].
    intros [= <-]. constructor; [now rewrite Hop|].
    specialize (IH1 rs' eq_refl).
    eapply Forall2_impl; [exact IH1|]. cbn. intros op' r' H.
    destruct (pure_read_read_issue op' db db1 (eq_sym Ha)) as (Hf & _). congruence.
Qed.

Lemma out_of_scope_single names l x :
  out_of_scope names (new_Set l) = None -> In x l ->
  out_of_scope names (new_Set [x]) = None.
Proof.
  intros H Hin. apply (proj2 (new_Set_In _ _)) in Hin.
  apply (out_of_scope_None _ _ H) in Hin.
  unfold out_of_scope. cbn. now rewrite bool_decide_eq_true_2.
Qed.

Lemma read_execute_opened (names : list string)
    (ops : list ReadChain.ReadOperation) (db : Engine) :
  ops <> [] ->
  out_of_scope names (new_Set (map ReadChain.storeName ops)) = None ->
  db_transaction names readonly db = (Ok tt, opened names readonly db) ->
  fst (ReadChain.execute (ReadChain.Make names ops) db) =
  match fst (ReadChain.issue_all ops (opened names readonly db)) with
  | Ok rs => Fulfilled rs
  | Throw r => Rejected r
  end.
Proof.
  intros Hne Hscope Htx.
  unfold ReadChain.execute. cbn [ReadChain.operations ReadChain.storeNames].
  destruct ops as [|op0 ops'] eqn:Hops; [congruence|].
  rewrite <- Hops in *. assert (Hlen : (length ops =? 0)%nat = false) by now subst.
  rewrite Hlen, Hscope. unfold bind. rewrite Htx.
  destruct (pure_read_read_issue_all ops (opened names readonly db) _ eq_refl)
    as (_ & Ha & _).
  destruct (ReadChain.issue_all ops (opened names readonly db)) as [[rs'|e] db1];
    cbn [fst snd] in *; [|reflexivity].
  unfold tx_finish. rewrite Ha. cbn. reflexivity.
Qed.

(** X7.  The results of a read chain are in the order of its operations, one
    each: when [execute] is fulfilled, the result at position [i] is what the
    chain with the [i]-th operation alone resolves with. *)
Theorem read_results_by_position (names : list string)
    (ops : list ReadChain.ReadOperation) (db : Engine) (rs : list result_value) :
  fst (ReadChain.execute (ReadChain.Make names ops) db) = Fulfilled rs ->
  length rs = length ops /\
  forall i op, ops !! i = Some op ->
    exists r, rs !! i = Some r /\
              fst (ReadChain.execute (ReadChain.Make names [op]) db) = Fulfilled [r].
Proof.
  destruct ops as [|op0 ops'] eqn:Hops.
  - cbn. intros [= <-]. split; [reflexivity|]. intros i op. now rewrite lookup_nil.
  - rewrite <- Hops. assert (Hne : ops <> []) by now subst. clear Hops.
    destruct (out_of_scope names (new_Set (map ReadChain.storeName ops))) as [s|] eqn:Hscope.
    { unfold ReadChain.execute. cbn [ReadChain.operations ReadChain.storeNames].
      destruct ops; [congruence|]. cbn [length Nat.eqb]. rewrite Hscope. discriminate. }
    destruct (db_transaction_cases names readonly db) as [Htx | (r & Htx)].
    2:{ unfold ReadChain.execute. cbn [ReadChain.operations ReadChain.storeNames].
      destruct ops; [congruence|]. cbn [length Nat.eqb]. rewrite Hscope.
      unfold bind. rewrite Htx. discriminate. }
    rewrite (read_execute_opened names ops db Hne Hscope Htx).
    pose proof (issue_all_results ops (opened names readonly db)) as Hall.
    destruct (ReadChain.issue_all ops (opened names readonly db)) as [[rs'|e] db1];
      cbn [fst snd] in *; [|discriminate].
    specialize (Hall rs' eq_refl).
    intros [= <-]. split; [symmetry; eapply Forall2_length; exact Hall|].
    intros i op Hi.
    destruct (Forall2_lookup_l _ _ _ _ _ Hall Hi) as (r & Hr & Hissue).
    exists r. split; [exact Hr|].
    rewrite (read_execute_opened names [op] db); [|discriminate| |exact Htx].
    2:{ apply (out_of_scope_single names (map ReadChain.storeName ops) _ Hscope).
        apply in_map. apply list_elem_of_In. eapply list_elem_of_lookup_2; exact Hi. }
    cbn [ReadChain.issue_all]. unfold bind.
    destruct (ReadChain.issue op (opened names readonly db)) as [[r1|e1] db2];
      cbn [fst snd] in *; [|discriminate].
    injection Hissue as ->. reflexivity.
Qed.

(** ** The scope check names the first offender *)

Lemma find_filter_implied {A} (p q : A -> bool) (l : list A) :
  (forall x, p x = true -> q x = true) ->
  List.find p (List.filter q l) = List.find p l.
Proof.
  intros Hpq. induction l as [|x l IH]; [reflexivity|]. cbn.
  destruct (q x) eqn:Hq; cbn.
  - now rewrite IH.
  - destruct (p x) eqn:Hp; [|exact IH]. rewrite (Hpq x Hp) in Hq. discriminate.
Qed.

Lemma find_new_Set (p : string -> bool) (l : list string) :
  List.find p (new_Set l) = List.find p l.
Proof.
  induction l as [|n rest IH]; [reflexivity|]. cbn.
  destruct (p n) eqn:Hn; [reflexivity|].
  rewrite find_filter_implied; [exact IH|].
  intros x Hx. apply negb_true_iff.
  destruct (String.eqb_spec x n) as [-> | Hne]; [congruence | reflexivity].
Qed.

Lemma find_first {A} (p : A -> bool) (pre post : list A) (x : A) :
  (forall y, In y pre -> p y = false) -> p x = true ->
  List.find p (pre ++ x :: post) = Some x.
Proof.
  intros Hpre Hx. induction pre as [|y pre IH]; cbn.
  - now rewrite Hx.
  - rewrite (Hpre y (or_introl eq_refl)). apply IH. intros z Hz. apply Hpre. now right.
Qed.

Lemma out_of_scope_first (names used_pre used_post : list string) (s : string) :
  (forall n, In n used_pre -> n ∈ names) -> s ∉ names ->
  out_of_scope names (new_Set (used_pre ++ s :: used_post)) = Some s.
Proof.
  intros Hpre Hs. unfold out_of_scope. rewrite find_new_Set.
  apply find_first.
  - intros y Hy. apply negb_false_iff, bool_decide_eq_true. now apply Hpre.
  - apply negb_true_iff, bool_decide_eq_false. exact Hs.
Qed.

(** X8.  The store named by the scope error is the one of the first queued
    operation outside the scope, in queue order: taking the distinct names
    first does not change which store is found first. *)
Theorem first_offender_is_named (names : list string) (db : Engine) :
  (forall pre op post,
      (forall o, In o pre -> WriteChain.storeName o ∈ names) ->
      WriteChain.storeName op ∉ names ->
      WriteChain.execute (WriteChain.Make names (pre ++ op :: post)) db
      = (Rejected (RError (scope_error (WriteChain.storeName op) names)), db)) /\
  (forall pre op post,
      (forall o, In o pre -> ReadChain.storeName o ∈ names) ->
      ReadChain.storeName op ∉ names ->
      ReadChain.execute (ReadChain.Make names (pre ++ op :: post)) db
      = (Rejected (RError (scope_error (ReadChain.storeName op) names)), db)).
Proof.
  split; intros pre op post Hpre Hop.
  - unfold WriteChain.execute. cbn [WriteChain.operations WriteChain.storeNames].
    rewrite nonempty_length by (destruct pre; discriminate).
    rewrite map_app, map_cons, out_of_scope_first; [reflexivity| |exact Hop].
    intros n Hn. apply in_map_iff in Hn as (o & <- & Ho). now apply Hpre.
  - unfold ReadChain.execute. cbn [ReadChain.operations ReadChain.storeNames].
    rewrite nonempty_length by (destruct pre; discriminate).
    rewrite map_app, map_cons, out_of_scope_first; [reflexivity| |exact Hop].
    intros n Hn. apply in_map_iff in Hn as (o & <- & Ho). now apply Hpre.
Qed.

(** ** The store accessor *)

Lemma applyDefaults_always (this : StoreAccessor.t) (r : option record) :
  (if StoreAccessor.hasDefaults this then applyDefaults r (StoreAccessor.defaults this) else r)
  = applyDefaults r (StoreAccessor.defaults this).
Proof.
  unfold StoreAccessor.hasDefaults.
  destruct (0 <? size (StoreAccessor.defaults this))%nat eqn:Hs; [reflexivity|].
  apply Nat.ltb_ge in Hs.
  assert (StoreAccessor.defaults this = ∅) as -> by (apply map_size_empty_iff; lia).
  destruct r as [v|]; [|reflexivity]. cbn. unfold overlay. now rewrite (right_id_L ∅ (∪)).
Qed.

Lemma applyDefaultsToArray_always (this : StoreAccessor.t) (rs : list record) :
  (if StoreAccessor.hasDefaults this
   then applyDefaultsToArray rs (StoreAccessor.defaults this) else rs)
  = map (overlay (StoreAccessor.defaults this)) rs.
Proof.
  unfold StoreAccessor.hasDefaults, applyDefaultsToArray.
  destruct (size (StoreAccessor.defaults this)) as [|k] eqn:Hs; cbn.
  - apply map_size_empty_iff in Hs. rewrite Hs.
    induction rs as [|r rs IH]; [reflexivity|]. cbn. rewrite <- IH.
    unfold overlay. now rewrite (right_id_L ∅ (∪)).
  - reflexivity.
Qed.

Lemma get_run (this : StoreAccessor.t) (key : jsval) (db : Engine) (st : objectStore) :
  objectStores db !! StoreAccessor.storeName this = Some st ->
  valid_key key = true ->
  StoreAccessor.get this key db
  = (Fulfilled (applyDefaults (stored st key) (StoreAccessor.defaults this)),
     closed [c_transaction [StoreAccessor.storeName this] readonly;
             c_get (StoreAccessor.storeName this) key] db).
Proof.
  intros Hst Hk. unfold StoreAccessor.get, issue_then_await.
  unfold bind at 1. rewrite (db_transaction_one _ _ _ _ Hst).
  unfold bind at 1. rewrite tx_objectStore_one.
  unfold get_request, req_get. unfold bind at 1. unfold bind at 1. rewrite log_add_calls.
  unfold bind at 1. rewrite (the_store_opened _ _ _ _ _ _ Hst). rewrite Hk.
  unfold stored.
  destruct (matching (Some (QKey key)) (rows st)) as [|r rest]; unfold ret;
    rewrite tx_finish_opened; unfold getResult; cbn [promisifyTransaction fold_left
      promisifyTransaction_on ev_type resolve promise_map head];
    rewrite applyDefaults_always; reflexivity.
Qed.

Lemma resolve_key_valid st value key k :
  resolve_key st value key = Some k -> valid_key k = true.
Proof.
  unfold resolve_key.
  destruct (keyPath st), key as [k'|]; try discriminate.
  - destruct (value !! _) as [k'|]; [|discriminate].
    destruct (valid_key k') eqn:H; [|discriminate]. now intros [= <-].
  - destruct (valid_key k') eqn:H; [|discriminate]. now intros [= <-].
Qed.

Lemma resolve_key_with_rows st rs value key :
  resolve_key (with_rows st rs) value key = resolve_key st value key.
Proof. reflexivity. Qed.

(** A write request on the one store of a fresh read-write transaction. *)
Lemma write_opened name db st f c :
  objectStores db !! name = Some st ->
  (do! log c in do! writable in tx_update name f) (opened [name] readwrite db)
  = (Ok tt,
     MkEngine (objectStores db)
       (Some match f st with
             | inr st' => Transaction [name] readwrite (<[name := st']> (objectStores db)) None
             | inl e => Transaction [name] readwrite (objectStores db) (Some e)
             end)
       (calls db ++ [c_transaction [name] readwrite; c])).
Proof.
  intros Hst. unfold bind, log, writable, tx_update, current_tx, the_store, bind,
    current_tx, set_active, ret, opened. cbn. rewrite Hst.
  destruct (f st); cbn; now rewrite <- app_assoc.
Qed.

Lemma put_run (this : StoreAccessor.t) value key (db : Engine) (st : objectStore) k :
  objectStores db !! StoreAccessor.storeName this = Some st ->
  resolve_key st value key = Some k ->
  StoreAccessor.put this value key db
  = if violates_unique st k value
    then (Rejected RNull,
          closed [c_transaction [StoreAccessor.storeName this] readwrite;
                  c_put (StoreAccessor.storeName this) value key] db)
    else (Fulfilled k,
          committed (StoreAccessor.storeName this) (with_rows st (upsert k value (rows st)))
            [c_transaction [StoreAccessor.storeName this] readwrite;
             c_put (StoreAccessor.storeName this) value key] db).
Proof.
  intros Hst Hk. unfold StoreAccessor.put, issue_then_await.
  unfold bind at 1. rewrite (db_transaction_one _ _ _ _ Hst).
  unfold bind at 1. rewrite tx_objectStore_one.
  unfold put_request, req_put.
  unfold bind, log, writable, tx_update, current_tx, the_store, bind,
    current_tx, set_active, ret, opened, tx_finish, committed, closed. cbn.
  do 2 (rewrite ?Hst, ?Hk; cbn).
  destruct (violates_unique st k value); cbn.
  - do 2 (rewrite ?Hst, ?Hk; cbn). now rewrite <- app_assoc.
  - do 3 (rewrite ?Hst, ?Hk, ?lookup_insert_eq, ?resolve_key_with_rows; cbn).
    now rewrite <- app_assoc.
Qed.

Lemma add_run (this : StoreAccessor.t) value key (db : Engine) (st : objectStore) k :
  objectStores db !! StoreAccessor.storeName this = Some st ->
  resolve_key st value key = Some k ->
  StoreAccessor.add this value key db
  = if has_key k (rows st) || violates_unique st k value
    then (Rejected RNull,
          closed [c_transaction [StoreAccessor.storeName this] readwrite;
                  c_add (StoreAccessor.storeName this) value key] db)
    else (Fulfilled k,
          committed (StoreAccessor.storeName this) (with_rows st (upsert k value (rows st)))
            [c_transaction [StoreAccessor.storeName this] readwrite;
             c_add (StoreAccessor.storeName this) value key] db).
Proof.
  intros Hst Hk. unfold StoreAccessor.add, issue_then_await.
  unfold bind at 1. rewrite (db_transaction_one _ _ _ _ Hst).
  unfold bind at 1. rewrite tx_objectStore_one.
  unfold add_request, req_add.
  unfold bind, log, writable, tx_update, current_tx, the_store, bind,
    current_tx, set_active, ret, opened, tx_finish, committed, closed. cbn.
  do 2 (rewrite ?Hst, ?Hk; cbn).
  destruct (has_key k (rows st)); cbn [orb].
  - cbn. do 2 (rewrite ?Hst, ?Hk; cbn). now rewrite <- app_assoc.
  - destruct (violates_unique st k value); cbn.
    + do 2 (rewrite ?Hst, ?Hk; cbn). now rewrite <- app_assoc.
    + do 3 (rewrite ?Hst, ?Hk, ?lookup_insert_eq, ?resolve_key_with_rows; cbn).
      now rewrite <- app_assoc.
Qed.

Lemma delete_run (this : StoreAccessor.t) q (db : Engine) (st : objectStore) :
  objectStores db !! StoreAccessor.storeName this = Some st ->
  range_ok (range_of_query q) = true ->
  StoreAccessor.delete this q db
  = (Fulfilled tt,
     committed (StoreAccessor.storeName this)
       (with_rows st (List.filter (fun e => negb (matches (Some q) e)) (rows st)))
       [c_transaction [StoreAccessor.storeName this] readwrite;
        c_delete (StoreAccessor.storeName this) q] db).
Proof.
  intros Hst Hq. unfold StoreAccessor.delete, issue_then_await.
  unfold bind at 1. rewrite (db_transaction_one _ _ _ _ Hst).
  unfold bind at 1. rewrite tx_objectStore_one.
  unfold req_delete. rewrite Hq. cbn [negb].
  rewrite (write_opened _ _ _ _ _ Hst). unfold tx_finish, committed. cbn. reflexivity.
Qed.

Lemma clear_run (this : StoreAccessor.t) (db : Engine) (st : objectStore) :
  objectStores db !! StoreAccessor.storeName this = Some st ->
  StoreAccessor.clear this db
  = (Fulfilled tt,
     committed (StoreAccessor.storeName this) (with_rows st [])
       [c_transaction [StoreAccessor.storeName this] readwrite;
        c_clear (StoreAccessor.storeName this)] db).
Proof.
  intros Hst. unfold StoreAccessor.clear, issue_then_await.
  unfold bind at 1. rewrite (db_transaction_one _ _ _ _ Hst).
  unfold bind at 1. rewrite tx_objectStore_one.
  unfold req_clear.
  rewrite (write_opened _ _ _ _ _ Hst). unfold tx_finish, committed. cbn. reflexivity.
Qed.

Lemma accessor_count_run (this : StoreAccessor.t) q (db : Engine) (st : objectStore) :
  objectStores db !! StoreAccessor.storeName this = Some st ->
  StoreAccessor.count this q db
  = (match selected st None q with
     | Ok ms => Fulfilled (Z.of_nat (length ms))
     | Throw r => Rejected r
     end,
     closed [c_transaction [StoreAccessor.storeName this] readonly;
             c_count (StoreAccessor.storeName this) None q] db).
Proof.
  intros Hst. unfold StoreAccessor.count, issue_then_await.
  unfold bind at 1. rewrite (db_transaction_one _ _ _ _ Hst).
  unfold bind at 1. rewrite tx_objectStore_one.
  rewrite (req_count_opened _ _ _ _ _ _ _ Hst).
  destruct (selected st None q); rewrite tx_finish_opened; reflexivity.
Qed.

Lemma accessor_getAll_run (this : StoreAccessor.t) opts (db : Engine) (st : objectStore) :
  objectStores db !! StoreAccessor.storeName this = Some st ->
  opts ≫= GetAllOptions.count = None ->
  StoreAccessor.getAll this opts db
  = (match selected st None (opts ≫= GetAllOptions.query) with
     | Ok ms => Fulfilled (map (overlay (StoreAccessor.defaults this)) ms)
     | Throw r => Rejected r
     end,
     closed [c_transaction [StoreAccessor.storeName this] readonly;
             c_getAll (StoreAccessor.storeName this) None
               (opts ≫= GetAllOptions.query) None] db).
Proof.
  intros Hst Hc. unfold StoreAccessor.getAll, issue_then_await.
  unfold bind at 1. rewrite (db_transaction_one _ _ _ _ Hst).
  unfold bind at 1. rewrite tx_objectStore_one. rewrite Hc.
  rewrite (req_getAll_opened _ _ _ _ _ _ _ Hst).
  destruct (selected st None _); rewrite tx_finish_opened;
    unfold getResult;
    cbn [promisifyTransaction fold_left promisifyTransaction_on ev_type resolve promise_map];
    rewrite ?applyDefaultsToArray_always; reflexivity.
Qed.

Lemma accessor_getAllBy_fst (this : StoreAccessor.t) i q (db : Engine) (st : objectStore) :
  objectStores db !! StoreAccessor.storeName this = Some st ->
  fst (StoreAccessor.getAllBy this i q db)
  = match selected st (Some i) q with
    | Ok ms => Fulfilled (map (overlay (StoreAccessor.defaults this)) ms)
    | Throw r => Rejected r
    end.
Proof.
  intros Hst. unfold StoreAccessor.getAllBy, issue_then_await.
  unfold bind at 1. rewrite (db_transaction_one _ _ _ _ Hst).
  unfold bind at 1. rewrite tx_objectStore_one.
  unfold bind at 1. unfold store_index. unfold bind at 1.
  rewrite <- (add_calls_nil (opened _ _ db)).
  rewrite (the_store_opened _ _ _ _ _ _ Hst). rewrite add_calls_nil.
  unfold selected, entries_of.
  destruct (indexes st !! i) as [kp|] eqn:Hi; cbn [mbind option_bind].
  - unfold ret. rewrite (req_getAll_opened _ _ _ _ _ _ _ Hst).
    unfold selected, entries_of. rewrite Hi. cbn [mbind option_bind].
    destruct (query_ok q); rewrite tx_finish_opened;
      unfold getResult;
      cbn [promisifyTransaction fold_left promisifyTransaction_on ev_type resolve
           promise_map fst];
      rewrite ?applyDefaultsToArray_always; reflexivity.
  - reflexivity.
Qed.

Lemma in_range_only_self (k : jsval) : in_range (IDBKeyRange.Make (Some k) (Some k) false false) k = true.
Proof. unfold in_range; cbn. now rewrite key_compare_refl. Qed.

Lemma in_range_only_Gt (k k' : jsval) :
  key_compare k k' = Gt -> in_range (IDBKeyRange.Make (Some k) (Some k) false false) k' = false.
Proof. intros H. unfold in_range; cbn. now rewrite H. Qed.

Lemma matching_upsert_head (k : jsval) (v : record) (rs : list (jsval * record)) :
  head (matching (Some (QKey k)) (upsert k v rs)) = Some v.
Proof.
  unfold matching, matches. cbn [range_of_query].
  induction rs as [|[k' v'] rs IH]; cbn [upsert].
  - cbn. now rewrite in_range_only_self.
  - destruct (key_compare k k') eqn:Hc.
    + cbn. now rewrite in_range_only_self.
    + cbn. now rewrite in_range_only_self.
    + cbn [List.filter fst]. now rewrite (in_range_only_Gt _ _ Hc).
Qed.

Lemma matching_deleted (q : idbquery) (rs : list (jsval * record)) :
  matching (Some q) (List.filter (fun e => negb (matches (Some q) e)) rs) = [].
Proof.
  unfold matching. induction rs as [|e rs IH]; [reflexivity|]. cbn [List.filter].
  destruct (matches (Some q) e) eqn:He; cbn [negb]; [exact IH|].
  cbn [List.filter]. rewrite He. exact IH.
Qed.

Lemma committed_lookup name st cs db :
  objectStores (committed name st cs db) !! name = Some st.
Proof. unfold committed; cbn. apply lookup_insert_eq. Qed.

Lemma no_unique_index (st : objectStore) (k : jsval) (value : record) :
  uniqueIndexes st = [] -> violates_unique st k value = false.
Proof. unfold violates_unique. now intros ->. Qed.

(** X9.  [put] then [get], for a value whose key the store resolves.  When
    no unique index of the store holds the index key of the value under
    another primary key (so in every store without unique indexes), [put]
    resolves with the key the value is stored under, the store then holds
    the value as given (the defaults are not stored), and [get] of that key
    resolves with the value over the defaults.  When a unique index does,
    the request fails: [put] is rejected with the value [transaction.error]
    has when the error event arrives, which is [null], and the contents
    are what they were. *)
Theorem put_then_get (this : StoreAccessor.t) (value : record) (key : option jsval)
    (db : Engine) (st : objectStore) (k : jsval) :
  objectStores db !! StoreAccessor.storeName this = Some st ->
  resolve_key st value key = Some k ->
  (violates_unique st k value = false ->
     fst (StoreAccessor.put this value key db) = Fulfilled k /\
     fst (StoreAccessor.get this k (snd (StoreAccessor.put this value key db)))
     = Fulfilled (Some (overlay (StoreAccessor.defaults this) value)) /\
     exists st',
       objectStores (snd (StoreAccessor.put this value key db))
         !! StoreAccessor.storeName this = Some st' /\
       stored st' k = Some value) /\
  (violates_unique st k value = true ->
     fst (StoreAccessor.put this value key db) = Rejected RNull /\
     objectStores (snd (StoreAccessor.put this value key db)) = objectStores db) /\
  (uniqueIndexes st = [] -> violates_unique st k value = false).
Proof.
  intros Hst Hk. rewrite (put_run this value key db st k Hst Hk).
  split; [|split; [|apply no_unique_index]].
  - intros ->. cbn [fst snd]. split; [reflexivity|].
    assert (Hs : stored (with_rows st (upsert k value (rows st))) k = Some value)
      by apply matching_upsert_head.
    split.
    + rewrite (get_run this k _ _ (committed_lookup _ _ _ _) (resolve_key_valid _ _ _ _ Hk)).
      cbn [fst]. now rewrite Hs.
    + eexists. split; [apply committed_lookup | exact Hs].
  - intros ->. split; reflexivity.
Qed.

(** X10.  What [delete] removes is gone: after [delete(q)] of a key or a
    range the engine accepts, [getAll({ query: q })] resolves with no record
    and [count(q)] with 0; and after the delete of a key, [get] of that key
    resolves with [undefined], also when there are defaults. *)
Theorem deleted_is_gone (this : StoreAccessor.t) (q : idbquery) (db : Engine)
    (st : objectStore) :
  objectStores db !! StoreAccessor.storeName this = Some st ->
  range_ok (range_of_query q) = true ->
  fst (StoreAccessor.delete this q db) = Fulfilled tt /\
  fst (StoreAccessor.getAll this (Some (GetAllOptions.Make (Some q) None))
         (snd (StoreAccessor.delete this q db))) = Fulfilled [] /\
  fst (StoreAccessor.count this (Some q) (snd (StoreAccessor.delete this q db)))
  = Fulfilled 0 /\
  forall k, q = QKey k -> valid_key k = true ->
    fst (StoreAccessor.get this k (snd (StoreAccessor.delete this q db))) = Fulfilled None.
Proof.
  intros Hst Hq. rewrite (delete_run this q db st Hst Hq). cbn [fst snd].
  split; [reflexivity|].
  assert (Hsel : selected (with_rows st (List.filter (fun e => negb (matches (Some q) e))
                                           (rows st))) None (Some q) = Ok []).
  { unfold selected. cbn [entries_of with_rows rows query_ok]. rewrite Hq.
    now rewrite matching_deleted. }
  split; [|split].
  - rewrite (accessor_getAll_run this (Some (GetAllOptions.Make (Some q) None)) _ _
               (committed_lookup _ _ _ _) eq_refl).
    cbn [fst mbind option_bind GetAllOptions.query]. now rewrite Hsel.
  - rewrite (accessor_count_run this _ _ _ (committed_lookup _ _ _ _)).
    cbn [fst]. now rewrite Hsel.
  - intros k -> Hk.
    rewrite (get_run this k _ _ (committed_lookup _ _ _ _) Hk). cbn [fst].
    unfold stored. cbn [with_rows rows]. now rewrite matching_deleted.
Qed.

(** X11.  [add] is [put] for a key that is not in the store: the same result
    and the same contents afterwards.  For a key that is in the store the
    request fails: the promise is rejected with the value [transaction.error]
    has when the error event arrives, which is [null], and the contents are
    what they were. *)
Theorem add_is_put_of_a_new_key (this : StoreAccessor.t) (value : record)
    (key : option jsval) (db : Engine) (st : objectStore) (k : jsval) :
  objectStores db !! StoreAccessor.storeName this = Some st ->
  resolve_key st value key = Some k ->
  (has_key k (rows st) = true ->
     fst (StoreAccessor.add this value key db) = Rejected RNull /\
     objectStores (snd (StoreAccessor.add this value key db)) = objectStores db) /\
  (has_key k (rows st) = false ->
     fst (StoreAccessor.add this value key db) = fst (StoreAccessor.put this value key db) /\
     objectStores (snd (StoreAccessor.add this value key db))
     = objectStores (snd (StoreAccessor.put this value key db))).
Proof.
  intros Hst Hk. rewrite (add_run this value key db st k Hst Hk).
  rewrite (put_run this value key db st k Hst Hk).
  split; intros ->; cbn [orb]; [split; reflexivity|].
  destruct (violates_unique st k value); split; reflexivity.
Qed.

(** X12.  [count(query)] of the accessor resolves with the number of records
    [getAll({ query })] resolves with, with or without defaults, and is
    rejected when [getAll] is, for the same reason. *)
Theorem accessor_count_is_length_of_getAll (this : StoreAccessor.t)
    (q : option idbquery) (db : Engine) (st : objectStore) :
  objectStores db !! StoreAccessor.storeName this = Some st ->
  fst (StoreAccessor.count this q db)
  = promise_map (fun rs => Z.of_nat (length rs))
      (fst (StoreAccessor.getAll this (Some (GetAllOptions.Make q None)) db)).
Proof.
  intros Hst. rewrite (accessor_count_run this q db st Hst).
  rewrite (accessor_getAll_run this (Some (GetAllOptions.Make q None)) db st Hst eq_refl).
  cbn [fst mbind option_bind GetAllOptions.query].
  destruct (selected st None q); cbn [promise_map]; [|reflexivity].
  now rewrite length_map.
Qed.

(** X13.  [clear] empties its store and nothing else: afterwards [getAll] and
    [count] resolve with no record and 0, and the contents differ from the
    earlier ones in the rows of that store only, which keeps its key path
    and its indexes. *)
Theorem clear_empties_the_store (this : StoreAccessor.t) (db : Engine) (st : objectStore) :
  objectStores db !! StoreAccessor.storeName this = Some st ->
  fst (StoreAccessor.clear this db) = Fulfilled tt /\
  fst (StoreAccessor.getAll this None (snd (StoreAccessor.clear this db))) = Fulfilled [] /\
  fst (StoreAccessor.count this None (snd (StoreAccessor.clear this db))) = Fulfilled 0 /\
  objectStores (snd (StoreAccessor.clear this db))
  = <[StoreAccessor.storeName this :=
        ObjectStore (keyPath st) [] (indexes st) (uniqueIndexes st)]>
      (objectStores db).
Proof.
  intros Hst. rewrite (clear_run this db st Hst). cbn [fst snd].
  split; [reflexivity|]. split; [|split].
  - now rewrite (accessor_getAll_run this None _ _ (committed_lookup _ _ _ _) eq_refl).
  - now rewrite (accessor_count_run this _ _ _ (committed_lookup _ _ _ _)).
  - reflexivity.
Qed.

(** X14.  The accessor and the query builder read the same records:
    [getAll()] is [query().findAll()], [getAll({ query: range })] is the key
    query with that range, and [getAllBy(index, range)] is the index query
    with that range, for an index whose name is not the empty string. *)
Theorem accessor_and_builder_agree (this : StoreAccessor.t) (db : Engine)
    (st : objectStore) :
  objectStores db !! StoreAccessor.storeName this = Some st ->
  fst (StoreAccessor.getAll this None db)
  = fst (QueryBuilderImpl.findAll (StoreAccessor.query_builder this) db) /\
  (forall r,
      fst (StoreAccessor.getAll this (Some (GetAllOptions.Make (Some (QRange r)) None)) db)
      = fst (FinalQueryBuilderImpl.findAll
               (IndexQueryBuilderImpl.createFinal
                  (QueryBuilderImpl.key (StoreAccessor.query_builder this)) (Some r)) db)) /\
  (forall i r, i <> EmptyString ->
      fst (StoreAccessor.getAllBy this i (QRange <$> r) db)
      = fst (FinalQueryBuilderImpl.findAll
               (IndexQueryBuilderImpl.createFinal
                  (QueryBuilderImpl.index (StoreAccessor.query_builder this) i) r) db)).
Proof.
  intros Hst.
  assert (Hgen : forall i u r,
    fst (FinalQueryBuilderImpl.findAll
           (FinalQueryBuilderImpl.Make (StoreAccessor.storeName this)
              (MkQueryState i u r asc None 0) (StoreAccessor.defaults this)) db)
    = match selected st (truthy i) (QRange <$> r) with
      | Ok ms => Fulfilled (map (overlay (StoreAccessor.defaults this)) ms)
      | Throw e => Rejected e
      end).
  { intros i u r. unfold FinalQueryBuilderImpl.findAll.
    destruct (selected st (truthy i) (QRange <$> r)) as [ms|e] eqn:Hsel.
    - destruct (executeQuery_formula _ (MkQueryState i u r asc None 0)
                  (StoreAccessor.defaults this) db st ms Hst Hsel) as (cs & ->).
      cbn [fst up_to limitCount offsetCount order directed]. rewrite drop_0.
      f_equal. apply map_ext. intros v. apply with_defaults_overlay.
    - apply (executeQuery_throw _ (MkQueryState i u r asc None 0) _ db st Hst e Hsel). }
  split; [|split].
  - rewrite (accessor_getAll_run this None db st Hst eq_refl). cbn [fst mbind option_bind].
    unfold QueryBuilderImpl.findAll, IndexQueryBuilderImpl.findAll,
      IndexQueryBuilderImpl.createFinal, StoreAccessor.query_builder.
    cbn [IndexQueryBuilderImpl.storeName IndexQueryBuilderImpl.indexName
         IndexQueryBuilderImpl.useKey IndexQueryBuilderImpl.defaults
         QueryBuilderImpl.storeName QueryBuilderImpl.defaults].
    now rewrite Hgen.
  - intros r. rewrite (accessor_getAll_run this (Some (GetAllOptions.Make (Some (QRange r)) None))
                        db st Hst eq_refl).
    cbn [fst mbind option_bind GetAllOptions.query].
    unfold IndexQueryBuilderImpl.createFinal, QueryBuilderImpl.key,
      StoreAccessor.query_builder.
    cbn [IndexQueryBuilderImpl.storeName IndexQueryBuilderImpl.indexName
         IndexQueryBuilderImpl.useKey IndexQueryBuilderImpl.defaults
         QueryBuilderImpl.storeName QueryBuilderImpl.defaults].
    now rewrite Hgen.
  - intros i r Hi. rewrite (accessor_getAllBy_fst this i _ db st Hst).
    unfold IndexQueryBuilderImpl.createFinal, QueryBuilderImpl.index,
      StoreAccessor.query_builder.
    cbn [IndexQueryBuilderImpl.storeName IndexQueryBuilderImpl.indexName
         IndexQueryBuilderImpl.useKey IndexQueryBuilderImpl.defaults
         QueryBuilderImpl.storeName QueryBuilderImpl.defaults].
    rewrite Hgen. unfold truthy.
    destruct (String.eqb_spec i EmptyString) as [->|_]; [congruence | reflexivity].
Qed.

(** ** Writes stay in the stores they name *)

Lemma only_rows_of_refl names s : only_rows_of names s s.
Proof. intros n. split; [reflexivity|]. destruct (s !! n); auto. Qed.

Lemma only_rows_of_trans names s1 s2 s3 :
  only_rows_of names s1 s2 -> only_rows_of names s2 s3 -> only_rows_of names s1 s3.
Proof.
  intros H12 H23 n. destruct (H12 n) as [Ha Hb], (H23 n) as [Hc Hd]. split.
  - intros Hn. rewrite (Hc Hn). now apply Ha.
  - destruct (s1 !! n), (s2 !! n), (s3 !! n); try tauto.
    destruct Hb as (? & ? & ?), Hd as (? & ? & ?). repeat split; congruence.
Qed.

Lemma only_rows_of_mono names names' s1 s2 :
  (forall n, n ∈ names -> n ∈ names') ->
  only_rows_of names s1 s2 -> only_rows_of names' s1 s2.
Proof.
  intros Hsub H n. destruct (H n) as [Ha Hb]. split; [|exact Hb].
  intros Hn. apply Ha. intros Hin. apply Hn, Hsub, Hin.
Qed.

Lemma only_rows_of_insert names s name st st' :
  name ∈ names -> s !! name = Some st ->
  keyPath st' = keyPath st -> indexes st' = indexes st ->
  uniqueIndexes st' = uniqueIndexes st ->
  only_rows_of names s (<[name := st']> s).
Proof.
  intros Hin Hst Hk Hi Hu n. split.
  - intros Hn. apply lookup_insert_ne. intros ->. contradiction.
  - destruct (decide (name = n)) as [<- | Hne].
    + rewrite lookup_insert_eq, Hst. now repeat split.
    + rewrite lookup_insert_ne by exact Hne. destruct (s !! n); auto.
Qed.

Section LocalWrite.
Variable names : list string.

Lemma local_quiet {A} (m : M A) :
  (forall db, objectStores (snd (m db)) = objectStores db /\
              active (snd (m db)) = active db) ->
  local_write names m.
Proof.
  intros H db tx Ha. destruct (H db) as [Ho Hact]. split; [exact Ho|].
  exists tx. split; [congruence|]. split; [apply only_rows_of_refl|]. now split.
Qed.

Lemma local_bind {A B} (m : M A) (k : A -> M B) :
  local_write names m -> (forall a, local_write names (k a)) ->
  local_write names (bind m k).
Proof.
  intros Hm Hk db tx Ha. unfold bind.
  destruct (Hm db tx Ha) as (Ho & tx1 & Ha1 & Hr1 & Hs1 & Hm1).
  destruct (m db) as [[a|r] db1]; cbn [fst snd] in *.
  - destruct (Hk a db1 tx1 Ha1) as (Ho2 & tx2 & Ha2 & Hr2 & Hs2 & Hm2).
    split; [congruence|]. exists tx2. split; [exact Ha2|].
    split; [eapply only_rows_of_trans; eassumption|]. split; congruence.
  - split; [exact Ho|]. exists tx1. split; [exact Ha1|]. split; [exact Hr1|]. now split.
Qed.

Lemma local_ret {A} (a : A) : local_write names (ret a).
Proof. apply local_quiet. intros db. split; reflexivity. Qed.

Lemma local_throw {A} (r : reason) : local_write names (@throw A r).
Proof. apply local_quiet. intros db. split; reflexivity. Qed.

Lemma local_log (c : call) : local_write names (log c).
Proof. apply local_quiet. intros db. split; reflexivity. Qed.

Lemma local_current_tx : local_write names current_tx.
Proof.
  apply local_quiet. intros db. unfold current_tx.
  destruct (active db) eqn:E; cbn [snd]; split; congruence.
Qed.

Lemma local_the_store (n : string) : local_write names (the_store n).
Proof.
  unfold the_store. apply local_bind; [apply local_current_tx|]. intros tx.
  destruct (tx_stores tx !! n); [apply local_ret | apply local_throw].
Qed.

Lemma local_tx_objectStore (n : string) : local_write names (tx_objectStore n).
Proof.
  unfold tx_objectStore. apply local_bind; [apply local_current_tx|]. intros tx.
  destruct (bool_decide _); [apply local_ret | apply local_throw].
Qed.

Lemma local_writable : local_write names writable.
Proof.
  unfold writable. apply local_bind; [apply local_current_tx|]. intros tx.
  destruct (tx_mode tx); [apply local_throw | apply local_ret].
Qed.

Lemma local_tx_update (store : string) (f : objectStore -> DOMException + objectStore) :
  store ∈ names ->
  (forall st st', f st = inr st' ->
     keyPath st' = keyPath st /\ indexes st' = indexes st /\
     uniqueIndexes st' = uniqueIndexes st) ->
  local_write names (tx_update store f).
Proof.
  intros Hin Hf db tx Ha.
  assert (Hrun : tx_update store f db
    = match tx_stores tx !! store with
      | None => (Throw (RDom NotFoundError), db)
      | Some st =>
          match tx_failed tx with
          | Some _ => (Ok tt, db)
          | None =>
              match f st with
              | inr st' =>
                  (Ok tt, MkEngine (objectStores db)
                            (Some (Transaction (tx_scope tx) (tx_mode tx)
                                     (<[store := st']> (tx_stores tx)) None)) (calls db))
              | inl e =>
                  (Ok tt, MkEngine (objectStores db)
                            (Some (Transaction (tx_scope tx) (tx_mode tx)
                                     (tx_stores tx) (Some e))) (calls db))
              end
          end
      end).
  { unfold tx_update, the_store, bind, current_tx. cbv beta. rewrite !Ha. cbv beta iota.
    destruct (tx_stores tx !! store) as [st|]; [|reflexivity]. cbn.
    destruct (tx_failed tx); [reflexivity|]. destruct (f st); reflexivity. }
  rewrite Hrun. clear Hrun.
  destruct (tx_stores tx !! store) as [st|] eqn:Hst.
  - destruct (tx_failed tx).
    + split; [reflexivity|]. exists tx. split; [exact Ha|].
      split; [apply only_rows_of_refl|]. now split.
    + destruct (f st) as [e|st'] eqn:Hfs.
      * split; [reflexivity|]. eexists. split; [reflexivity|].
        split; [apply only_rows_of_refl|]. now split.
      * split; [reflexivity|]. eexists. split; [reflexivity|]. cbn [tx_stores].
        split; [|now split].
        destruct (Hf st st' Hfs) as (? & ? & ?). eapply only_rows_of_insert; eauto.
  - split; [reflexivity|]. exists tx. split; [exact Ha|].
    split; [apply only_rows_of_refl|]. now split.
Qed.

Lemma local_req_put store value key :
  store ∈ names -> local_write names (req_put store value key).
Proof.
  intros Hin. unfold req_put.
  apply local_bind; [apply local_log|]. intros _.
  apply local_bind; [apply local_writable|]. intros _.
  apply local_bind; [apply local_the_store|]. intros st.
  destruct (resolve_key st value key); [|apply local_throw].
  apply local_tx_update; [exact Hin|]. intros s s'.
  destruct (violates_unique _ _ _); [discriminate|]. intros [= <-]. now repeat split.
Qed.

Lemma local_req_add store value key :
  store ∈ names -> local_write names (req_add store value key).
Proof.
  intros Hin. unfold req_add.
  apply local_bind; [apply local_log|]. intros _.
  apply local_bind; [apply local_writable|]. intros _.
  apply local_bind; [apply local_the_store|]. intros st.
  destruct (resolve_key st value key); [|apply local_throw].
  apply local_tx_update; [exact Hin|]. intros s s'.
  destruct (has_key _ _); [discriminate|].
  destruct (violates_unique _ _ _); [discriminate|]. intros [= <-]. now repeat split.
Qed.

Lemma local_req_delete store q :
  store ∈ names -> local_write names (req_delete store q).
Proof.
  intros Hin. unfold req_delete.
  apply local_bind; [apply local_log|]. intros _.
  apply local_bind; [apply local_writable|]. intros _.
  destruct (negb _); [apply local_throw|].
  apply local_tx_update; [exact Hin|]. intros s s' [= <-]. now repeat split.
Qed.

Lemma local_req_clear store :
  store ∈ names -> local_write names (req_clear store).
Proof.
  intros Hin. unfold req_clear.
  apply local_bind; [apply local_log|]. intros _.
  apply local_bind; [apply local_writable|]. intros _.
  apply local_tx_update; [exact Hin|]. intros s s' [= <-]. now repeat split.
Qed.

Lemma local_bind_post {A B} (P : A -> Prop) (m : M A) (k : A -> M B) :
  local_write names m ->
  (forall db a, fst (m db) = Ok a -> P a) ->
  (forall a, P a -> local_write names (k a)) ->
  local_write names (bind m k).
Proof.
  intros Hm HP Hk db tx Ha. unfold bind.
  destruct (Hm db tx Ha) as (Ho & tx1 & Ha1 & Hr1 & Hs1 & Hm1). pose proof (HP db) as HPdb.
  destruct (m db) as [[a|r] db1]; cbn [fst snd] in *.
  - destruct (Hk a (HPdb a eq_refl) db1 tx1 Ha1) as (Ho2 & tx2 & Ha2 & Hr2 & Hs2 & Hm2).
    split; [congruence|]. exists tx2. split; [exact Ha2|].
    split; [eapply only_rows_of_trans; eassumption|]. split; congruence.
  - split; [exact Ho|]. exists tx1. split; [exact Ha1|]. split; [exact Hr1|]. now split.
Qed.

Lemma local_on_store {A} (n : string) (k : string -> M A) :
  local_write names (k n) ->
  local_write names (let! store := tx_objectStore n in k store).
Proof.
  intros Hk. apply (local_bind_post (fun a => a = n)).
  - apply local_tx_objectStore.
  - intros db a. apply tx_objectStore_returns.
  - now intros a ->.
Qed.

Lemma local_issue op :
  WriteChain.storeName op ∈ names -> local_write names (WriteChain.issue op).
Proof.
  intros Hin. unfold WriteChain.issue. apply local_on_store.
  destruct op as [s v k | s v k | s q | s]; cbn [WriteChain.storeName] in *.
  - now apply local_req_put.
  - now apply local_req_add.
  - now apply local_req_delete.
  - now apply local_req_clear.
Qed.

Lemma local_issue_all ops :
  (forall op, In op ops -> WriteChain.storeName op ∈ names) ->
  local_write names (WriteChain.issue_all ops).
Proof.
  induction ops as [|op ops IH]; intros Hin; cbn [WriteChain.issue_all].
  - apply local_ret.
  - apply local_bind; [apply local_issue, Hin; now left|].
    intros _. apply IH. intros o Ho. apply Hin. now right.
Qed.

(** A transaction of local writes, from an idle engine. *)
Lemma local_transaction {A} scope mode (body : M A) db :
  local_write names body -> active db = None ->
  only_rows_of names (objectStores db)
    (objectStores (snd (tx_finish (snd ((do! db_transaction scope mode in body) db))))).
Proof.
  intros Hbody Hidle. unfold bind.
  destruct (db_transaction_cases scope mode db) as [-> | (r & ->)].
  - destruct (Hbody (opened scope mode db) _ eq_refl) as (Ho & tx' & Ha & Hr & _ & _).
    destruct (body (opened scope mode db)) as [[a|r] db2]; cbn [fst snd] in *;
      unfold tx_finish; rewrite Ha; destruct (tx_failed tx'); cbn [snd objectStores];
      try exact Hr; rewrite Ho; apply only_rows_of_refl.
  - unfold tx_finish. cbn. rewrite Hidle. apply only_rows_of_refl.
Qed.
End LocalWrite.

(** X15.  Writes stay in the stores they name.  From an idle connection,
    [execute] of a write chain changes the rows of the stores of its queued
    operations only, and [put], [add], [delete] and [clear] of an accessor
    the rows of its store only, whether they are fulfilled or rejected; no
    store is created or dropped, and no key path or index changes. *)
Theorem writes_stay_in_their_stores (db : Engine) :
  active db = None ->
  (forall chain,
      only_rows_of (map WriteChain.storeName (WriteChain.operations chain))
        (objectStores db) (objectStores (snd (WriteChain.execute chain db)))) /\
  (forall this value key,
      only_rows_of [StoreAccessor.storeName this]
        (objectStores db) (objectStores (snd (StoreAccessor.put this value key db)))) /\
  (forall this value key,
      only_rows_of [StoreAccessor.storeName this]
        (objectStores db) (objectStores (snd (StoreAccessor.add this value key db)))) /\
  (forall this q,
      only_rows_of [StoreAccessor.storeName this]
        (objectStores db) (objectStores (snd (StoreAccessor.delete this q db)))) /\
  (forall this,
      only_rows_of [StoreAccessor.storeName this]
        (objectStores db) (objectStores (snd (StoreAccessor.clear this db)))).
Proof.
  intros Hidle. split; [|split; [|split; [|split]]].
  - intros chain. unfold WriteChain.execute.
    destruct (length _ =? 0)%nat; [apply only_rows_of_refl|].
    destruct (out_of_scope _ _); [apply only_rows_of_refl|].
    pose proof (local_transaction (map WriteChain.storeName (WriteChain.operations chain))
                  (WriteChain.storeNames chain) readwrite
                  (WriteChain.issue_all (WriteChain.operations chain)) db) as H.
    destruct ((do! db_transaction _ _ in _) db) as [[u|r] db1]; cbn [snd] in *.
    + destruct (tx_finish db1) as [events db2]. cbn [snd] in *.
      apply H; [|exact Hidle]. apply local_issue_all.
      intros op Hop. apply list_elem_of_In. now apply in_map.
    + apply H; [|exact Hidle]. apply local_issue_all.
      intros op Hop. apply list_elem_of_In. now apply in_map.
  - intros this value key. unfold StoreAccessor.put. rewrite snd_issue_then_await.
    apply local_transaction; [|exact Hidle]. apply local_on_store.
    unfold put_request.
    apply local_bind; [apply local_req_put, list_elem_of_here|]. intros _.
    apply local_bind; [apply local_the_store|]. intros st.
    destruct (resolve_key _ _ _); [apply local_ret | apply local_throw].
  - intros this value key. unfold StoreAccessor.add. rewrite snd_issue_then_await.
    apply local_transaction; [|exact Hidle]. apply local_on_store.
    unfold add_request.
    apply local_bind; [apply local_req_add, list_elem_of_here|]. intros _.
    apply local_bind; [apply local_the_store|]. intros st.
    destruct (resolve_key _ _ _); [apply local_ret | apply local_throw].
  - intros this q. unfold StoreAccessor.delete. rewrite snd_issue_then_await.
    apply local_transaction; [|exact Hidle]. apply local_on_store.
    apply local_req_delete, list_elem_of_here.
  - intros this. unfold StoreAccessor.clear. rewrite snd_issue_then_await.
    apply local_transaction; [|exact Hidle]. apply local_on_store.
    apply local_req_clear, list_elem_of_here.
Qed.

(** ** The further properties on the example data *)

Lemma findAll_is_slice_witness :
  fst (FinalQueryBuilderImpl.findAll Sample.second_and_third Sample.db)
  = Fulfilled (map snd [Sample.product "p2" "fruit" 50; Sample.product "p5" "dairy" 80]) /\
  objectStores (snd (FinalQueryBuilderImpl.findAll Sample.second_and_third Sample.db))
  = objectStores Sample.db.
Proof.
  apply (findAll_is_slice Sample.second_and_third Sample.db Sample.products Sample.by_price).
  - vm_compute. reflexivity.
  - vm_compute. reflexivity.
Defined.

Lemma pages_concatenate_witness :
  promise_app
    (fst (FinalQueryBuilderImpl.findAll (page Sample.all_by_price 1 2) Sample.db))
    (fst (FinalQueryBuilderImpl.findAll (page Sample.all_by_price (1 + 2) 1) Sample.db))
  = fst (FinalQueryBuilderImpl.findAll (page Sample.all_by_price 1 (2 + 1)) Sample.db).
Proof.
  apply (pages_concatenate Sample.all_by_price Sample.db Sample.products 1 2 1).
  - vm_compute. reflexivity.
  - lia.
  - lia.
  - lia.
Defined.

Lemma results_carry_defaults_witness :
  exists r, r ∈ Sample.by_price /\
    forall k,
      overlay Stock.defaults (snd (Sample.product "p3" "vegetable" 30)) !! k
      = match r !! k with
        | Some x => Some x
        | None => Stock.defaults !! k
        end.
Proof.
  apply (results_carry_defaults Stock.by_price Sample.db Sample.products Sample.by_price
           (map (overlay Stock.defaults) Sample.by_price)).
  - vm_compute. reflexivity.
  - vm_compute. reflexivity.
  - vm_compute. reflexivity.
  - unfold Sample.by_price. cbn [map]. apply list_elem_of_here.
Defined.

Lemma count_is_length_of_findAll_witness :
  fst (FinalQueryBuilderImpl.count Sample.all_by_price Sample.db)
  = promise_map (fun rs => Z.of_nat (length rs))
      (fst (FinalQueryBuilderImpl.findAll Sample.all_by_price Sample.db)).
Proof.
  apply (count_is_length_of_findAll Sample.all_by_price Sample.db Sample.products).
  - vm_compute. reflexivity.
  - reflexivity.
  - reflexivity.
Defined.

Lemma reads_keep_the_contents_witness :
  objectStores (snd (FinalQueryBuilderImpl.findAll Sample.fruit Sample.db))
  = objectStores Sample.db /\
  active (snd (FinalQueryBuilderImpl.findAll Sample.fruit Sample.db)) = None.
Proof.
  apply (proj1 (reads_keep_the_contents Sample.db eq_refl) Sample.fruit).
Defined.

Lemma read_results_by_position_witness :
  length [RRecord (snd (Sample.product "p2" "fruit" 50)); RCount 5] = 2%nat /\
  forall i op, ReadChain.operations Stock.reads !! i = Some op ->
    exists r,
      [RRecord (snd (Sample.product "p2" "fruit" 50)); RCount 5] !! i = Some r /\
      fst (ReadChain.execute (ReadChain.Make ["products"] [op]) Sample.db) = Fulfilled [r].
Proof.
  apply (read_results_by_position ["products"] (ReadChain.operations Stock.reads) Sample.db).
  vm_compute. reflexivity.
Defined.

Lemma first_offender_is_named_witness :
  WriteChain.execute
    (WriteChain.Make ["users"]
       [WriteChain.op_put "users" Sample.u1 None;
        WriteChain.op_clear "orders"; WriteChain.op_clear "products"]) Sample.db
  = (Rejected (RError (scope_error "orders" ["users"])), Sample.db).
Proof.
  apply (proj1 (first_offender_is_named ["users"] Sample.db)
           [WriteChain.op_put "users" Sample.u1 None] (WriteChain.op_clear "orders")
           [WriteChain.op_clear "products"]).
  - intros o [<- | []]. cbn. apply list_elem_of_here.
  - cbn. intros H. apply list_elem_of_In in H. cbn in H. destruct H as [H | []].
    discriminate.
Defined.

Lemma put_then_get_witness :
  (fst (StoreAccessor.put Stock.users Sample.u1 None Sample.db) = Fulfilled (JStr "u1") /\
   fst (StoreAccessor.get Stock.users (JStr "u1")
          (snd (StoreAccessor.put Stock.users Sample.u1 None Sample.db)))
   = Fulfilled (Some (overlay Stock.defaults Sample.u1)) /\
   exists st',
     objectStores (snd (StoreAccessor.put Stock.users Sample.u1 None Sample.db)) !! "users"
     = Some st' /\
     stored st' (JStr "u1") = Some Sample.u1) /\
  (let taken := Stock.account "a2" "kim@example.com" in
   fst (StoreAccessor.put Stock.accounts taken None Stock.accounts_db) = Rejected RNull /\
   objectStores (snd (StoreAccessor.put Stock.accounts taken None Stock.accounts_db))
   = objectStores Stock.accounts_db) /\
  (let free := Stock.account "a2" "lee@example.com" in
   fst (StoreAccessor.put Stock.accounts free None Stock.accounts_db)
   = Fulfilled (JStr "a2")).
Proof.
  split; [|split].
  - apply (put_then_get Stock.users Sample.u1 None Sample.db Sample.users (JStr "u1"));
      vm_compute; reflexivity.
  - apply (put_then_get Stock.accounts (Stock.account "a2" "kim@example.com") None
             Stock.accounts_db Stock.accounts_store (JStr "a2"));
      vm_compute; reflexivity.
  - apply (put_then_get Stock.accounts (Stock.account "a2" "lee@example.com") None
             Stock.accounts_db Stock.accounts_store (JStr "a2"));
      vm_compute; reflexivity.
Defined.

Lemma deleted_is_gone_witness :
  let db' := snd (StoreAccessor.delete Stock.products (QKey (JStr "p1")) Sample.db) in
  fst (StoreAccessor.delete Stock.products (QKey (JStr "p1")) Sample.db) = Fulfilled tt /\
  fst (StoreAccessor.getAll Stock.products
         (Some (GetAllOptions.Make (Some (QKey (JStr "p1"))) None)) db') = Fulfilled [] /\
  fst (StoreAccessor.count Stock.products (Some (QKey (JStr "p1"))) db') = Fulfilled 0 /\
  forall k, QKey (JStr "p1") = QKey k -> valid_key k = true ->
    fst (StoreAccessor.get Stock.products k db') = Fulfilled None.
Proof.
  apply (deleted_is_gone Stock.products (QKey (JStr "p1")) Sample.db Sample.products).
  - vm_compute. reflexivity.
  - vm_compute. reflexivity.
Defined.

Lemma add_is_put_of_a_new_key_witness :
  fst (StoreAccessor.add Stock.products (snd (Sample.product "p1" "fruit" 100)) None
         Sample.db) = Rejected RNull /\
  objectStores (snd (StoreAccessor.add Stock.products
                       (snd (Sample.product "p1" "fruit" 100)) None Sample.db))
  = objectStores Sample.db.
Proof.
  apply (proj1 (add_is_put_of_a_new_key Stock.products
                  (snd (Sample.product "p1" "fruit" 100)) None Sample.db Sample.products
                  (JStr "p1") eq_refl eq_refl)).
  vm_compute. reflexivity.
Defined.

Lemma accessor_count_is_length_of_getAll_witness :
  fst (StoreAccessor.count Stock.products None Sample.db)
  = promise_map (fun rs => Z.of_nat (length rs))
      (fst (StoreAccessor.getAll Stock.products (Some (GetAllOptions.Make None None))
              Sample.db)).
Proof.
  apply (accessor_count_is_length_of_getAll Stock.products None Sample.db Sample.products).
  vm_compute. reflexivity.
Defined.

Lemma clear_empties_the_store_witness :
  let db' := snd (StoreAccessor.clear Stock.products Sample.db) in
  fst (StoreAccessor.clear Stock.products Sample.db) = Fulfilled tt /\
  fst (StoreAccessor.getAll Stock.products None db') = Fulfilled [] /\
  fst (StoreAccessor.count Stock.products None db') = Fulfilled 0 /\
  objectStores db'
  = <["products" := ObjectStore (keyPath Sample.products) [] (indexes Sample.products)
                      (uniqueIndexes Sample.products)]>
      (objectStores Sample.db).
Proof.
  apply (clear_empties_the_store Stock.products Sample.db Sample.products).
  vm_compute. reflexivity.
Defined.

Lemma accessor_and_builder_agree_witness :
  fst (StoreAccessor.getAllBy Stock.products "price" None Sample.db)
  = fst (FinalQueryBuilderImpl.findAll Stock.by_price Sample.db).
Proof.
  apply (proj2 (proj2 (accessor_and_builder_agree Stock.products Sample.db Sample.products
                         eq_refl)) "price" None).
  discriminate.
Defined.

Lemma writes_stay_in_their_stores_witness :
  only_rows_of ["users"] (objectStores Sample.db)
    (objectStores (snd (WriteChain.execute Sample.put_u1 Sample.db))).
Proof.
  apply (proj1 (writes_stay_in_their_stores Sample.db eq_refl) Sample.put_u1).
Defined.

(** * Properties of the store definitions *)

(** ** Sorting *)

Lemma insert_sorted_Permutation {A} (compare : A -> A -> Z) (x : A) (l : list A) :
  insert_sorted compare x l ≡ₚ x :: l.
Proof.
  induction l as [|y l IH]; cbn; [reflexivity|].
  destruct (0 <? compare x y); [|reflexivity].
  rewrite IH. apply Permutation_swap.
Qed.

Lemma Array_sort_Permutation {A} (compare : A -> A -> Z) (l : list A) :
  Array_sort compare l ≡ₚ l.
Proof.
  induction l as [|x l IH]; cbn; [reflexivity|].
  rewrite insert_sorted_Permutation. now rewrite IH.
Qed.

Lemma insert_sorted_Sorted {A} (compare : A -> A -> Z) (x : A) (l : list A) :
  (forall a b, 0 < compare a b -> compare b a <= 0) ->
  Sorted (fun a b => compare a b <= 0) l ->
  Sorted (fun a b => compare a b <= 0) (insert_sorted compare x l).
Proof.
  intros Htotal. induction l as [|y l IH]; intros Hl; cbn.
  - repeat constructor.
  - destruct (0 <? compare x y) eqn:Hxy.
    + apply Z.ltb_lt in Hxy. apply Sorted_inv in Hl as [Hl Hhd].
      constructor; [now apply IH|].
      destruct l as [|z l]; cbn.
      * constructor. now apply Htotal.
      * destruct (0 <? compare x z); constructor.
        -- now inversion Hhd.
        -- now apply Htotal.
    + apply Z.ltb_ge in Hxy. constructor; [exact Hl|]. now constructor.
Qed.

Lemma Array_sort_Sorted {A} (compare : A -> A -> Z) (l : list A) :
  (forall a b, 0 < compare a b -> compare b a <= 0) ->
  Sorted (fun a b => compare a b <= 0) (Array_sort compare l).
Proof.
  intros Htotal. induction l as [|x l IH]; cbn; [constructor|].
  now apply insert_sorted_Sorted.
Qed.

(** Two arrangements of the same elements that are both in order are the
    same, when elements that compare as equal are equal. *)
Lemma sorted_arrangement_unique {A} (le : A -> A -> Prop) (l1 : list A) :
  forall l2,
  (forall a b, a ∈ l1 -> b ∈ l1 -> le a b -> le b a -> a = b) ->
  StronglySorted le l1 -> StronglySorted le l2 -> l1 ≡ₚ l2 -> l1 = l2.
Proof.
  induction l1 as [|a l1 IH]; intros l2 Hanti H1 H2 Hp.
  - apply Permutation_nil in Hp. now subst.
  - destruct l2 as [|b l2].
    { symmetry in Hp. now apply Permutation_nil_cons in Hp. }
    apply StronglySorted_inv in H1 as [H1 Ha].
    apply StronglySorted_inv in H2 as [H2 Hb].
    assert (Hab : a = b).
    { assert (Hin2 : a ∈ b :: l2) by (rewrite <- Hp; apply list_elem_of_here).
      assert (Hin1 : b ∈ a :: l1) by (rewrite Hp; apply list_elem_of_here).
      apply elem_of_cons in Hin2 as [-> | Hin2]; [reflexivity|].
      apply elem_of_cons in Hin1 as [-> | Hin1]; [reflexivity|].
      apply Hanti.
      - apply list_elem_of_here.
      - now apply list_elem_of_further.
      - rewrite Forall_forall in Ha. now apply Ha.
      - rewrite Forall_forall in Hb. now apply Hb. }
    subst b. f_equal. apply IH; try assumption.
    + intros x y Hx Hy. apply Hanti; now apply list_elem_of_further.
    + now apply Permutation_cons_inv in Hp.
Qed.

(** ** Validation of migrations *)

Lemma validate_migrations_None (store : string) (ms : list Migration) :
  forall seen,
  validate_migrations store seen ms = None <->
  Forall (fun m => mig_name m <> EmptyString) ms /\
  NoDup (map mig_name ms) /\
  (forall m, m ∈ ms -> mig_name m ∉ seen).
Proof.
  induction ms as [|m ms IH]; intros seen; cbn [validate_migrations map].
  - split; [intros _|reflexivity]. split; [constructor|]. split; [constructor|].
    intros m Hm. now apply elem_of_nil in Hm.
  - destruct (String.eqb_spec (mig_name m) EmptyString) as [He|He].
    { split; [discriminate|]. intros (Hf & _). inversion Hf; contradiction. }
    destruct (bool_decide_reflect (mig_name m ∈ seen)) as [Hin|Hin].
    { split; [discriminate|]. intros (_ & _ & Hs). exfalso.
      apply (Hs m); [apply list_elem_of_here | exact Hin]. }
    rewrite IH. split.
    + intros (Hf & Hnd & Hs). split; [now constructor|]. split.
      * constructor; [|exact Hnd]. intros Hm.
        apply list_elem_of_fmap in Hm as (m' & Hn & Hm').
        apply (Hs m' Hm'). rewrite <- Hn. apply elem_of_app. right. apply list_elem_of_here.
      * intros m' Hm'. apply elem_of_cons in Hm' as [-> | Hm']; [exact Hin|].
        intros Hc. apply (Hs m' Hm'). apply elem_of_app. now left.
    + intros (Hf & Hnd & Hs). inversion Hf as [|? ? Hm Hf']; subst.
      apply NoDup_cons in Hnd as [Hnotin Hnd].
      split; [exact Hf'|]. split; [exact Hnd|].
      intros m' Hm' Hc. apply elem_of_app in Hc as [Hc | Hc].
      * apply (Hs m'); [now apply list_elem_of_further | exact Hc].
      * apply list_elem_of_singleton in Hc. apply Hnotin. rewrite <- Hc.
        apply list_elem_of_fmap. now exists m'.
Qed.

Lemma validate_migrations_ok (store : string) (ms : list Migration) :
  validate_migrations store [] ms = None <->
  Forall (fun m => mig_name m <> EmptyString) ms /\ NoDup (map mig_name ms).
Proof.
  rewrite validate_migrations_None. split.
  - intros (H1 & H2 & _). now split.
  - intros (H1 & H2). split; [exact H1|]. split; [exact H2|].
    intros m _ Hc. now apply elem_of_nil in Hc.
Qed.

(** ** Index configurations *)

Lemma parseIndexConfig_entries (entries : list (string * IndexOption)) :
  parseIndexConfig (Some entries) = omap index_of_entry entries.
Proof.
  unfold parseIndexConfig.
  assert (H : forall acc,
    fold_left
      (fun result entry =>
         let '(name, option) := entry in
         match option with
         | opt_boolean false => result
         | opt_boolean true => (result ++ [IndexDefinition.Make name name None None])%list
         | opt_options o =>
             (result ++ [IndexDefinition.Make name name
                           (IndexOptions.unique o) (IndexOptions.multiEntry o)])%list
         end) entries acc
    = (acc ++ omap index_of_entry entries)%list).
  { induction entries as [|[n [[|]|o]] entries IH]; intros acc; cbn.
    - now rewrite app_nil_r.
    - rewrite IH, <- app_assoc. reflexivity.
    - apply IH.
    - rewrite IH, <- app_assoc. reflexivity. }
  apply (H []).
Qed.

(** X16.  [createStore] of defineStore.ts returns a definition exactly when
    the store name is not empty, no migration has an empty name and no two
    migrations have the same name.  The definition then has the given name
    and key path, [autoIncrement] false unless given, one index per entry
    of the index configuration that is not [false], in the order of the
    entries and with the entry's name as key path, and the given
    migrations, rearranged. *)
Theorem createStore_accepts (localeCompare : string -> string -> Z) (name : string)
    (options : StoreOptions.t) :
  let migrations := default [] (StoreOptions.migrations options) in
  ((exists def, createStore localeCompare name options = Ok def) <->
   name <> EmptyString /\
   Forall (fun m => mig_name m <> EmptyString) migrations /\
   NoDup (map mig_name migrations)) /\
  forall def, createStore localeCompare name options = Ok def ->
    StoreDefinition.name def = name /\
    StoreDefinition.keyPath def = StoreOptions.keyPath options /\
    StoreDefinition.autoIncrement def = default false (StoreOptions.autoIncrement options) /\
    StoreDefinition.indexes def
    = omap index_of_entry (default [] (StoreOptions.indexes options)) /\
    Forall (fun i => IndexDefinition.keyPath i = IndexDefinition.name i)
      (StoreDefinition.indexes def) /\
    StoreDefinition.migrations def ≡ₚ migrations.
Proof.
  intros migrations. unfold createStore. fold migrations.
  assert (Hidx : parseIndexConfig (StoreOptions.indexes options)
                 = omap index_of_entry (default [] (StoreOptions.indexes options))).
  { destruct (StoreOptions.indexes options) as [entries|]; [|reflexivity].
    apply parseIndexConfig_entries. }
  destruct (String.eqb_spec name EmptyString) as [He|He].
  { split; [|discriminate]. split; [intros (def & H); discriminate|]. now intros (H & _). }
  pose proof (validate_migrations_ok name migrations) as Hv.
  destruct (validate_migrations name [] migrations) as [message|].
  { split; [|discriminate]. split; [intros (def & H); discriminate|].
    intros (_ & H1 & H2). assert (Some message = None) by (apply Hv; now split).
    discriminate. }
  split.
  - split; [|eauto]. intros _. split; [exact He|]. now apply Hv.
  - intros def [= <-]. cbn. rewrite Hidx.
    split; [reflexivity|]. split; [reflexivity|]. split; [reflexivity|].
    split; [reflexivity|]. split; [|apply Array_sort_Permutation].
    apply Forall_forall. intros i Hi. apply list_elem_of_omap in Hi as (e & _ & He').
    unfold index_of_entry in He'. destruct (snd e) as [[|]|o]; try discriminate;
      injection He' as <-; reflexivity.
Qed.

(** ** The order of the migrations *)

Lemma defineStore_Ok localeCompare name schema ms def :
  defineStore localeCompare name schema ms = Ok def ->
  exists parsed,
    name <> EmptyString /\
    parseSchema schema = Ok parsed /\
    truthy (ps_keyPath parsed) = Some (SchemaStoreDefinition.keyPath def) /\
    validate_migrations name [] (default [] ms) = None /\
    def = SchemaStoreDefinition.Make name schema (SchemaStoreDefinition.keyPath def)
            (ps_indexes parsed) (Array_sort (by_name localeCompare) (default [] ms))
            (ps_defaults parsed).
Proof.
  unfold defineStore.
  destruct (String.eqb_spec name EmptyString) as [He|He]; [discriminate|].
  destruct (parseSchema schema) as [parsed|r]; [|discriminate].
  destruct (truthy (ps_keyPath parsed)) as [keyPath|] eqn:Hk; [|discriminate].
  destruct (validate_migrations name [] (default [] ms)) as [message|] eqn:Hv;
    [discriminate|].
  intros [= <-]. exists parsed. cbn. repeat split; auto.
Qed.

Lemma addMigration_Ok localeCompare d n up d' :
  addMigration localeCompare d n up = Ok d' ->
  n <> EmptyString /\
  (n ∉ map mig_name (SchemaStoreDefinition.migrations d)) /\
  d' = SchemaStoreDefinition.Make
         (SchemaStoreDefinition.name d) (SchemaStoreDefinition.schema d)
         (SchemaStoreDefinition.keyPath d) (SchemaStoreDefinition.indexes d)
         (Array_sort (by_name localeCompare)
            (SchemaStoreDefinition.migrations d ++ [MkMigration n up]))
         (SchemaStoreDefinition.defaults d).
Proof.
  unfold addMigration.
  destruct (String.eqb_spec n EmptyString) as [He|He]; [discriminate|].
  destruct (bool_decide_reflect
              (n ∈ new_Set (map mig_name (SchemaStoreDefinition.migrations d))))
    as [Hin|Hin]; [discriminate|].
  intros [= <-]. split; [exact He|]. split; [|reflexivity].
  intros Hc. apply Hin. apply list_elem_of_In, new_Set_In, list_elem_of_In, Hc.
Qed.

(** The inner loop of [collectMigrations]. *)
Lemma collect_migrations_spec (ms : list Migration) :
  forall seen all,
  match collect_migrations seen all ms with
  | Ok (seen', all') =>
      seen' = (seen ++ map mig_name ms)%list /\ all' = (all ++ ms)%list /\
      NoDup (map mig_name ms) /\ (forall m, m ∈ ms -> (mig_name m ∉ seen))
  | Throw _ =>
      (~ (NoDup (map mig_name ms) /\ (forall m, m ∈ ms -> mig_name m ∉ seen)))
  end.
Proof.
  induction ms as [|m ms IH]; intros seen all; cbn [collect_migrations map].
  - rewrite !app_nil_r. repeat split; [constructor|].
    intros m Hm. now apply elem_of_nil in Hm.
  - destruct (bool_decide_reflect (mig_name m ∈ seen)) as [Hin|Hin].
    { cbn. intros (_ & Hs). apply (Hs m); [apply list_elem_of_here | exact Hin]. }
    specialize (IH (seen ++ [mig_name m])%list (all ++ [m])%list).
    destruct (collect_migrations _ _ ms) as [[seen' all']|r].
    + destruct IH as (-> & -> & Hnd & Hs). rewrite <- !app_assoc. cbn.
      split; [reflexivity|]. split; [reflexivity|]. split.
      * constructor; [|exact Hnd]. intros Hm.
        apply list_elem_of_fmap in Hm as (m' & Hn & Hm').
        apply (Hs m' Hm'). rewrite <- Hn. apply elem_of_app. right. apply list_elem_of_here.
      * intros m' Hm'. apply elem_of_cons in Hm' as [-> | Hm']; [exact Hin|].
        intros Hc. apply (Hs m' Hm'). apply elem_of_app. now left.
    + intros (Hnd & Hs). apply IH. apply NoDup_cons in Hnd as [Hnotin Hnd].
      split; [exact Hnd|]. intros m' Hm' Hc. apply elem_of_app in Hc as [Hc | Hc].
      * apply (Hs m'); [now apply list_elem_of_further | exact Hc].
      * apply list_elem_of_singleton in Hc. apply Hnotin. rewrite <- Hc.
        apply list_elem_of_fmap. now exists m'.
Qed.

Lemma NoDup_app_names (seen : list string) (ms : list Migration) :
  NoDup seen ->
  (NoDup (map mig_name ms) /\ (forall m, m ∈ ms -> mig_name m ∉ seen)) <->
  NoDup (seen ++ map mig_name ms).
Proof.
  intros Hseen. rewrite NoDup_app. split.
  - intros (Hnd & Hs). split; [exact Hseen|]. split; [|exact Hnd].
    intros x Hx Hc. apply list_elem_of_fmap in Hc as (m & -> & Hm). now apply (Hs m).
  - intros (_ & Hd & Hnd). split; [exact Hnd|]. intros m Hm Hc.
    apply (Hd _ Hc). apply list_elem_of_fmap. now exists m.
Qed.

Lemma collect_stores_spec (stores : list StoreDefinition.t) :
  forall seen all,
  NoDup seen ->
  match collect_stores seen all stores with
  | Ok all' =>
      all' = (all ++ all_migrations stores)%list /\
      NoDup (seen ++ map mig_name (all_migrations stores))
  | Throw _ => (~ NoDup (seen ++ map mig_name (all_migrations stores)))
  end.
Proof.
  unfold all_migrations.
  induction stores as [|store stores IH]; intros seen all Hseen; cbn [collect_stores map concat].
  - cbn. rewrite !app_nil_r. now split.
  - pose proof (collect_migrations_spec (StoreDefinition.migrations store) seen all) as Hm.
    rewrite map_app, (app_assoc seen).
    destruct (collect_migrations seen all (StoreDefinition.migrations store))
      as [[seen' all']|r].
    + destruct Hm as (-> & -> & Hnd & Hs).
      assert (Hseen' : NoDup (seen ++ map mig_name (StoreDefinition.migrations store)))
        by (apply NoDup_app_names; [exact Hseen | now split]).
      specialize (IH _ (all ++ StoreDefinition.migrations store)%list Hseen').
      destruct (collect_stores _ _ stores) as [all'|r].
      * destruct IH as (-> & Hnd'). split; [now rewrite <- app_assoc | exact Hnd'].
      * exact IH.
    + intros Hc. apply Hm. apply NoDup_app in Hc as (Hc & _ & _).
      now apply NoDup_app_names in Hc.
Qed.

Lemma collectMigrations_Ok localeCompare stores ms :
  collectMigrations localeCompare stores = Ok ms ->
  ms = Array_sort (by_name localeCompare) (all_migrations stores) /\
  NoDup (map mig_name (all_migrations stores)).
Proof.
  unfold collectMigrations.
  pose proof (collect_stores_spec stores [] [] (NoDup_nil_2 (A:=string))) as H.
  destruct (collect_stores [] [] stores) as [all|r]; [|discriminate].
  destruct H as (-> & Hnd). intros [= <-]. now split.
Qed.

Lemma openDB_checks_Ok localeCompare config v ms :
  openDB_checks localeCompare config = Ok (v, ms) ->
  collectMigrations localeCompare (DatabaseConfig.stores config) = Ok ms.
Proof.
  unfold openDB_checks.
  destruct (validate_stores [] _); [discriminate|].
  destruct (match default explicit _ with auto => _ | explicit => _ end) as [version|r];
    [|discriminate].
  destruct (collectMigrations localeCompare _) as [ms'|r]; [|discriminate].
  now intros [= _ <-].
Qed.

(** X17.  Migrations are kept in name order.  For a host whose
    [localeCompare] never puts two names each before the other, every list
    of migrations the code builds is in non-descending order of the names:
    the one of a definition [createStore] or [defineStore] returns, the one
    after [addMigration], and the one [collectMigrations] and so [openDB]
    pass on. *)
Theorem migrations_in_name_order (localeCompare : string -> string -> Z) :
  (forall a b, 0 < localeCompare a b -> localeCompare b a <= 0) ->
  (forall name options def,
      createStore localeCompare name options = Ok def ->
      Sorted (fun a b => by_name localeCompare a b <= 0) (StoreDefinition.migrations def)) /\
  (forall name schema ms def,
      defineStore localeCompare name schema ms = Ok def ->
      Sorted (fun a b => by_name localeCompare a b <= 0)
        (SchemaStoreDefinition.migrations def)) /\
  (forall d n up d',
      addMigration localeCompare d n up = Ok d' ->
      Sorted (fun a b => by_name localeCompare a b <= 0)
        (SchemaStoreDefinition.migrations d')) /\
  (forall stores ms,
      collectMigrations localeCompare stores = Ok ms ->
      Sorted (fun a b => by_name localeCompare a b <= 0) ms) /\
  (forall config v ms,
      openDB_checks localeCompare config = Ok (v, ms) ->
      Sorted (fun a b => by_name localeCompare a b <= 0) ms).
Proof.
  intros Htotal.
  assert (Hsort : forall l, Sorted (fun a b => by_name localeCompare a b <= 0)
                              (Array_sort (by_name localeCompare) l)).
  { intros l. apply Array_sort_Sorted. intros a b. apply Htotal. }
  split; [|split; [|split; [|split]]].
  - intros name options def. unfold createStore.
    destruct (String.eqb name EmptyString); [discriminate|].
    destruct (validate_migrations _ _ _); [discriminate|].
    intros [= <-]. apply Hsort.
  - intros name schema ms def H.
    apply defineStore_Ok in H as (parsed & _ & _ & _ & _ & ->). apply Hsort.
  - intros d n up d' H. apply addMigration_Ok in H as (_ & _ & ->). apply Hsort.
  - intros stores ms H. apply collectMigrations_Ok in H as (-> & _). apply Hsort.
  - intros config v ms H. apply openDB_checks_Ok, collectMigrations_Ok in H as (-> & _).
    apply Hsort.
Qed.

(** ** Adding migrations *)

Lemma addMigration_run localeCompare d n up :
  n <> EmptyString -> (n ∉ map mig_name (SchemaStoreDefinition.migrations d)) ->
  addMigration localeCompare d n up
  = Ok (SchemaStoreDefinition.Make
          (SchemaStoreDefinition.name d) (SchemaStoreDefinition.schema d)
          (SchemaStoreDefinition.keyPath d) (SchemaStoreDefinition.indexes d)
          (Array_sort (by_name localeCompare)
             (SchemaStoreDefinition.migrations d ++ [MkMigration n up]))
          (SchemaStoreDefinition.defaults d)).
Proof.
  intros He Hin. unfold addMigration.
  destruct (String.eqb_spec n EmptyString) as [He'|_]; [contradiction|].
  destruct (bool_decide_reflect
              (n ∈ new_Set (map mig_name (SchemaStoreDefinition.migrations d))))
    as [Hc|_]; [|reflexivity].
  exfalso. apply Hin. apply list_elem_of_In, new_Set_In, list_elem_of_In, Hc.
Qed.

(** X18.  [addMigration] succeeds exactly when the name is not empty and
    no migration of the definition has it.  The new definition has the old
    migrations and the new one, rearranged, with distinct names if the old
    names were distinct; its name, schema, key path, indexes and defaults
    are the old ones. *)
Theorem addMigration_adds (localeCompare : string -> string -> Z)
    (d : SchemaStoreDefinition.t) (n : string) (up : MigrationFn) :
  ((exists d', addMigration localeCompare d n up = Ok d') <->
   n <> EmptyString /\ (n ∉ map mig_name (SchemaStoreDefinition.migrations d))) /\
  forall d', addMigration localeCompare d n up = Ok d' ->
    SchemaStoreDefinition.migrations d'
    ≡ₚ SchemaStoreDefinition.migrations d ++ [MkMigration n up] /\
    (NoDup (map mig_name (SchemaStoreDefinition.migrations d)) ->
     NoDup (map mig_name (SchemaStoreDefinition.migrations d'))) /\
    SchemaStoreDefinition.name d' = SchemaStoreDefinition.name d /\
    SchemaStoreDefinition.schema d' = SchemaStoreDefinition.schema d /\
    SchemaStoreDefinition.keyPath d' = SchemaStoreDefinition.keyPath d /\
    SchemaStoreDefinition.indexes d' = SchemaStoreDefinition.indexes d /\
    SchemaStoreDefinition.defaults d' = SchemaStoreDefinition.defaults d.
Proof.
  split.
  - split.
    + intros (d' & H). apply addMigration_Ok in H as (H1 & H2 & _). now split.
    + intros (H1 & H2). rewrite (addMigration_run _ _ _ _ H1 H2). eauto.
  - intros d' H. apply addMigration_Ok in H as (H1 & H2 & ->). cbn.
    split; [apply Array_sort_Permutation|].
    split; [|repeat split].
    intros Hnd. rewrite (Array_sort_Permutation (by_name localeCompare)), map_app. cbn.
    apply NoDup_app. split; [exact Hnd|]. split; [|apply NoDup_singleton].
    intros x Hx Hc. apply list_elem_of_singleton in Hc. subst x. contradiction.
Qed.

Lemma NoDup_names_eq (l : list Migration) (a b : Migration) :
  NoDup (map mig_name l) -> a ∈ l -> b ∈ l -> mig_name a = mig_name b -> a = b.
Proof.
  induction l as [|x l IH]; intros Hnd Ha Hb Hn; [now apply elem_of_nil in Ha|].
  cbn in Hnd. apply NoDup_cons in Hnd as [Hx Hnd].
  apply elem_of_cons in Ha as [-> | Ha], Hb as [-> | Hb].
  - reflexivity.
  - exfalso. apply Hx. rewrite Hn. apply list_elem_of_fmap. now exists b.
  - exfalso. apply Hx. rewrite <- Hn. apply list_elem_of_fmap. now exists a.
  - now apply IH.
Qed.

Section NameOrder.
Variable localeCompare : string -> string -> Z.
Hypothesis total : forall a b, 0 < localeCompare a b -> localeCompare b a <= 0.
Hypothesis transitive :
  forall a b c, localeCompare a b <= 0 -> localeCompare b c <= 0 -> localeCompare a c <= 0.
Hypothesis antisymmetric :
  forall a b, localeCompare a b <= 0 -> localeCompare b a <= 0 -> a = b.

(** With distinct names, the sorted arrangement depends on the set of
    migrations only. *)
Lemma Array_sort_arrangement (l1 l2 : list Migration) :
  NoDup (map mig_name l1) -> l1 ≡ₚ l2 ->
  Array_sort (by_name localeCompare) l1 = Array_sort (by_name localeCompare) l2.
Proof.
  intros Hnd Hp.
  assert (Htr : Transitive (fun a b => by_name localeCompare a b <= 0)).
  { intros a b c. apply transitive. }
  apply (sorted_arrangement_unique (fun a b => by_name localeCompare a b <= 0)).
  - intros a b Ha Hb Hab Hba.
    rewrite (Array_sort_Permutation (by_name localeCompare)) in Ha, Hb.
    apply (NoDup_names_eq l1); try assumption. now apply antisymmetric.
  - apply Sorted_StronglySorted; [exact Htr|]. apply Array_sort_Sorted.
    intros a b. apply total.
  - apply Sorted_StronglySorted; [exact Htr|]. apply Array_sort_Sorted.
    intros a b. apply total.
  - now rewrite !(Array_sort_Permutation (by_name localeCompare)).
Qed.
End NameOrder.

Lemma defineStore_run localeCompare name schema ms parsed keyPath :
  name <> EmptyString ->
  parseSchema schema = Ok parsed ->
  truthy (ps_keyPath parsed) = Some keyPath ->
  validate_migrations name [] (default [] ms) = None ->
  defineStore localeCompare name schema ms
  = Ok (SchemaStoreDefinition.Make name schema keyPath (ps_indexes parsed)
          (Array_sort (by_name localeCompare) (default [] ms)) (ps_defaults parsed)).
Proof.
  intros Hn Hp Hk Hv. unfold defineStore.
  destruct (String.eqb_spec name EmptyString) as [?|_]; [contradiction|].
  now rewrite Hp, Hk, Hv.
Qed.

(** X19.  For a host whose [localeCompare] is a total order on the names:
    adding a migration with [addMigration] to what [defineStore] returned
    for the migrations [ms] gives the definition [defineStore] returns for
    [ms] followed by that migration, in both directions; and two
    migrations can be added in either order, with the same definition. *)
Theorem options_or_builder (localeCompare : string -> string -> Z) :
  (forall a b, 0 < localeCompare a b -> localeCompare b a <= 0) ->
  (forall a b c,
      localeCompare a b <= 0 -> localeCompare b c <= 0 -> localeCompare a c <= 0) ->
  (forall a b, localeCompare a b <= 0 -> localeCompare b a <= 0 -> a = b) ->
  (forall name schema ms d n up d',
      defineStore localeCompare name schema (Some ms) = Ok d ->
      (addMigration localeCompare d n up = Ok d' <->
       defineStore localeCompare name schema (Some (ms ++ [MkMigration n up])%list) = Ok d')) /\
  (forall d a upa b upb d1 d12,
      NoDup (map mig_name (SchemaStoreDefinition.migrations d)) ->
      addMigration localeCompare d a upa = Ok d1 ->
      addMigration localeCompare d1 b upb = Ok d12 ->
      exists d2,
        addMigration localeCompare d b upb = Ok d2 /\
        addMigration localeCompare d2 a upa = Ok d12).
Proof.
  intros Htotal Htrans Hanti. split.
  - intros name schema ms d n up d' Hd.
    apply defineStore_Ok in Hd as (parsed & Hname & Hparse & Hkey & Hval & ->).
    change (default [] (Some ms)) with ms in *.
    apply validate_migrations_ok in Hval as (Hne & Hnd).
    assert (Hsorted : NoDup (map mig_name (ms ++ [MkMigration n up])) ->
      Array_sort (by_name localeCompare)
        (Array_sort (by_name localeCompare) ms ++ [MkMigration n up])
      = Array_sort (by_name localeCompare) (ms ++ [MkMigration n up])).
    { intros Hnd'. symmetry.
      apply Array_sort_arrangement; try assumption.
      now rewrite (Array_sort_Permutation (by_name localeCompare)). }
    assert (Hnames : forall x, x ∈ map mig_name (Array_sort (by_name localeCompare) ms)
                               <-> x ∈ map mig_name ms).
    { intros x. now rewrite (Array_sort_Permutation (by_name localeCompare)). }
    assert (Hnd1 : n ∉ map mig_name ms -> NoDup (map mig_name (ms ++ [MkMigration n up]))).
    { intros Hn. rewrite map_app. cbn. apply NoDup_app. split; [exact Hnd|].
      split; [|apply NoDup_singleton].
      intros x Hx Hc. apply list_elem_of_singleton in Hc. subst x. contradiction. }
    split.
    + intros H. apply addMigration_Ok in H as (Hn & Hin & ->).
      cbn [SchemaStoreDefinition.name SchemaStoreDefinition.schema
           SchemaStoreDefinition.keyPath SchemaStoreDefinition.indexes
           SchemaStoreDefinition.migrations SchemaStoreDefinition.defaults] in *.
      rewrite Hnames in Hin.
      assert (Hv : validate_migrations name [] (ms ++ [MkMigration n up]) = None).
      { apply validate_migrations_ok. split; [|now apply Hnd1].
        apply Forall_app. split; [exact Hne|]. now repeat constructor. }
      rewrite (defineStore_run localeCompare name schema
                 (Some (ms ++ [MkMigration n up])%list) parsed _ Hname Hparse Hkey Hv).
      change (default [] (Some (ms ++ [MkMigration n up])%list))
        with (ms ++ [MkMigration n up])%list.
      now rewrite (Hsorted (Hnd1 Hin)).
    + intros H. apply defineStore_Ok in H as (parsed' & _ & Hparse' & Hkey' & Hval' & ->).
      change (default [] (Some (ms ++ [MkMigration n up])%list))
        with (ms ++ [MkMigration n up])%list in *.
      apply validate_migrations_ok in Hval' as (Hne' & Hnd').
      rewrite Hparse in Hparse'. injection Hparse' as <-.
      rewrite Hkey in Hkey'. injection Hkey' as Hk.
      apply Forall_app in Hne' as (_ & Hn). inversion Hn as [|? ? Hn' _]; subst.
      cbn in Hn'.
      assert (Hin : n ∉ map mig_name ms).
      { rewrite map_app in Hnd'. apply NoDup_app in Hnd' as (_ & Hdis & _).
        intros Hc. apply (Hdis _ Hc). cbn. apply list_elem_of_here. }
      rewrite addMigration_run;
        cbn [SchemaStoreDefinition.name SchemaStoreDefinition.schema
           SchemaStoreDefinition.keyPath SchemaStoreDefinition.indexes
           SchemaStoreDefinition.migrations SchemaStoreDefinition.defaults];
        [|exact Hn'|now rewrite Hnames].
      rewrite (Hsorted (Hnd1 Hin)). now rewrite <- Hk.
  - intros d a upa b upb d1 d12 Hnd H1 H12.
    apply addMigration_Ok in H1 as (Ha & Hina & ->).
    apply addMigration_Ok in H12 as (Hb & Hinb & ->).
    cbn [SchemaStoreDefinition.name SchemaStoreDefinition.schema
         SchemaStoreDefinition.keyPath SchemaStoreDefinition.indexes
         SchemaStoreDefinition.migrations SchemaStoreDefinition.defaults] in *.
    rewrite (Array_sort_Permutation (by_name localeCompare)), map_app in Hinb.
    cbn in Hinb.
    assert (Hb1 : b ∉ map mig_name (SchemaStoreDefinition.migrations d)).
    { intros Hc. apply Hinb. apply elem_of_app. now left. }
    assert (Hab : a <> b).
    { intros ->. apply Hinb. apply elem_of_app. right. apply list_elem_of_here. }
    eexists. split; [apply (addMigration_run _ _ _ _ Hb Hb1)|].
    rewrite addMigration_run;
      cbn [SchemaStoreDefinition.name SchemaStoreDefinition.schema
           SchemaStoreDefinition.keyPath SchemaStoreDefinition.indexes
           SchemaStoreDefinition.migrations SchemaStoreDefinition.defaults];
      [|exact Ha|].
    2:{ rewrite (Array_sort_Permutation (by_name localeCompare)), map_app. cbn.
        intros Hc. apply elem_of_app in Hc as [Hc | Hc]; [contradiction|].
        apply list_elem_of_singleton in Hc. contradiction. }
    f_equal. f_equal.
    set (ms := SchemaStoreDefinition.migrations d) in *.
    assert (HndA : NoDup (map mig_name ((ms ++ [MkMigration b upb]) ++ [MkMigration a upa]))).
    { rewrite !map_app. cbn. apply NoDup_app. split; [|split; [|apply NoDup_singleton]].
      - apply NoDup_app. split; [exact Hnd|]. split; [|apply NoDup_singleton].
        intros x Hx Hc. apply list_elem_of_singleton in Hc. subst x. contradiction.
      - intros x Hx Hc. apply list_elem_of_singleton in Hc. subst x.
        apply elem_of_app in Hx as [Hx | Hx]; [contradiction|].
        apply list_elem_of_singleton in Hx. contradiction. }
    transitivity (Array_sort (by_name localeCompare)
                    ((ms ++ [MkMigration b upb]) ++ [MkMigration a upa])).
    + symmetry. apply Array_sort_arrangement; try assumption.
      now rewrite (Array_sort_Permutation (by_name localeCompare)).
    + apply Array_sort_arrangement; try assumption.
      rewrite (Array_sort_Permutation (by_name localeCompare)).
      rewrite <- !app_assoc. apply Permutation_app_head. apply Permutation_app_comm.
Qed.

(** ** What [openDB] checks *)

Lemma validate_stores_None (stores : list StoreDefinition.t) :
  forall seen,
  validate_stores seen stores = None <->
  NoDup (map StoreDefinition.name stores) /\
  (forall s, s ∈ stores -> StoreDefinition.name s ∉ seen).
Proof.
  induction stores as [|s stores IH]; intros seen; cbn [validate_stores map].
  - split; [intros _|reflexivity]. split; [constructor|].
    intros s Hs. now apply elem_of_nil in Hs.
  - destruct (bool_decide_reflect (StoreDefinition.name s ∈ seen)) as [Hin|Hin].
    { split; [discriminate|]. intros (_ & Hs). exfalso.
      apply (Hs s); [apply list_elem_of_here | exact Hin]. }
    rewrite IH. split.
    + intros (Hnd & Hs). split.
      * constructor; [|exact Hnd]. intros Hm.
        apply list_elem_of_fmap in Hm as (s' & Hn & Hs').
        apply (Hs s' Hs'). rewrite <- Hn. apply elem_of_app. right. apply list_elem_of_here.
      * intros s' Hs'. apply elem_of_cons in Hs' as [-> | Hs']; [exact Hin|].
        intros Hc. apply (Hs s' Hs'). apply elem_of_app. now left.
    + intros (Hnd & Hs). apply NoDup_cons in Hnd as [Hnotin Hnd].
      split; [exact Hnd|].
      intros s' Hs' Hc. apply elem_of_app in Hc as [Hc | Hc].
      * apply (Hs s'); [now apply list_elem_of_further | exact Hc].
      * apply list_elem_of_singleton in Hc. apply Hnotin. rewrite <- Hc.
        apply list_elem_of_fmap. now exists s'.
Qed.

Lemma collectMigrations_cases localeCompare stores :
  match collectMigrations localeCompare stores with
  | Ok ms =>
      ms = Array_sort (by_name localeCompare) (all_migrations stores) /\
      NoDup (map mig_name (all_migrations stores))
  | Throw _ => (~ NoDup (map mig_name (all_migrations stores)))
  end.
Proof.
  unfold collectMigrations.
  pose proof (collect_stores_spec stores [] [] (NoDup_nil_2 (A:=string))) as H.
  destruct (collect_stores [] [] stores) as [all|r]; [|exact H].
  destruct H as (-> & Hnd). now split.
Qed.

(** X20.  What [openDB] checks before it asks the host anything.
    [collectMigrations] succeeds exactly when the migration names of all
    stores together are distinct.  The checks of [openDB] pass exactly
    when, moreover, the store names are distinct and the version is given
    or the strategy is ['auto'].  The database is then opened at version 1
    under ['auto'], whatever version is given, and at the given version
    otherwise, with the migrations of all stores. *)
Theorem openDB_checks_accepts (localeCompare : string -> string -> Z)
    (config : DatabaseConfig.t) :
  let stores := DatabaseConfig.stores config in
  ((exists ms, collectMigrations localeCompare stores = Ok ms) <->
   NoDup (map mig_name (all_migrations stores))) /\
  ((exists r, openDB_checks localeCompare config = Ok r) <->
   NoDup (map StoreDefinition.name stores) /\
   (DatabaseConfig.versionStrategy config = Some auto \/
    is_Some (DatabaseConfig.version config)) /\
   NoDup (map mig_name (all_migrations stores))) /\
  forall v ms, openDB_checks localeCompare config = Ok (v, ms) ->
    (DatabaseConfig.versionStrategy config = Some auto -> v = 1) /\
    (DatabaseConfig.versionStrategy config <> Some auto ->
     DatabaseConfig.version config = Some v) /\
    ms ≡ₚ all_migrations stores.
Proof.
  intros stores.
  pose proof (collectMigrations_cases localeCompare stores) as Hc.
  pose proof (validate_stores_None stores []) as Hv.
  split; [|split].
  - destruct (collectMigrations localeCompare stores) as [ms|r].
    + destruct Hc as (_ & Hnd). split; eauto.
    + split; [intros (ms & H); discriminate | intros H; contradiction].
  - unfold openDB_checks. fold stores.
    destruct (validate_stores [] stores) as [message|].
    { split; [intros (r & H); discriminate|]. intros (Hnd & _).
      assert (Some message = None); [|discriminate].
      apply Hv. split; [exact Hnd|]. intros s _ Hs. now apply elem_of_nil in Hs. }
    assert (Hnames : NoDup (map StoreDefinition.name stores)) by now apply Hv.
    destruct (DatabaseConfig.versionStrategy config) as [[|]|];
      destruct (DatabaseConfig.version config) as [explicitVersion|];
      cbn [default];
      destruct (collectMigrations localeCompare stores) as [ms|r].
    all: split; [intros (r' & H) | intros (_ & Hver & Hnd)].
    all: try discriminate; try contradiction.
    all: try (destruct Hver as [Hver | [x Hx]]; discriminate).
    all: try (destruct Hc as (_ & Hnd); split; [exact Hnames | split; [eauto | exact Hnd]]).
    all: eauto.
  - intros v ms. unfold openDB_checks. fold stores.
    destruct (validate_stores [] stores); [discriminate|].
    destruct (DatabaseConfig.versionStrategy config) as [[|]|] eqn:Hstrategy;
      cbn [default];
      destruct (DatabaseConfig.version config) as [explicitVersion|] eqn:Hversion;
      try discriminate;
      destruct (collectMigrations localeCompare stores) as [ms'|r]; try discriminate;
      intros [= <- <-]; destruct Hc as (-> & _);
      (split; [|split; [|apply Array_sort_Permutation]]);
      congruence.
Qed.

(** ** The schema parser *)









(** ** Chains of builder calls *)

Lemma chain_marks (ms : list FieldBuilder.method) :
  forall this,
  forallb (fun m => negb (is_array m)) ms = true ->
  FieldDef._optional (fold_left FieldBuilder.call ms this)
  = FieldDef._optional this || existsb is_optional ms /\
  FieldDef._hasDefault (fold_left FieldBuilder.call ms this)
  = FieldDef._hasDefault this || existsb is_default ms /\
  FieldDef._primaryKey (fold_left FieldBuilder.call ms this)
  = FieldDef._primaryKey this || existsb is_primaryKey ms /\
  FieldDef._isIndexed (fold_left FieldBuilder.call ms this)
  = FieldDef._isIndexed this || existsb is_index ms.
Proof.
  induction ms as [|m ms IH]; intros this Hms; cbn [fold_left existsb].
  - now rewrite !orb_false_r.
  - cbn [forallb] in Hms. apply andb_true_iff in Hms as [Hm Hms].
    destruct (IH (FieldBuilder.call this m) Hms) as (H1 & H2 & H3 & H4).
    rewrite H1, H2, H3, H4.
    destruct m; cbn in *; try discriminate;
      rewrite ?orb_true_r, ?orb_false_r; repeat split; reflexivity.
Qed.

(** X22.  [array()] forgets the marks: a chain of builder calls with a call
    of [array()] in it builds what the calls after that one build, so a
    field is optional, has a default, is the primary key or is indexed
    exactly when the corresponding method is called after the last
    [array()]. *)
Theorem array_forgets_the_marks (pre post : list FieldBuilder.method) :
  FieldBuilder.chain (pre ++ FieldBuilder.m_array :: post) = FieldBuilder.chain post /\
  (forallb (fun m => negb (is_array m)) post = true ->
   let def := FieldBuilder.chain (pre ++ FieldBuilder.m_array :: post) in
   FieldDef._optional def = existsb is_optional post /\
   FieldDef._hasDefault def = existsb is_default post /\
   FieldDef._primaryKey def = existsb is_primaryKey post /\
   FieldDef._isIndexed def = existsb is_index post).
Proof.
  assert (H : FieldBuilder.chain (pre ++ FieldBuilder.m_array :: post)
              = FieldBuilder.chain post).
  { unfold FieldBuilder.chain. now rewrite fold_left_app. }
  split; [exact H|]. intros Hpost def. subst def. rewrite H.
  apply (chain_marks post FieldBuilder.createFieldBuilder Hpost).
Qed.

(** ** The object [openDB] returns *)

Lemma buildDatabaseWithStores_from (stores : list StoreDefinition.t) :
  forall obj : JSObject,
  own obj !! "__proto__" = None ->
  let built :=
    fold_left
      (fun dbWithStores store =>
         assign dbWithStores (StoreDefinition.name store)
           (createStoreAccessor (StoreDefinition.name store)))
      stores obj in
  (forall k, k <> "__proto__" ->
     own built !! k
     = if bool_decide (k ∈ map StoreDefinition.name stores)
       then Some (p_accessor (StoreAccessor.Make k ∅))
       else own obj !! k) /\
  own built !! "__proto__" = None /\
  prototype built
  = if bool_decide ("__proto__" ∈ map StoreDefinition.name stores)
    then Some (StoreAccessor.Make "__proto__" ∅)
    else prototype obj.
Proof.
  induction stores as [|store stores IH]; intros obj Hobj; cbn [fold_left map].
  - split; [|split; [exact Hobj|]].
    + intros k _. rewrite bool_decide_eq_false_2; [reflexivity | apply not_elem_of_nil].
    + rewrite bool_decide_eq_false_2; [reflexivity | apply not_elem_of_nil].
  - set (n := StoreDefinition.name store).
    set (obj1 := assign obj n (createStoreAccessor n)).
    assert (Hown : forall k, k <> "__proto__" ->
              own obj1 !! k
              = if bool_decide (k = n) then Some (p_accessor (StoreAccessor.Make k ∅))
                else own obj !! k).
    { intros k Hk. unfold obj1, assign.
      destruct (decide (k = n)) as [->|Hne].
      - rewrite bool_decide_eq_true_2 by reflexivity.
        destruct (own obj !! n); cbn [own]; [apply lookup_insert_eq|].
        destruct (String.eqb_spec n "__proto__") as [He|_]; [contradiction|].
        cbn [own]. apply lookup_insert_eq.
      - rewrite bool_decide_eq_false_2 by exact Hne.
        destruct (own obj !! n); cbn [own]; [now apply lookup_insert_ne|].
        destruct (String.eqb n "__proto__"); cbn [own]; [reflexivity|].
        now apply lookup_insert_ne. }
    assert (Hproto : own obj1 !! "__proto__" = None /\
                     prototype obj1
                     = if bool_decide (n = "__proto__")
                       then Some (StoreAccessor.Make "__proto__" ∅)
                       else prototype obj).
    { unfold obj1, assign.
      destruct (decide (n = "__proto__")) as [He|Hne].
      - rewrite He, Hobj. cbn. rewrite bool_decide_eq_true_2 by reflexivity.
        split; [exact Hobj | reflexivity].
      - rewrite bool_decide_eq_false_2 by exact Hne.
        destruct (own obj !! n); cbn [own prototype].
        + split; [|reflexivity]. rewrite lookup_insert_ne by exact Hne. exact Hobj.
        + destruct (String.eqb_spec n "__proto__") as [He|_]; [contradiction|].
          cbn [own prototype]. split; [|reflexivity].
          rewrite lookup_insert_ne by exact Hne. exact Hobj. }
    destruct Hproto as [Hp1 Hp2].
    destruct (IH obj1 Hp1) as (Hk & Hnone & Hpr). split; [|split; [exact Hnone|]].
    + intros k Hne. rewrite (Hk k Hne), (Hown k Hne).
      destruct (bool_decide_reflect (k ∈ map StoreDefinition.name stores)) as [Hin|Hin].
      * rewrite bool_decide_eq_true_2; [reflexivity|]. now apply list_elem_of_further.
      * destruct (decide (k = n)) as [->|Hkn].
        -- rewrite !bool_decide_eq_true_2; [reflexivity | apply list_elem_of_here | reflexivity].
        -- rewrite !bool_decide_eq_false_2; [reflexivity | | exact Hkn].
           intros Hc. apply elem_of_cons in Hc as [Hc|Hc]; contradiction.
    + rewrite Hpr, Hp2.
      destruct (bool_decide_reflect ("__proto__" ∈ map StoreDefinition.name stores))
        as [Hin|Hin].
      * rewrite bool_decide_eq_true_2; [reflexivity|]. now apply list_elem_of_further.
      * destruct (decide (n = "__proto__")) as [He|Hne].
        -- rewrite !bool_decide_eq_true_2;
             [reflexivity | rewrite <- He; apply list_elem_of_here | exact He].
        -- rewrite !bool_decide_eq_false_2; [reflexivity | | exact Hne].
           intros Hc. apply elem_of_cons in Hc as [Hc|Hc]; [congruence | contradiction].
Qed.

(** X23.  The object [openDB] returns has, under the name of every store
    other than [__proto__], an own property that is an accessor of that
    store without defaults, also where the name is that of a member of
    [database] such as [read] or [close], which it replaces; every other
    own property is the one of [database].  A store with the name
    [__proto__] gets no property: its accessor becomes the prototype of the
    object, which is [Object.prototype] otherwise.  The [get] of an accessor
    that is a property resolves with the record as it is stored. *)
Theorem stores_shadow_the_database (stores : list StoreDefinition.t) :
  let obj := buildDatabaseWithStores database stores in
  (forall k,
      k <> "__proto__" ->
      own obj !! k
      = if bool_decide (k ∈ map StoreDefinition.name stores)
        then Some (p_accessor (StoreAccessor.Make k ∅))
        else database !! k) /\
  own obj !! "__proto__" = None /\
  prototype obj
  = (if bool_decide ("__proto__" ∈ map StoreDefinition.name stores)
     then Some (StoreAccessor.Make "__proto__" ∅)
     else None) /\
  (forall k this db st key,
      k ∈ map StoreDefinition.name stores ->
      own obj !! k = Some (p_accessor this) ->
      objectStores db !! k = Some st ->
      valid_key key = true ->
      fst (StoreAccessor.get this key db) = Fulfilled (stored st key)).
Proof.
  intros obj. unfold obj, buildDatabaseWithStores.
  destruct (buildDatabaseWithStores_from stores (MkObject database None) eq_refl)
    as (Hown & Hnone & Hproto).
  split; [exact Hown|]. split; [exact Hnone|]. split; [exact Hproto|].
  intros k this db st key Hin Hk Hst Hkey.
  destruct (decide (k = "__proto__")) as [->|Hne]; [rewrite Hnone in Hk; discriminate|].
  rewrite (Hown k Hne), bool_decide_eq_true_2 in Hk by exact Hin.
  injection Hk as <-.
  rewrite (get_run (StoreAccessor.Make k ∅) key db st Hst Hkey). cbn [fst].
  destruct (stored st key) as [v|]; [|reflexivity].
  cbn. unfold overlay. now rewrite (right_id_L ∅ (∪)).
Qed.

(** ** The properties of the store definitions on the example data *)

Lemma code_unit_order_total a b :
  0 < Blog.code_unit_order a b -> Blog.code_unit_order b a <= 0.
Proof.
  unfold Blog.code_unit_order. rewrite (code_unit_compare_antisym b a).
  destruct (code_unit_compare a b); cbn; lia.
Defined.

Lemma code_unit_order_trans a b c :
  Blog.code_unit_order a b <= 0 -> Blog.code_unit_order b c <= 0 ->
  Blog.code_unit_order a c <= 0.
Proof.
  unfold Blog.code_unit_order. intros H1 H2.
  pose proof (code_unit_compare_trans a b c) as H.
  destruct (code_unit_compare a b), (code_unit_compare b c), (code_unit_compare a c);
    try lia; exfalso; apply H; congruence.
Defined.

Lemma code_unit_order_antisym a b :
  Blog.code_unit_order a b <= 0 -> Blog.code_unit_order b a <= 0 -> a = b.
Proof.
  unfold Blog.code_unit_order. rewrite (code_unit_compare_antisym b a).
  destruct (code_unit_compare a b) eqn:H; cbn; try lia.
  intros _ _. now apply code_unit_compare_eq.
Defined.

Lemma createStore_accepts_witness :
  exists def, createStore Blog.code_unit_order "posts" Blog.posts_options = Ok def.
Proof.
  apply (proj1 (createStore_accepts Blog.code_unit_order "posts" Blog.posts_options)).
  split; [discriminate|]. split.
  - repeat constructor; discriminate.
  - cbn. repeat constructor; rewrite ?elem_of_cons, ?elem_of_nil; intuition discriminate.
Defined.

Lemma migrations_in_name_order_witness :
  Sorted (fun a b => by_name Blog.code_unit_order a b <= 0) [Blog.seed; Blog.add_index].
Proof.
  apply (proj1 (migrations_in_name_order Blog.code_unit_order code_unit_order_total)
           "posts" Blog.posts_options Blog.posts).
  vm_compute. reflexivity.
Defined.

Lemma addMigration_adds_witness :
  exists d', addMigration Blog.code_unit_order Blog.users "002-add-index" 2%nat = Ok d'.
Proof.
  apply (proj1 (addMigration_adds Blog.code_unit_order Blog.users "002-add-index" 2%nat)).
  split; [discriminate|].
  cbn. rewrite elem_of_cons, elem_of_nil. intuition discriminate.
Defined.

Lemma options_or_builder_witness :
  addMigration Blog.code_unit_order Blog.users "002-add-index" 2%nat = Ok Blog.users_migrated <->
  defineStore Blog.code_unit_order "users" Blog.users_schema
    (Some ([Blog.seed] ++ [Blog.add_index])%list) = Ok Blog.users_migrated.
Proof.
  apply (proj1 (options_or_builder Blog.code_unit_order code_unit_order_total
                  code_unit_order_trans code_unit_order_antisym)
           "users" Blog.users_schema [Blog.seed] Blog.users "002-add-index" 2%nat
           Blog.users_migrated).
  vm_compute. reflexivity.
Defined.

Lemma openDB_checks_accepts_witness :
  (exists r, openDB_checks Blog.code_unit_order Blog.config = Ok r) /\
  openDB_checks Blog.code_unit_order Blog.config = Ok (1, [Blog.seed; Blog.add_index]).
Proof.
  split; [|vm_compute; reflexivity].
  apply (proj1 (proj2 (openDB_checks_accepts Blog.code_unit_order Blog.config))).
  split; [|split].
  - cbn. repeat constructor; rewrite ?elem_of_cons, ?elem_of_nil; intuition discriminate.
  - now left.
  - cbn. repeat constructor; rewrite ?elem_of_cons, ?elem_of_nil; intuition discriminate.
Defined.


Lemma array_forgets_the_marks_witness :
  let def := FieldBuilder.chain
               ([FieldBuilder.m_primaryKey; FieldBuilder.m_index None]
                ++ FieldBuilder.m_array :: [FieldBuilder.m_optional]) in
  FieldDef._optional def = true /\
  FieldDef._hasDefault def = false /\
  FieldDef._primaryKey def = false /\
  FieldDef._isIndexed def = false.
Proof.
  apply (proj2 (array_forgets_the_marks
                  [FieldBuilder.m_primaryKey; FieldBuilder.m_index None]
                  [FieldBuilder.m_optional])).
  reflexivity.
Defined.

Lemma stores_shadow_the_database_witness :
  let obj := buildDatabaseWithStores database [Blog.posts; Blog.proto; Blog.products] in
  own obj !! "close" = Some p_close /\
  own obj !! "posts" = Some (p_accessor (StoreAccessor.Make "posts" ∅)) /\
  own obj !! "__proto__" = None /\
  prototype obj = Some (StoreAccessor.Make "__proto__" ∅) /\
  fst (StoreAccessor.get (StoreAccessor.Make "products" ∅) (JStr "p2") Sample.db)
  = Fulfilled (stored Sample.products (JStr "p2")).
Proof.
  destruct (stores_shadow_the_database [Blog.posts; Blog.proto; Blog.products])
    as (Hown & Hnone & Hproto & Hget).
  split; [|split; [|split; [exact Hnone|split; [exact Hproto|]]]].
  - now rewrite Hown.
  - now rewrite Hown.
  - apply (Hget "products").
    + cbn. rewrite !elem_of_cons. right. right. now left.
    + now rewrite Hown.
    + vm_compute. reflexivity.
    + reflexivity.
Defined.

(** * Properties across the parts *)

(** ** [get] and [find] *)

Lemma get_invalid_key (this : StoreAccessor.t) (key : jsval) (db : Engine) (st : objectStore) :
  objectStores db !! StoreAccessor.storeName this = Some st ->
  valid_key key = false ->
  fst (StoreAccessor.get this key db) = Rejected (RDom DataError).
Proof.
  intros Hst Hk. unfold StoreAccessor.get, issue_then_await.
  unfold bind at 1. rewrite (db_transaction_one _ _ _ _ Hst).
  unfold bind at 1. rewrite tx_objectStore_one.
  unfold get_request, req_get. unfold bind at 1. unfold bind at 1. rewrite log_add_calls.
  unfold bind at 1. rewrite (the_store_opened _ _ _ _ _ _ Hst). rewrite Hk.
  reflexivity.
Qed.

Lemma range_ok_only (key : jsval) : range_ok (IDBKeyRange.Make (Some key) (Some key) false false) = valid_key key.
Proof.
  unfold range_ok. cbn. rewrite key_compare_refl. cbn.
  destruct (valid_key key); reflexivity.
Qed.

Lemma head_take_1 {A} (l : list A) : head (take 1 l) = head l.
Proof. now destruct l. Qed.

(** X24.  [get(key)] of an accessor is the key query for that key.  For a
    valid key, [query().equals(key)] returns a plan whose [find()] resolves
    with what [get(key)] resolves with: the same record (over the defaults)
    or [undefined].  For a key that is not valid the two fail differently:
    [equals] throws the DataError of [IDBKeyRange.only] at once and returns
    no plan, so that no [find()] is called and no promise or transaction
    exists, while [get] returns a promise that is rejected with the
    DataError of the request. *)
Theorem get_is_find_by_key (this : StoreAccessor.t) (key : jsval) (db : Engine)
    (st : objectStore) :
  objectStores db !! StoreAccessor.storeName this = Some st ->
  (valid_key key = true ->
     exists plan,
       QueryBuilderImpl.equals (StoreAccessor.query_builder this) key = Ok plan /\
       fst (StoreAccessor.get this key db) = fst (FinalQueryBuilderImpl.find plan db)) /\
  (valid_key key = false ->
     QueryBuilderImpl.equals (StoreAccessor.query_builder this) key
     = Throw (RDom DataError) /\
     fst (StoreAccessor.get this key db) = Rejected (RDom DataError)).
Proof.
  intros Hst. split; intros Hk.
  - unfold QueryBuilderImpl.equals, IndexQueryBuilderImpl.equals, IDBKeyRange.only.
    rewrite Hk. eexists. split; [reflexivity|].
    set (s := MkQueryState None true
                (Some (IDBKeyRange.Make (Some key) (Some key) false false)) asc (Some 1) 0).
    assert (Hfind :
      fst (FinalQueryBuilderImpl.find
             (IndexQueryBuilderImpl.createFinal
                (QueryBuilderImpl.keyBuilder (StoreAccessor.query_builder this))
                (Some (IDBKeyRange.Make (Some key) (Some key) false false))) db)
      = FinalQueryBuilderImpl.first
          (fst (FinalQueryBuilderImpl.executeQuery
                  (FinalQueryBuilderImpl.Make (StoreAccessor.storeName this) s
                     (StoreAccessor.defaults this)) db))).
    { unfold FinalQueryBuilderImpl.find.
      change (FinalQueryBuilderImpl.limit
                (IndexQueryBuilderImpl.createFinal
                   (QueryBuilderImpl.keyBuilder (StoreAccessor.query_builder this))
                   (Some (IDBKeyRange.Make (Some key) (Some key) false false))) 1)
        with (FinalQueryBuilderImpl.Make (StoreAccessor.storeName this) s
                (StoreAccessor.defaults this)).
      now destruct (FinalQueryBuilderImpl.executeQuery _ db). }
    rewrite Hfind. clear Hfind.
    assert (Hsel : selected st (truthy (indexName s)) (QRange <$> range s)
                   = Ok (matching (Some (QKey key)) (rows st))).
    { unfold selected. cbn. now rewrite range_ok_only, Hk. }
    rewrite (get_run this key db st Hst Hk).
    destruct (executeQuery_formula _ s (StoreAccessor.defaults this) db st _ Hst Hsel)
      as (cs & ->).
    cbn [fst FinalQueryBuilderImpl.first up_to limitCount offsetCount order directed s].
    rewrite drop_0. unfold stored.
    destruct (matching (Some (QKey key)) (rows st)) as [|r rs]; [reflexivity|].
    change (Z.to_nat 1) with 1%nat. cbn [take map head].
    now rewrite with_defaults_overlay.
  - split; [|exact (get_invalid_key this key db st Hst Hk)].
    unfold QueryBuilderImpl.equals, IndexQueryBuilderImpl.equals, IDBKeyRange.only.
    now rewrite Hk.
Qed.

(** ** A chain that throws while it issues its requests *)

Lemma out_of_scope_all_in (names used : list string) :
  (forall n, In n used -> n ∈ names) -> out_of_scope names (new_Set used) = None.
Proof.
  intros Hall. destruct (out_of_scope names (new_Set used)) as [store|] eqn:Hs;
    [|reflexivity].
  apply out_of_scope_Some in Hs as [Hin Hout]. exfalso. apply Hout, Hall.
  now apply new_Set_In.
Qed.

Lemma db_transaction_opened (names : list string) (mode : IDBTransactionMode) (db : Engine) :
  names <> [] ->
  (forall n, n ∈ names -> is_Some (objectStores db !! n)) ->
  db_transaction names mode db = (Ok tt, opened names mode db).
Proof.
  intros Hne Hall. unfold db_transaction, bind, log, set_active, opened. cbn.
  destruct names as [|n names]; [congruence|].
  assert (H : forallb (fun n0 => bool_decide (is_Some (objectStores db !! n0))) (n :: names)
              = true).
  { apply forallb_forall. intros x Hx. apply bool_decide_eq_true, Hall.
    now apply list_elem_of_In. }
  now rewrite H.
Qed.

Lemma write_issue_all_app (l1 l2 : list WriteChain.WriteOperation) (db : Engine) :
  WriteChain.issue_all (l1 ++ l2) db
  = match WriteChain.issue_all l1 db with
    | (Ok _, db1) => WriteChain.issue_all l2 db1
    | (Throw r, db1) => (Throw r, db1)
    end.
Proof.
  revert db. induction l1 as [|op l1 IH]; intros db; [reflexivity|].
  cbn [app WriteChain.issue_all]. unfold bind.
  destruct (WriteChain.issue op db) as [[u|r] db1]; [apply IH | reflexivity].
Qed.

Lemma resolve_key_keyPath (st st' : objectStore) (value : record) (key : option jsval) :
  keyPath st' = keyPath st -> resolve_key st' value key = resolve_key st value key.
Proof. unfold resolve_key. now intros ->. Qed.

Lemma tx_finish_add_calls (cs : list call) (db : Engine) :
  objectStores (snd (tx_finish (add_calls cs db))) = objectStores (snd (tx_finish db)).
Proof.
  unfold tx_finish, add_calls. cbn. destruct (active db) as [tx|]; [|reflexivity].
  destruct (tx_failed tx); reflexivity.
Qed.

(** A [put] the store cannot find a key for throws at once and leaves the
    transaction as it is. *)
Lemma issue_unkeyed_put (s : string) (value : record) (key : option jsval)
    (db : Engine) (tx : IDBTransaction) (st : objectStore) :
  active db = Some tx -> s ∈ tx_scope tx -> tx_mode tx = readwrite ->
  tx_stores tx !! s = Some st -> resolve_key st value key = None ->
  WriteChain.issue (WriteChain.op_put s value key) db
  = (Throw (RDom DataError), add_calls [c_put s value key] db).
Proof.
  intros Ha Hs Hm Hst Hk.
  assert (Hstore : tx_objectStore s db = (Ok s, db)).
  { unfold tx_objectStore, bind, current_tx. rewrite Ha.
    now rewrite bool_decide_eq_true_2 by exact Hs. }
  unfold WriteChain.issue. cbn [WriteChain.storeName]. unfold bind at 1. rewrite Hstore.
  unfold req_put, writable, the_store, bind, current_tx, log, add_calls, throw, ret.
  cbn [active objectStores calls]. rewrite Ha, Hm. cbn [active]. cbv beta iota.
  rewrite Hst. cbv beta iota. rewrite Hk. reflexivity.
Qed.

(** X25.  A write chain that throws while it issues its requests keeps the
    earlier writes.  When a queued [put] has no key the store can resolve,
    [execute] is rejected (with the DataError of that [put], if the
    operations before it are accepted), and the database is left as
    [execute] of the operations before it would leave it: they are
    committed.  The operations after it are never issued: the calls of the
    execution are the transaction and then a prefix of the calls of the
    operations before the [put] followed by the [put] itself, all of these
    if the operations before it are accepted. *)
Theorem rejected_chain_keeps_earlier_writes (names : list string)
    (pre post : list WriteChain.WriteOperation) (s : string) (value : record)
    (key : option jsval) (db : Engine) (st : objectStore) :
  active db = None ->
  (forall n, n ∈ names -> is_Some (objectStores db !! n)) ->
  (forall o, In o (pre ++ post) -> WriteChain.storeName o ∈ names) ->
  s ∈ names ->
  objectStores db !! s = Some st ->
  resolve_key st value key = None ->
  let chain := WriteChain.Make names (pre ++ WriteChain.op_put s value key :: post) in
  (exists r, fst (WriteChain.execute chain db) = Rejected r) /\
  (fst (WriteChain.execute (WriteChain.Make names pre) db) = Fulfilled tt ->
   fst (WriteChain.execute chain db) = Rejected (RDom DataError)) /\
  objectStores (snd (WriteChain.execute chain db))
  = objectStores (snd (WriteChain.execute (WriteChain.Make names pre) db)) /\
  (exists k,
     calls (snd (WriteChain.execute chain db))
     = (calls db ++ c_transaction names readwrite
          :: take k (map write_call pre ++ [c_put s value key]))%list) /\
  (fst (WriteChain.execute (WriteChain.Make names pre) db) = Fulfilled tt ->
   calls (snd (WriteChain.execute chain db))
   = (calls db ++ c_transaction names readwrite
        :: map write_call pre ++ [c_put s value key])%list).
Proof.
  intros Hidle Hstores Hops Hs Hst Hk chain.
  assert (Hpre : forall o, In o pre -> WriteChain.storeName o ∈ names).
  { intros o Ho. apply Hops, in_or_app. now left. }
  assert (Hne : names <> []) by (intros ->; now apply elem_of_nil in Hs).
  pose proof (db_transaction_opened names readwrite db Hne Hstores) as Htx.
  set (dbo := opened names readwrite db) in *.
  assert (Hrun_pre :
    WriteChain.execute (WriteChain.Make names pre) db
    = match pre with
      | [] => (Fulfilled tt, db)
      | _ =>
          match WriteChain.issue_all pre dbo with
          | (Throw r, db1) => (Rejected r, snd (tx_finish db1))
          | (Ok _, db1) => (promisifyTransaction (fst (tx_finish db1)), snd (tx_finish db1))
          end
      end).
  { unfold WriteChain.execute. cbn [WriteChain.operations WriteChain.storeNames].
    destruct pre as [|op pre']; [reflexivity|].
    cbn [length Nat.eqb]. rewrite out_of_scope_all_in.
    2:{ intros n Hn. apply in_map_iff in Hn as (o & <- & Ho). now apply Hpre. }
    unfold bind at 1. rewrite Htx.
    destruct (WriteChain.issue_all (op :: pre') dbo) as [[u|r] db1]; [|reflexivity].
    now destruct (tx_finish db1). }
  assert (Hrun :
    WriteChain.execute chain db
    = match WriteChain.issue_all
              (pre ++ WriteChain.op_put s value key :: post) dbo with
      | (Throw r, db1) => (Rejected r, snd (tx_finish db1))
      | (Ok _, db1) => (promisifyTransaction (fst (tx_finish db1)), snd (tx_finish db1))
      end).
  { unfold WriteChain.execute, chain.
    cbn [WriteChain.operations WriteChain.storeNames].
    rewrite nonempty_length by (destruct pre; discriminate).
    rewrite out_of_scope_all_in.
    2:{ intros n Hn. apply in_map_iff in Hn as (o & <- & Ho).
        apply in_app_or in Ho as [Ho | [<- | Ho]]; [now apply Hpre | exact Hs |].
        apply Hops, in_or_app. now right. }
    unfold bind at 1. rewrite Htx.
    destruct (WriteChain.issue_all (pre ++ WriteChain.op_put s value key :: post) dbo)
      as [[u|r] db1]; [|reflexivity].
    now destruct (tx_finish db1). }
  rewrite Hrun, Hrun_pre, write_issue_all_app. clear Hrun Hrun_pre.
  destruct (local_issue_all names pre Hpre dbo _ eq_refl)
    as (Ho & tx' & Ha & Hrows & Hscope & Hmode).
  destruct (emits_issue_all_write names pre dbo _ eq_refl eq_refl)
    as ((n & Hlog) & Hlog_all & _).
  assert (Hdbo : calls dbo = (calls db ++ [c_transaction names readwrite])%list)
    by reflexivity.
  destruct (WriteChain.issue_all pre dbo) as [[u|r] db1] eqn:Hissue; cbn [fst snd] in *.
  - (* the operations before the bad one are issued; the bad one throws *)
    destruct (Hrows s) as [_ Hschema]. cbn [tx_stores dbo opened] in Hschema.
    rewrite Hst in Hschema.
    destruct (tx_stores tx' !! s) as [st'|] eqn:Hst'; [|contradiction].
    destruct Hschema as [Hkp _].
    assert (Hbad : WriteChain.issue_all (WriteChain.op_put s value key :: post) db1
                   = (Throw (RDom DataError), add_calls [c_put s value key] db1)).
    { cbn [WriteChain.issue_all]. unfold bind.
      rewrite (issue_unkeyed_put s value key db1 tx' st' Ha); [reflexivity| | |exact Hst'|].
      - rewrite Hscope. exact Hs.
      - rewrite Hmode. reflexivity.
      - rewrite (resolve_key_keyPath st st' value key Hkp). exact Hk. }
    rewrite Hbad.
    assert (Hcalls :
      calls (snd (tx_finish (add_calls [c_put s value key] db1)))
      = (calls db ++ c_transaction names readwrite
           :: map write_call pre ++ [c_put s value key])%list).
    { rewrite tx_finish_calls. unfold add_calls. cbn [calls].
      rewrite (Hlog_all u eq_refl), Hdbo, <- !app_assoc. reflexivity. }
    cbn [fst snd]. split; [eauto|]. split; [reflexivity|].
    rewrite tx_finish_add_calls.
    split; [|split].
    + destruct pre as [|op pre']; [|reflexivity].
      cbn in Hissue. injection Hissue as _ Hdb. rewrite <- Hdb. cbn [snd].
      unfold tx_finish, dbo, opened. reflexivity.
    + exists (length (map write_call pre ++ [c_put s value key])).
      now rewrite firstn_all.
    + intros _. exact Hcalls.
  - (* an earlier operation throws: so does the whole chain, at the same place *)
    destruct pre as [|op pre']; [discriminate|].
    split; [eauto|]. split; [discriminate|]. split; [reflexivity|].
    split; [|discriminate].
    exists (Nat.min n (length (map write_call (op :: pre')))).
    rewrite tx_finish_calls, Hlog, Hdbo, <- app_assoc. cbn [app]. do 2 f_equal.
    rewrite take_app_le by apply Nat.le_min_r.
    destruct (Nat.le_ge_cases n (length (map write_call (op :: pre')))) as [Hn|Hn].
    + now rewrite Nat.min_l.
    + rewrite Nat.min_r by exact Hn. now rewrite !take_ge by lia.
Qed.

(** ** The upgrade handler *)




(** ** Requests as promises *)

Lemma promisifyRequest_settled {A} (events : list (request_event A)) :
  forall p, p <> Pending ->
  fold_left
    (fun p ev =>
       match ev with
       | req_success result => resolve result p
       | req_error error => reject error p
       end) events p = p.
Proof.
  induction events as [|ev events IH]; intros p Hp; [reflexivity|].
  cbn [fold_left]. destruct p as [|a|r]; [congruence| |]; destruct ev; cbn; now apply IH.
Qed.

Lemma openDatabase_fold {A} version onUpgradeNeeded onBlocked
    (events : list (open_event A)) :
  forall p called,
  fold_left (openDatabase_on version onUpgradeNeeded onBlocked) events (p, called)
  = (fold_left
       (fun p ev =>
          match ev with
          | req_success result => resolve result p
          | req_error error => reject error p
          end) (omap settling events) p,
     (called ++ omap (callback_of version onUpgradeNeeded onBlocked) events)%list).
Proof.
  induction events as [|ev events IH]; intros p called; cbn [fold_left].
  - now rewrite app_nil_r.
  - rewrite !omap_cons_step.
    destruct ev as [db|error|oldVersion newVersion|]; cbn [openDatabase_on settling callback_of].
    + rewrite IH. reflexivity.
    + rewrite IH. reflexivity.
    + destruct onUpgradeNeeded; rewrite IH; [|reflexivity]. now rewrite <- app_assoc.
    + destruct onBlocked; rewrite IH; [|reflexivity]. now rewrite <- app_assoc.
Qed.

(** X27.  The promise of [openDatabase] is settled by the first success or
    error event of the request and by nothing else: [upgradeneeded] and
    [blocked] events never settle it, and it is the promise
    [promisifyRequest] gives for the success and error events alone.  The
    callbacks that were passed are called once per such event, in order,
    with [event.newVersion ?? version] as the new version. *)
Theorem openDatabase_settles_once {A} (version : Z) (onUpgradeNeeded onBlocked : bool)
    (events : list (open_event A)) :
  fst (openDatabase version onUpgradeNeeded onBlocked events)
  = match omap settling events with
    | [] => Pending
    | req_success db :: _ => Fulfilled db
    | req_error error :: _ => Rejected error
    end /\
  fst (openDatabase version onUpgradeNeeded onBlocked events)
  = promisifyRequest (omap settling events) /\
  snd (openDatabase version onUpgradeNeeded onBlocked events)
  = omap (callback_of version onUpgradeNeeded onBlocked) events.
Proof.
  unfold openDatabase, promisifyRequest. rewrite openDatabase_fold. cbn [fst snd app].
  split; [|split; reflexivity].
  destruct (omap settling events) as [|[db|error] rest]; [reflexivity| |];
    cbn [fold_left resolve reject]; now apply promisifyRequest_settled.
Qed.

(** ** These properties on the example data *)

Lemma get_is_find_by_key_witness :
  (exists plan,
     QueryBuilderImpl.equals (StoreAccessor.query_builder Stock.products) (JStr "p2")
     = Ok plan /\
     fst (StoreAccessor.get Stock.products (JStr "p2") Sample.db)
     = fst (FinalQueryBuilderImpl.find plan Sample.db)) /\
  (QueryBuilderImpl.equals (StoreAccessor.query_builder Stock.products) JNull
   = Throw (RDom DataError) /\
   fst (StoreAccessor.get Stock.products JNull Sample.db) = Rejected (RDom DataError)).
Proof.
  assert (Hst : objectStores Sample.db !! StoreAccessor.storeName Stock.products
                = Some Sample.products) by (vm_compute; reflexivity).
  split.
  - apply (get_is_find_by_key Stock.products (JStr "p2") Sample.db Sample.products Hst).
    reflexivity.
  - apply (get_is_find_by_key Stock.products JNull Sample.db Sample.products Hst).
    reflexivity.
Defined.

Lemma rejected_chain_keeps_earlier_writes_witness :
  let first := [WriteChain.op_put "users" Sample.u1 None] in
  let chain := WriteChain.Make ["users"]
                 (first ++ WriteChain.op_put "users" ∅ None :: [WriteChain.op_clear "users"]) in
  (exists r, fst (WriteChain.execute chain Sample.db) = Rejected r) /\
  (fst (WriteChain.execute (WriteChain.Make ["users"] first) Sample.db) = Fulfilled tt ->
   fst (WriteChain.execute chain Sample.db) = Rejected (RDom DataError)) /\
  objectStores (snd (WriteChain.execute chain Sample.db))
  = objectStores (snd (WriteChain.execute (WriteChain.Make ["users"] first) Sample.db)) /\
  (exists k,
     calls (snd (WriteChain.execute chain Sample.db))
     = (calls Sample.db ++ c_transaction ["users"] readwrite
          :: take k (map write_call first ++ [c_put "users" ∅ None]))%list) /\
  (fst (WriteChain.execute (WriteChain.Make ["users"] first) Sample.db) = Fulfilled tt ->
   calls (snd (WriteChain.execute chain Sample.db))
   = (calls Sample.db ++ c_transaction ["users"] readwrite
        :: map write_call first ++ [c_put "users" ∅ None])%list).
Proof.
  intros first chain.
  apply (rejected_chain_keeps_earlier_writes ["users"] first [WriteChain.op_clear "users"]
           "users" ∅ None Sample.db Sample.users).
  - reflexivity.
  - intros n Hn. apply list_elem_of_singleton in Hn. subst n. vm_compute. eauto.
  - intros o [<- | [<- | []]]; apply list_elem_of_here.
  - apply list_elem_of_here.
  - vm_compute. reflexivity.
  - vm_compute. reflexivity.
Defined.
